(** * manifest/build.go: the build orchestration of a multi-service manifest

    A shallow embedding of [Build], [buildArgs], [copyFile] and [copyDir]
    of package [manifest], together with the parts of the Go standard
    library they call ([strings], [bufio], [path/filepath], [os],
    [io/ioutil], [sort]), and the properties of the specification that are
    settled against them.

    Conventions.
    - A Go [string] (a sequence of bytes) is a [string]; a map with string
      keys is a [gmap string _]; a slice is a [list].
    - A Go function that returns an [error] is a state transformer whose
      result is [Ok], [Err e] (a non-nil error returned) or [Panic] (a
      run-time panic unwinding the stack).
    - The file system is a tree of nodes; timestamps are integers. *)

From Stdlib Require Import ZArith NArith Ascii String List.
From stdpp Require Import base tactics option list sorting strings gmap fin_maps.

#[local] Set Warnings "-register-all".

Local Open Scope string_scope.
Local Open Scope list_scope.

(** ** Results of Go calls *)

(** [syscall.Errno] values the modelled system calls produce. *)
Inductive Errno := ENOENT | EEXIST | ENOTDIR | EISDIR | ELOOP | ENAMETOOLONG.

Definition errno_Error (e : Errno) : string :=
  match e with
  | ENOENT => "no such file or directory"
  | EEXIST => "file exists"
  | ENOTDIR => "not a directory"
  | EISDIR => "is a directory"
  | ELOOP => "too many levels of symbolic links"
  | ENAMETOOLONG => "file name too long"
  end.

(** A Go [error] value: an [*os.PathError], or an error made of a message
    ([fmt.Errorf], [errors.New], the errors of the command runner). *)
Inductive error :=
  | PathError (op path : string) (errno : Errno)
  | ErrorString (msg : string).

(** [err.Error()] *)
Definition Error (e : error) : string :=
  match e with
  | PathError op path errno => op ++ " " ++ path ++ ": " ++ errno_Error errno
  | ErrorString msg => msg
  end.

(** [os.IsNotExist(err)] *)
Definition os_IsNotExist (e : error) : bool :=
  match e with
  | PathError _ _ ENOENT => true
  | _ => false
  end.

Inductive res (A : Type) :=
  | Ok (a : A)
  | Err (e : error)
  | Panic (msg : string).
Arguments Ok {A} a.
Arguments Err {A} e.
Arguments Panic {A} msg.

(** A computation over a state [S]: the state after the call and its result. *)
Definition M (S A : Type) : Type := S -> S * res A.

Definition ret {S A} (a : A) : M S A := fun s => (s, Ok a).

Definition fail {S A} (e : error) : M S A := fun s => (s, Err e).

Definition bind {S A B} (m : M S A) (k : A -> M S B) : M S B :=
  fun s =>
    match m s with
    | (s', Ok a) => k a s'
    | (s', Err e) => (s', Err e)
    | (s', Panic msg) => (s', Panic msg)
    end.

Declare Scope go_scope.
Delimit Scope go_scope with go.
Notation "'do' x <- m ; k" := (bind m (fun x => k))
  (at level 10, x pattern, m at level 100, k at level 200) : go_scope.
Notation "'do_' m ; k" := (bind m (fun _ => k))
  (at level 10, m at level 100, k at level 200) : go_scope.

(** [if err := m; err != nil { return fmt.Errorf(format, err) }] *)
Definition wrap_err {S A} (prefix : string) (m : M S A) : M S A :=
  fun s =>
    match m s with
    | (s', Err e) => (s', Err (ErrorString (prefix ++ Error e)))
    | r => r
    end.

(** ** package strings *)

Module strings.

(** [strings.Contains(s, substr)] *)
Fixpoint Contains (s substr : string) : bool :=
  String.prefix substr s ||
  match s with
  | EmptyString => false
  | String _ s' => Contains s' substr
  end.

(** [strings.SplitN(s, sep, n)] for a one-byte separator and [n >= 0]:
    at most [n] pieces, the last one holding the unsplit rest. *)
Fixpoint SplitN (s : string) (sep : ascii) (n : nat) {struct s} : list string :=
  match n with
  | O => []
  | S O => [s]
  | S (S _ as n') =>
      match s with
      | EmptyString => [""]
      | String c s' =>
          if Ascii.eqb c sep then "" :: SplitN s' sep n'
          else match SplitN s' sep n with
               | t :: ts => String c t :: ts
               | [] => [String c ""]
               end
      end
  end.

(** [strings.Split(s, sep)] for a one-byte separator: every piece. *)
Fixpoint Split (s : string) (sep : ascii) : list string :=
  match s with
  | EmptyString => [""]
  | String c s' =>
      if Ascii.eqb c sep then "" :: Split s' sep
      else match Split s' sep with
           | t :: ts => String c t :: ts
           | [] => [String c ""]
           end
  end.

(** [strings.Join(elems, sep)] *)
Fixpoint Join (elems : list string) (sep : string) : string :=
  match elems with
  | [] => ""
  | [e] => e
  | e :: rest => e ++ sep ++ Join rest sep
  end.

Definition byte_at (s : string) (i : nat) : N :=
  match String.get i s with
  | Some c => N_of_ascii c
  | None => 256
  end.

(** The width in bytes of the white-space rune that starts [s], or [0]:
    [unicode.IsSpace] on the UTF-8 decoding, that is tab, LF, VT, FF, CR,
    space, U+0085, U+00A0, U+1680, U+2000..U+200A, U+2028, U+2029,
    U+202F, U+205F and U+3000. *)
Definition space_width (s : string) : nat :=
  let b0 := byte_at s 0 in
  let b1 := byte_at s 1 in
  let b2 := byte_at s 2 in
  if ((9 <=? b0) && (b0 <=? 13) || (b0 =? 32))%N then 1
  else if ((b0 =? 194) && ((b1 =? 133) || (b1 =? 160)))%N then 2
  else if ((b0 =? 225) && (b1 =? 154) && (b2 =? 128))%N then 3
  else if ((b0 =? 226) && (b1 =? 128) &&
           ((128 <=? b2) && (b2 <=? 138) || (b2 =? 168) || (b2 =? 169) || (b2 =? 175)))%N then 3
  else if ((b0 =? 226) && (b1 =? 129) && (b2 =? 159))%N then 3
  else if ((b0 =? 227) && (b1 =? 128) && (b2 =? 128))%N then 3
  else 0.

Definition flush (cur : string) : list string :=
  if String.eqb cur "" then [] else [cur].

(** [skip] counts the bytes of a white-space rune still to be passed,
    [cur] is the field being read. *)
Fixpoint Fields_go (skip : nat) (cur : string) (s : string) : list string :=
  match s with
  | EmptyString => flush cur
  | String c s' =>
      match skip with
      | S k => Fields_go k cur s'
      | O =>
          match space_width s with
          | O => Fields_go 0 (cur ++ String c "") s'
          | S k => flush cur ++ Fields_go k "" s'
          end
      end
  end.

(** [strings.Fields(s)]: the maximal runs of non-white-space. *)
Definition Fields (s : string) : list string := Fields_go 0 "" s.

End strings.

(** ** package bufio: a [Scanner] with the default split function *)

Module bufio.

(** [bufio.MaxScanTokenSize] *)
Definition MaxScanTokenSize : N := 65536.

Definition LF : ascii := ascii_of_N 10.
Definition CR : ascii := ascii_of_N 13.

(** The input cut at every newline; text after the last newline is a
    line of its own when it is not empty. *)
Fixpoint raw_lines (cur : string) (data : string) : list string :=
  match data with
  | EmptyString => if String.eqb cur "" then [] else [cur]
  | String c rest =>
      if Ascii.eqb c LF then cur :: raw_lines "" rest
      else raw_lines (cur ++ String c "") rest
  end.

(** [dropCR] of [bufio.ScanLines] *)
Fixpoint dropCR (line : string) : string :=
  match line with
  | EmptyString => ""
  | String c EmptyString => if Ascii.eqb c CR then "" else line
  | String c rest => String c (dropCR rest)
  end.

(** A line fits the scanner's buffer when it and its newline take at
    most [MaxScanTokenSize] bytes. *)
Definition fits (line : string) : bool :=
  (N.of_nat (String.length line) <? MaxScanTokenSize)%N.

Fixpoint take_fitting (ls : list string) : list string :=
  match ls with
  | [] => []
  | l :: rest => if fits l then l :: take_fitting rest else []
  end.

(** The successive values of [scanner.Text()] while [scanner.Scan()]
    returns true. A line too long for the buffer stops the scan
    ([ErrTooLong], which only [scanner.Err()] reports). *)
Definition Scan_all (data : string) : list string :=
  map dropCR (take_fitting (raw_lines "" data)).

End bufio.

(** ** package path/filepath *)

Module filepath.

Definition slash : ascii := "/"%char.

Definition rooted (path : string) : bool := String.prefix "/" path.

(** One element of a path applied to the elements kept so far (innermost
    last): empty and [.] elements vanish, [..] removes the element before
    it, stays put at the root and is kept at the front of a relative path. *)
Definition clean_step (root : bool) (kept : list string) (elem : string) : list string :=
  if String.eqb elem "" || String.eqb elem "." then kept
  else if String.eqb elem ".." then
    match last kept with
    | None => if root then kept else kept ++ [elem]
    | Some e => if String.eqb e ".." then kept ++ [elem] else removelast kept
    end
  else kept ++ [elem].

Definition clean_elems (root : bool) (kept : list string) (elems : list string) : list string :=
  fold_left (clean_step root) elems kept.

(** [filepath.Clean(path)] *)
Definition Clean (path : string) : string :=
  let elems := clean_elems (rooted path) [] (strings.Split path slash) in
  if rooted path then "/" ++ strings.Join elems "/"
  else match elems with
       | [] => "."
       | _ => strings.Join elems "/"
       end.

(** [filepath.Join(elem...)] *)
Definition Join (elem : list string) : string :=
  match List.filter (fun e => negb (String.eqb e "")) elem with
  | [] => ""
  | es => Clean (strings.Join es "/")
  end.

End filepath.

(** ** The file system

    A tree of directories, regular files and symbolic links. A path is
    the list of its elements from the root, the working directory being
    the root. A symbolic link met as the last element of a path is
    followed by the calls that follow links ([os.Stat], [os.Open],
    [os.Create], [os.Chmod], [os.Chtimes]); the directories on the way to a
    node are directories of the tree itself. Permission and ownership
    checks are outside the model: every call is made with full access. *)

Module fsys.

Definition path := list string.

Inductive node :=
  | File (data : string) (perm : Z) (atime mtime : Z)
  | Dir (perm : Z) (entries : gmap string node)
  | Symlink (target : string).

Record FS := mkFS {
  tree : node;      (* the root directory *)
  umask : Z;        (* the process's file mode creation mask *)
  clock : Z         (* the time stamped on what is created or written *)
}.

(** [os.FileMode] bits *)
Definition ModeDir : Z := Z.shiftl 1 31.
Definition ModeSymlink : Z := Z.shiftl 1 27.
Definition ModeSetuid : Z := Z.shiftl 1 23.
Definition ModeSetgid : Z := Z.shiftl 1 22.
Definition ModeSticky : Z := Z.shiftl 1 20.
Definition ModePerm : Z := 511.

(** The bits [os.Chmod] and [os.Mkdir] hand to the system
    ([syscallMode]). *)
Definition permMask : Z :=
  Z.lor ModePerm (Z.lor ModeSetuid (Z.lor ModeSetgid ModeSticky)).

(** [os.FileInfo] *)
Record FileInfo := mkInfo {
  Name : string;
  Size : Z;
  Mode : Z;
  ModTime : Z
}.

Definition IsDir (fi : FileInfo) : bool := negb (Z.land (Mode fi) ModeDir =? 0)%Z.

Definition node_mode (n : node) : Z :=
  match n with
  | File _ perm _ _ => Z.land perm permMask
  | Dir perm _ => Z.lor ModeDir (Z.land perm permMask)
  | Symlink _ => Z.lor ModeSymlink ModePerm
  end.

Definition node_info (name : string) (n : node) : FileInfo :=
  match n with
  | File data _ _ mtime =>
      mkInfo name (Z.of_nat (String.length data)) (node_mode n) mtime
  | Dir _ _ => mkInfo name 4096 (node_mode n) 0
  | Symlink target => mkInfo name (Z.of_nat (String.length target)) (node_mode n) 0
  end.

(** The node a path of the tree leads to. *)
Fixpoint walk (n : node) (p : path) : Errno + node :=
  match p with
  | [] => inr n
  | e :: p' =>
      match n with
      | Dir _ entries =>
          match entries !! e with
          | Some child => walk child p'
          | None => inl ENOENT
          end
      | _ => inl ENOTDIR
      end
  end.

(** The tree with the node at [p] replaced by [v], or removed. *)
Fixpoint put (n : node) (p : path) (v : option node) : Errno + node :=
  match p with
  | [] => match v with Some m => inr m | None => inl EISDIR end
  | e :: p' =>
      match n with
      | Dir perm entries =>
          match p' with
          | [] => inr (Dir perm (partial_alter (fun _ => v) e entries))
          | _ =>
              match entries !! e with
              | Some child =>
                  match put child p' v with
                  | inr child' => inr (Dir perm (<[e := child']> entries))
                  | inl err => inl err
                  end
              | None => inl ENOENT
              end
          end
      | _ => inl ENOTDIR
      end
  end.

(** A path name read from the directory [base]. *)
Definition resolve (base : path) (name : string) : path :=
  filepath.clean_elems true
    (if filepath.rooted name then [] else base)
    (strings.Split name filepath.slash).

(** The path a name denotes; the empty name denotes nothing. *)
Definition locate (name : string) : Errno + path :=
  if String.eqb name "" then inl ENOENT else inr (resolve [] name).

Definition render (p : path) : string := "/" ++ strings.Join p "/".

(** The number of symbolic links the system follows for one name. *)
Definition maxSymlinks : nat := 40.

(** [readlink]: the target of the link at [p], when there is one. *)
Definition link_target (t : node) (p : path) : option string :=
  match walk t p with
  | inr (Symlink target) => Some target
  | _ => None
  end.

(** The path reached from [p] by following the links at its end. *)
Fixpoint follow (hops : nat) (t : node) (p : path) : Errno + path :=
  match link_target t p with
  | Some target =>
      match hops with
      | O => inl ELOOP
      | S h => follow h t (resolve (removelast p) target)
      end
  | None => inr p
  end.

(** The node at a path, the last link followed, and where it is. *)
Definition stat_at (t : node) (p : path) : Errno + (path * node) :=
  match follow maxSymlinks t p with
  | inl err => inl err
  | inr q => match walk t q with inl err => inl err | inr n => inr (q, n) end
  end.

(** The node of a name, the last link not followed ([lstat]) or
    followed ([stat]), and where it is. *)
Definition lstat_node (t : node) (name : string) : Errno + (path * node) :=
  match locate name with
  | inl err => inl err
  | inr p => match walk t p with inl err => inl err | inr n => inr (p, n) end
  end.

Definition stat_node (t : node) (name : string) : Errno + (path * node) :=
  match locate name with
  | inl err => inl err
  | inr p => stat_at t p
  end.

Definition base_name (name : string) : string :=
  match last (strings.Split name filepath.slash) with
  | Some e => e
  | None => name
  end.

Definition set_tree (fs : FS) (t : node) : FS := mkFS t (umask fs) (clock fs).

(** A name the entries of a directory can bear. *)
Definition valid_name (e : string) : bool :=
  negb (String.eqb e "") && negb (String.eqb e ".") && negb (String.eqb e "..")
  && negb (strings.Contains e "/").

Definition by_name (a b : FileInfo) : Prop := String.le (Name a) (Name b).

#[global] Instance by_name_dec : RelDecision by_name :=
  fun a b => decide (String.le (Name a) (Name b)).

Definition is_dir (n : node) : bool :=
  match n with Dir _ _ => true | _ => false end.

(** [mkdir] at a path: the parent is there, the path is not. *)
Definition mkdir_at (p : path) (perm : Z) (fs : FS) : Errno + FS :=
  match walk (tree fs) p with
  | inr _ => inl EEXIST
  | inl ENOENT =>
      match put (tree fs) p (Some (Dir (Z.ldiff (Z.land perm permMask) (umask fs)) ∅)) with
      | inr t => inr (set_tree fs t)
      | inl err => inl err
      end
  | inl err => inl err
  end.

Definition is_root (p : path) : bool :=
  match p with [] => true | _ => false end.

(** [os.MkdirAll] on the elements of the path, innermost first: the
    quick answer when the path exists, else the parent is made (unless
    it is the root), then the directory itself. What was made stays
    when a later step fails. *)
Fixpoint mkdirAll_rev (rp : list string) (perm : Z) (fs : FS) : FS * option Errno :=
  match stat_at (tree fs) (rev rp) with
  | inr (_, n) => if is_dir n then (fs, None) else (fs, Some ENOTDIR)
  | inl _ =>
      let parent_made :=
        match rp with
        | _ :: parent =>
            if is_root parent then (fs, None) else mkdirAll_rev parent perm fs
        | [] => (fs, None)
        end in
      match parent_made with
      | (fs1, None) =>
          match mkdir_at (rev rp) perm fs1 with
          | inr fs2 => (fs2, None)
          | inl err =>
              match walk (tree fs1) (rev rp) with
              | inr (Dir _ _) => (fs1, None)
              | _ => (fs1, Some err)
              end
          end
      | r => r
      end
  end.

End fsys.

(** ** package os, io and io/ioutil over the file system *)

Module os.
Import fsys.

(** [os.Lstat(name)] *)
Definition Lstat (name : string) : M FS FileInfo := fun fs =>
  match lstat_node (tree fs) name with
  | inl err => (fs, Err (PathError "lstat" name err))
  | inr (_, n) => (fs, Ok (node_info (base_name name) n))
  end.

(** [os.Stat(name)] *)
Definition Stat (name : string) : M FS FileInfo := fun fs =>
  match stat_node (tree fs) name with
  | inl err => (fs, Err (PathError "stat" name err))
  | inr (_, n) => (fs, Ok (node_info (base_name name) n))
  end.

(** [os.Mkdir(name, perm)] *)
Definition Mkdir (name : string) (perm : Z) : M FS unit := fun fs =>
  match locate name with
  | inl err => (fs, Err (PathError "mkdir" name err))
  | inr p =>
      match mkdir_at p perm fs with
      | inr fs' => (fs', Ok tt)
      | inl err => (fs, Err (PathError "mkdir" name err))
      end
  end.

(** [os.MkdirAll(path, perm)] *)
Definition MkdirAll (name : string) (perm : Z) : M FS unit := fun fs =>
  match locate name with
  | inl err => (fs, Err (PathError "mkdir" name err))
  | inr p =>
      match mkdirAll_rev (rev p) perm fs with
      | (fs', None) => (fs', Ok tt)
      | (fs', Some err) => (fs', Err (PathError "mkdir" name err))
      end
  end.

(** [os.RemoveAll(path)]: the node and all it holds; no error when
    there is nothing at the path. *)
Definition RemoveAll (name : string) : M FS unit := fun fs =>
  if String.eqb name "" then (fs, Ok tt) else
  let p := resolve [] name in
  match walk (tree fs) p with
  | inl ENOENT => (fs, Ok tt)
  | inl err => (fs, Err (PathError "unlinkat" name err))
  | inr _ =>
      match put (tree fs) p None with
      | inr t => (set_tree fs t, Ok tt)
      | inl err => (fs, Err (PathError "unlinkat" name err))
      end
  end.

(** An open file: the place of the node it was opened at. *)
Definition file := path.

(** [os.Open(name)] *)
Definition Open (name : string) : M FS file := fun fs =>
  match stat_node (tree fs) name with
  | inl err => (fs, Err (PathError "open" name err))
  | inr (p, _) => (fs, Ok p)
  end.

(** [os.Create(name)]: a new empty file, or the file that is there cut
    to no content. *)
Definition Create (name : string) : M FS file := fun fs =>
  match locate name with
  | inl err => (fs, Err (PathError "open" name err))
  | inr p0 =>
      match follow maxSymlinks (tree fs) p0 with
      | inl err => (fs, Err (PathError "open" name err))
      | inr p =>
          let make (n : node) :=
            match put (tree fs) p (Some n) with
            | inr t => (set_tree fs t, Ok p)
            | inl err => (fs, Err (PathError "open" name err))
            end in
          match walk (tree fs) p with
          | inr (File _ perm atime _) => make (File "" perm atime (clock fs))
          | inr _ => (fs, Err (PathError "open" name EISDIR))
          | inl ENOENT =>
              make (File "" (Z.ldiff 438 (umask fs)) (clock fs) (clock fs))
          | inl err => (fs, Err (PathError "open" name err))
          end
      end
  end.

(** [io.Copy(dst, src)]: what is read from [src] up to its end is
    written at the end of [dst]. *)
Definition io_Copy (dst src : file) : M FS Z := fun fs =>
  match walk (tree fs) src with
  | inr (File data _ _ _) =>
      match walk (tree fs) dst with
      | inr (File old perm atime _) =>
          match put (tree fs) dst (Some (File (old ++ data) perm atime (clock fs))) with
          | inr t => (set_tree fs t, Ok (Z.of_nat (String.length data)))
          | inl err => (fs, Err (PathError "write" (render dst) err))
          end
      | inr _ => (fs, Err (PathError "write" (render dst) EISDIR))
      | inl err => (fs, Err (PathError "write" (render dst) err))
      end
  | inr _ => (fs, Err (PathError "read" (render src) EISDIR))
  | inl err => (fs, Err (PathError "read" (render src) err))
  end.

(** [f.Sync()] *)
Definition Sync (f : file) : M FS unit := ret tt.

(** [os.Chmod(name, mode)] *)
Definition Chmod (name : string) (mode : Z) : M FS unit := fun fs =>
  match stat_node (tree fs) name with
  | inl err => (fs, Err (PathError "chmod" name err))
  | inr (p, n) =>
      let n' :=
        match n with
        | File data _ atime mtime => File data (Z.land mode permMask) atime mtime
        | Dir _ entries => Dir (Z.land mode permMask) entries
        | Symlink _ => n
        end in
      match put (tree fs) p (Some n') with
      | inr t => (set_tree fs t, Ok tt)
      | inl err => (fs, Err (PathError "chmod" name err))
      end
  end.

(** [os.Chtimes(name, atime, mtime)] *)
Definition Chtimes (name : string) (atime mtime : Z) : M FS unit := fun fs =>
  match stat_node (tree fs) name with
  | inl err => (fs, Err (PathError "chtimes" name err))
  | inr (p, n) =>
      let n' :=
        match n with
        | File data perm _ _ => File data perm atime mtime
        | _ => n
        end in
      match put (tree fs) p (Some n') with
      | inr t => (set_tree fs t, Ok tt)
      | inl err => (fs, Err (PathError "chtimes" name err))
      end
  end.

(** [ioutil.ReadFile(filename)] *)
Definition ReadFile (name : string) : M FS string := fun fs =>
  match stat_node (tree fs) name with
  | inl err => (fs, Err (PathError "open" name err))
  | inr (_, File data _ _ _) => (fs, Ok data)
  | inr _ => (fs, Err (PathError "read" name EISDIR))
  end.

(** [ioutil.ReadDir(dirname)]: the entries of the directory, each as
    [lstat] sees it, sorted by name. *)
Definition ReadDir (name : string) : M FS (list FileInfo) := fun fs =>
  match stat_node (tree fs) name with
  | inl err => (fs, Err (PathError "open" name err))
  | inr (_, Dir _ entries) =>
      let infos :=
        map (fun kn => node_info (fst kn) (snd kn))
            (List.filter (fun kn => valid_name (fst kn)) (map_to_list entries)) in
      (fs, Ok (merge_sort by_name infos))
  | inr _ => (fs, Err (PathError "readdirent" name ENOTDIR))
  end.

End os.

(** ** The data of package manifest that [Build] reads *)

(** [service.Build]: the build section of a service. *)
Record BuildSpec := mkBuildSpec {
  build_Context : string;
  build_Dockerfile : string;
  build_Args : gmap string string
}.

(** [Service]: the fields [Build] reads. *)
Record Service := mkService {
  svc_Name : string;
  svc_Image : string;
  svc_Dockerfile : string;
  svc_Build : BuildSpec
}.

Record BuildOptions := mkBuildOptions {
  Cache : bool;
  CacheDir : string;
  Environment : gmap string string;
  opt_Service : string;
  Verbose : bool
}.

(** [*exec.Cmd]: the program and its arguments. *)
Definition Cmd := list string.

(** [RunnerOptions] *)
Record RunnerOptions := mkRunnerOptions {
  ro_Verbose : bool;
  ro_StreamHandlers : list (string -> string)
}.

(** What a command leaves behind: the lines it sends to the stream, its
    error, the combined output when it is captured, the files and the
    container engine after it. *)
Record Ran (ext : Type) := mkRan {
  ran_lines : list string;
  ran_output : string;
  ran_err : option error;
  ran_files : fsys.FS;
  ran_engine : ext
}.
Arguments mkRan {ext}.
Arguments ran_lines {ext}.
Arguments ran_output {ext}.
Arguments ran_err {ext}.
Arguments ran_files {ext}.
Arguments ran_engine {ext}.

(** What [Build] is given by the rest of the package and by the system:
    the manifest with its run order, the tag and the hash of a service,
    the command runner ([DefaultRunner]), process execution ([os/exec]),
    and the order in which [range] visits a map, which Go leaves open. *)
Class Platform := {
  ext : Type;
  Manifest : Type;
  runOrder : Manifest -> string -> list Service + error;
  Tag : Service -> string -> string;
  Hash : BuildSpec -> string;
  runner_Run : Cmd -> RunnerOptions -> fsys.FS -> ext -> Ran ext;
  runner_CombinedOutput : Cmd -> fsys.FS -> ext -> Ran ext;
  exec_Run : Cmd -> fsys.FS -> ext -> Ran ext;
  map_range : forall V : Type, gmap string V -> list (string * V);
  map_range_perm : forall (V : Type) (m : gmap string V), map_range V m ≡ₚ map_to_list m
}.

(** Modelled from the spec: [coalesce] is declared elsewhere in the
    package; the spec has a value default to a fallback ("context defaults
    to ...", "file defaults to ... unless the service specifies an
    override"), so the first argument is taken unless it is empty. *)
Definition coalesce (s fallback : string) : string :=
  if String.eqb s "" then fallback else s.

(** Modelled from the spec: [Docker] is declared elsewhere in the
    package; the spec's command lines are the arguments given to the
    container build engine, so the command is the engine's program
    followed by the arguments. *)
Definition Docker (args : list string) : Cmd := "docker" :: args.

(** A call that left the process. *)
Inductive event :=
  | EvRun (c : Cmd)               (* DefaultRunner.Run(s, c, opts) *)
  | EvCombinedOutput (c : Cmd)    (* DefaultRunner.CombinedOutput(c) *)
  | EvExec (c : Cmd).             (* exec.Command(...).Run() *)

(** ** [copyFile] and [copyDir] *)

Import fsys.

Definition copyFile (src dst : string) : M FS unit :=
  (do in_ <- os.Open src;
   do out <- os.Create dst;
   do_ os.io_Copy out in_;
   do_ os.Sync out;
   do stat <- os.Stat src;
   do_ os.Chmod dst (Mode stat);
   do_ os.Chtimes dst (ModTime stat) (ModTime stat);
   ret tt)%go.

(** [for _, x := range xs { body }] where the body may return an error. *)
Fixpoint for_each {S A} (xs : list A) (body : A -> M S unit) : M S unit :=
  match xs with
  | [] => ret tt
  | x :: rest => (do_ body x; for_each rest body)%go
  end.

(** The nesting [copyDir] can reach: each level adds an element to both
    paths, and a path of more than [PATH_MAX] = 4096 bytes is refused by
    the system with [ENAMETOOLONG]. *)
Definition maxDepth : nat := 2048.

Fixpoint copyDir (depth : nat) (src dst : string) : M FS unit :=
  match depth with
  | O => fail (PathError "stat" src ENAMETOOLONG)
  | S depth' =>
      let src := filepath.Clean src in
      let dst := filepath.Clean dst in
      (do si <- os.Stat src;
       if negb (IsDir si) then fail (ErrorString "source is not a directory")
       else fun fs =>
         match os.Stat dst fs with
         | (fs1, Ok _) => (fs1, Err (ErrorString "destination already exists"))
         | (fs1, Panic msg) => (fs1, Panic msg)
         | (fs1, Err err) =>
             if negb (os_IsNotExist err) then (fs1, Err err)
             else
               (do_ os.MkdirAll dst (Mode si);
                do files <- os.ReadDir src;
                for_each files (fun f =>
                  let srcPath := filepath.Join [src; Name f] in
                  let dstPath := filepath.Join [dst; Name f] in
                  if IsDir f then copyDir depth' srcPath dstPath
                  else if negb (Z.land (Mode f) ModeSymlink =? 0)%Z then ret tt
                  else copyFile srcPath dstPath)) fs1
         end)%go
  end.

(** ** [buildArgs] *)

(** The body of the scanning loop on one line. *)
Definition scan_line (args : list string) (line : string) : res (list string) :=
  let parts := strings.Fields line in
  if (length parts <? 1)%nat then Ok args
  else
    match parts !! 0%nat with
    | None => Panic "runtime error: index out of range [0] with length 0"
    | Some keyword =>
        if String.eqb keyword "ARG" then
          match parts !! 1%nat with
          | None => Panic "runtime error: index out of range [1] with length 1"
          | Some decl =>
              match strings.SplitN decl "="%char 2 !! 0%nat with
              | None => Panic "runtime error: index out of range [0] with length 0"
              | Some name => Ok (args ++ [name])
              end
          end
        else Ok args
    end.

Fixpoint scan_lines (args : list string) (lines : list string) : res (list string) :=
  match lines with
  | [] => Ok args
  | line :: rest =>
      match scan_line args line with
      | Ok args' => scan_lines args' rest
      | r => r
      end
  end.

Definition buildArgs (dockerfile : string) : M FS (list string) :=
  (do data <- os.ReadFile dockerfile;
   fun fs => (fs, scan_lines [] (bufio.Scan_all data)))%go.

(** ** [Build] *)

Section build.
Context `{Platform}.

(** The world [Build] runs in: the files, the container engine, the
    lines received by the stream [s], and the calls made so far. *)
Record World := mkWorld {
  files : FS;
  engine : ext;
  sink : list string;
  trace : list event
}.

(** A file-system call made from [Build]. *)
Definition on_files {A} (m : M FS A) : M World A := fun w =>
  match m (files w) with
  | (fs, r) => (mkWorld fs (engine w) (sink w) (trace w), r)
  end.

(** [s <- line] *)
Definition send (line : string) : M World unit := fun w =>
  (mkWorld (files w) (engine w) (sink w ++ [line]) (trace w), Ok tt).

Definition ran_world (w : World) (ev : event) (r : Ran ext) : World :=
  mkWorld (ran_files r) (ran_engine r) (sink w ++ ran_lines r) (trace w ++ [ev]).

Definition ran_result (r : Ran ext) : res unit :=
  match ran_err r with
  | Some err => Err err
  | None => Ok tt
  end.

(** [DefaultRunner.Run(s, cmd, opts)] *)
Definition Run (cmd : Cmd) (opts : RunnerOptions) : M World unit := fun w =>
  let r := runner_Run cmd opts (files w) (engine w) in
  (ran_world w (EvRun cmd) r, ran_result r).

(** [DefaultRunner.CombinedOutput(cmd)] *)
Definition CombinedOutput (cmd : Cmd) : M World string := fun w =>
  let r := runner_CombinedOutput cmd (files w) (engine w) in
  (mkWorld (ran_files r) (ran_engine r) (sink w) (trace w ++ [EvCombinedOutput cmd]),
   match ran_err r with
   | Some err => Err err
   | None => Ok (ran_output r)
   end).

(** [exec.Command(name, arg...).Run()] *)
Definition exec_Command_Run (cmd : Cmd) : M World unit := fun w =>
  let r := exec_Run cmd (files w) (engine w) in
  (mkWorld (ran_files r) (ran_engine r) (sink w) (trace w ++ [EvExec cmd]), ran_result r).

(** A call whose error is looked at, not returned: the error or nil. *)
Definition try {S A} (m : M S A) : M S (option error) := fun s =>
  match m s with
  | (s', Ok _) => (s', Ok None)
  | (s', Err err) => (s', Ok (Some err))
  | (s', Panic msg) => (s', Panic msg)
  end.

(** The plan: the tags to give each image to pull, and the services to
    build. *)
Definition Plan : Type := gmap string (list string) * list Service.

(** Lines 38 to 43: the image reference with its tag made explicit. *)
Definition normalize_image (image : string) : res string :=
  let sp := strings.Split image filepath.slash in
  match sp !! (length sp - 1)%nat with
  | None => Panic "runtime error: index out of range [-1]"
  | Some seg =>
      if negb (strings.Contains seg ":") then Ok (image ++ ":latest")%string
      else Ok image
  end.

(** The body of the first loop. *)
Definition plan_service (appName : string) (plan : Plan) (service : Service) : res Plan :=
  let '(pulls, builds) := plan in
  if negb (String.eqb (svc_Image service) "") then
    match normalize_image (svc_Image service) with
    | Ok image =>
        Ok (<[image := default [] (pulls !! image) ++ [Tag service appName]]> pulls, builds)
    | Err err => Err err
    | Panic msg => Panic msg
    end
  else Ok (pulls, builds ++ [service]).

Fixpoint plan_services (appName : string) (plan : Plan) (services : list Service) : res Plan :=
  match services with
  | [] => Ok plan
  | service :: rest =>
      match plan_service appName plan service with
      | Ok plan' => plan_services appName plan' rest
      | r => r
      end
  end.

(** Lines 79 to 81: the local staging directory is cleared. *)
Definition clear_staging (lcd : string) : M World unit :=
  (do err <- try (on_files (os.RemoveAll lcd));
   match err with
   | Some err => send ("cache error: " ++ Error err)
   | None => ret tt
   end)%go.

(** Lines 83 to 88: the entry of the cache store is copied in place. *)
Definition copy_cache (rcd lcd : string) : M World unit :=
  (do err <- try (on_files (copyDir maxDepth rcd lcd));
   match err with
   | Some err =>
       (* do not display "error" if dir doesn't exist *)
       if negb (strings.Contains (Error err) "no such file or directory")
       then send ("cache error: " ++ Error err)
       else ret tt
   | None => ret tt
   end)%go.

(** Lines 71 to 90: the cache of an earlier build is put in place. *)
Definition restore_cache (dir : string) (opts : BuildOptions) (service : Service) : M World unit :=
  if negb (String.eqb (CacheDir opts) "") then
    let rcd := filepath.Join [CacheDir opts; Hash (svc_Build service)] in
    let lcd := filepath.Join [dir; ".cache"; "build"] in
    (do err <- try (on_files (os.Stat rcd));
     match err with
     | Some _ => ret tt      (* absent, "do nothing"; any other error likewise *)
     | None => do_ clear_staging lcd; copy_cache rcd lcd
     end)%go
  else ret tt.

(** Lines 92 to 96: the build arguments of the service, copied. *)
Definition copy_args (args : gmap string string) : gmap string string :=
  fold_left (fun bargs kv => <[fst kv := snd kv]> bargs) (map_range _ args) ∅.

(** Lines 103 to 107: the declared arguments the environment sets. *)
Definition env_args (env : gmap string string) (dba : list string)
    (bargs : gmap string string) : gmap string string :=
  fold_left (fun bargs ba =>
               match env !! ba with
               | Some v => <[ba := v]> bargs
               | None => bargs
               end) dba bargs.

(** [sort.Strings] *)
Definition sort_Strings (l : list string) : list string := merge_sort String.le l.

(** Lines 109 to 119: the arguments as flags, by sorted name. *)
Definition arg_flags (bargs : gmap string string) (args : list string) : list string :=
  let bargNames := fold_left (fun names kv => names ++ [fst kv]) (map_range _ bargs) [] in
  let bargNames := sort_Strings bargNames in
  fold_left (fun args name =>
               args ++ ["--build-arg"; (name ++ "=" ++ default "" (bargs !! name))%string])
            bargNames args.

(** The output filter of the build and cache commands. *)
Definition cache_filter (str : string) : string :=
  if strings.Contains str "/var/cache/build: no such file or directory" then ""
  else str.

Section save.
Variable appName : string.
Variable opts : BuildOptions.
Variable service : Service.
Variable ropts : RunnerOptions.

Let hash := Hash (svc_Build service).

(** Lines 145 to 147: a temporary container of the image built. *)
Definition create_container : M World unit :=
  (do err <- try (Run (Docker ["create"; "--name"; hash; Tag service appName]) ropts);
   match err with
   | Some err => send ("cache error: " ++ Error err)
   | None => ret tt
   end)%go.

(** Line 149: the entry of an earlier build is removed. *)
Definition remove_stale : M World unit :=
  (do _ <- try (exec_Command_Run ["rm"; "-rf"; filepath.Join [CacheDir opts; hash]]);
   ret tt)%go.

(** Lines 151 to 153: the cache path of the container is extracted. *)
Definition extract_cache : M World unit :=
  (do err <- try (Run (Docker ["cp"; (hash ++ ":/var/cache/build")%string;
                               filepath.Join [CacheDir opts; hash]]) ropts);
   match err with
   | Some _ => send "ignoring build cache"
   | None => ret tt
   end)%go.

(** Lines 155 to 157: the temporary container is removed. *)
Definition remove_container : M World unit :=
  (do err <- try (Run (Docker ["rm"; hash]) ropts);
   match err with
   | Some err => send ("cache error: " ++ Error err)
   | None => ret tt
   end)%go.

(** Lines 142 to 158: the cache of this build is kept. *)
Definition save_cache : M World unit :=
  if negb (String.eqb (CacheDir opts) "") then
    (do_ create_container;
     do_ remove_stale;
     do_ extract_cache;
     remove_container)%go
  else ret tt.

End save.

(** The build command: lines 60 to 69 and 109 to 123. *)
Definition build_command (dir appName : string) (opts : BuildOptions) (service : Service)
    (bargs : gmap string string) : list string :=
  let args := ["build"] in
  let args := if negb (Cache opts) then args ++ ["--no-cache"] else args in
  let context := filepath.Join [dir; coalesce (build_Context (svc_Build service)) "."] in
  let dockerFile := coalesce (svc_Dockerfile service) "Dockerfile" in
  let dockerFile := coalesce (build_Dockerfile (svc_Build service)) dockerFile in
  let dockerFile := filepath.Join [context; dockerFile] in
  let args := arg_flags bargs args in
  let args := args ++ ["-f"; dockerFile] in
  let args := args ++ ["-t"; Tag service appName] in
  let args := args ++ [context] in
  args.

(** Lines 92 to 160: the arguments are merged, the image is built, its
    cache is kept and the memo records the tag. *)
Definition run_build (dir appName : string) (opts : BuildOptions)
    (buildCache : gmap string string) (service : Service) : M World (gmap string string) :=
  let context := filepath.Join [dir; coalesce (build_Context (svc_Build service)) "."] in
  let dockerFile := coalesce (svc_Dockerfile service) "Dockerfile" in
  let dockerFile := coalesce (build_Dockerfile (svc_Build service)) dockerFile in
  let dockerFile := filepath.Join [context; dockerFile] in
  let bargs := copy_args (build_Args (svc_Build service)) in
  (do dba <- on_files (buildArgs dockerFile);
   let bargs := env_args (Environment opts) dba bargs in
   let args := build_command dir appName opts service bargs in
   let ropts := mkRunnerOptions (Verbose opts) [cache_filter] in
   do_ wrap_err "build error: " (Run (Docker args) ropts);
   do_ save_cache appName opts service ropts;
   ret (<[Hash (svc_Build service) := Tag service appName]> buildCache))%go.

(** The body of the loop over the services to build; [buildCache] is
    the memo from hash to tag, returned as the body leaves it. *)
Definition build_service (dir appName : string) (opts : BuildOptions)
    (buildCache : gmap string string) (service : Service) : M World (gmap string string) :=
  match buildCache !! Hash (svc_Build service) with
  | Some bc =>
      (do_ wrap_err "build error: "
             (Run (Docker ["tag"; bc; Tag service appName])
                  (mkRunnerOptions (Verbose opts) []));
       ret buildCache)%go
  | None =>
      (do_ restore_cache dir opts service;
       run_build dir appName opts buildCache service)%go
  end.

(** The loop over the services to build. *)
Fixpoint build_services (dir appName : string) (opts : BuildOptions)
    (buildCache : gmap string string) (builds : list Service) : M World (gmap string string) :=
  match builds with
  | [] => ret buildCache
  | service :: rest =>
      (do buildCache' <- build_service dir appName opts buildCache service;
       build_services dir appName opts buildCache' rest)%go
  end.

(** Lines 178 to 182: the loop over the tags of an image. *)
Definition tag_loop (opts : BuildOptions) (image : string) (tags : list string) : M World unit :=
  for_each tags (fun tag =>
    wrap_err "build error: "
      (Run (Docker ["tag"; image; tag]) (mkRunnerOptions (Verbose opts) []))).

(** The body of the loop over the images to pull. *)
Definition pull_image (opts : BuildOptions) (image : string) (tags : list string) : M World unit :=
  (do output <- CombinedOutput (Docker ["images"; "-q"; image]);
   do_ (if negb (Cache opts) || (String.length output =? 0)%nat
        then wrap_err "build error: "
               (Run (Docker ["pull"; image]) (mkRunnerOptions (Verbose opts) []))
        else ret tt);
   tag_loop opts image tags)%go.

(** The calls made in the round of each service to build, as far as
    the loop gets. *)
Fixpoint build_rounds (dir appName : string) (opts : BuildOptions)
    (buildCache : gmap string string) (builds : list Service) (w : World) : list (list event) :=
  match builds with
  | [] => []
  | service :: rest =>
      match build_service dir appName opts buildCache service w with
      | (w1, r) =>
          drop (length (trace w)) (trace w1) ::
          match r with
          | Ok buildCache' => build_rounds dir appName opts buildCache' rest w1
          | _ => []
          end
      end
  end.

(** [func (m *Manifest) Build(dir, appName string, s Stream, opts BuildOptions) error] *)
Definition Build (m : Manifest) (dir appName : string) (opts : BuildOptions) : M World unit :=
  fun w =>
    match runOrder m (opt_Service opts) with
    | inr err => (w, Err err)
    | inl services =>
        match plan_services appName (∅, []) services with
        | Err err => (w, Err err)
        | Panic msg => (w, Panic msg)
        | Ok (pulls, builds) =>
            (do _ <- build_services dir appName opts ∅ builds;
             for_each (map_range _ pulls) (fun it => pull_image opts (fst it) (snd it)))%go w
        end
    end.

End build.

(** ** Sample platforms and worlds, to run the model on *)

Module sample.

(** A platform whose commands change nothing and send no line; [fails]
    says which commands return an error, [listed] what the local-image
    query prints. The manifest is its services in run order, a tag is
    [app/name], and the hash of a build section is its context. *)
Definition platform (fails : Cmd -> bool) (listed : string) : Platform := {|
  ext := unit;
  Manifest := list Service;
  runOrder := fun m _ => inl m;
  Tag := fun service appName => (appName ++ "/" ++ svc_Name service)%string;
  Hash := fun b => build_Context b;
  runner_Run := fun cmd _ fs e =>
    mkRan [] "" (if fails cmd then Some (ErrorString "exit status 1") else None) fs e;
  runner_CombinedOutput := fun cmd fs e =>
    mkRan [] listed (if fails cmd then Some (ErrorString "exit status 1") else None) fs e;
  exec_Run := fun cmd fs e =>
    mkRan [] "" (if fails cmd then Some (ErrorString "exit status 1") else None) fs e;
  map_range := fun V m => map_to_list m;
  map_range_perm := fun V m => Permutation_refl (map_to_list m)
|}.

Definition never : Cmd -> bool := fun _ => false.

(** Only the removal of the stale cache entry fails. *)
Definition only_rm : Cmd -> bool := fun cmd =>
  match cmd with
  | program :: _ => String.eqb program "rm"
  | [] => false
  end.

Definition LF : string := String bufio.LF "".

Definition file (data : string) : node := File data 420 100 200.

Definition dir (entries : list (string * node)) : node := Dir 493 (list_to_map entries).

(** [/app] holds two build contexts; [/cache/web] is a regular file
    where the cache of the build with hash [web] would be. *)
Definition disk : FS :=
  mkFS (dir [("app", dir [("web", dir [("Dockerfile",
                                        file ("FROM alpine" ++ LF ++ "ARG TOKEN" ++ LF
                                              ++ "ARG MODE=fast" ++ LF))]);
                          ("worker", dir [("Dockerfile", file ("ARG" ++ LF))]);
                          ("bare", dir [("Dockerfile", file "ARG")])]);
             ("cache", dir [("web", file "stale")]);
             ("store", dir [("notes", File "hello" 384 111 222);
                            ("link", Symlink "notes");
                            ("sub", dir [("deep", file "x"); ("up", Symlink "..")])])])
       18 1000.

Definition world (P : Platform) (e : @ext P) : @World P := mkWorld disk e [] [].

Definition built (name context : string) (args : list (string * string)) : Service :=
  mkService name "" "" (mkBuildSpec context "" (list_to_map args)).

Definition pulled (name image : string) : Service :=
  mkService name image "" (mkBuildSpec "" "" ∅).

Definition options (cache : bool) (cacheDir : string) (env : list (string * string)) : BuildOptions :=
  mkBuildOptions cache cacheDir (list_to_map env) "" false.

(** The quiet platform, and the one where the stale entry cannot be
    removed. *)
Definition quiet : Platform := platform never "".
Definition stuck : Platform := platform only_rm "".

(** Three services built from the same context, hence of equal hash. *)
Definition web : Service := built "web" "web" [("Z", "1"); ("A", "2")].
Definition web2 : Service := built "web2" "web" [].
Definition web3 : Service := built "web3" "web" [].

End sample.

(** ** The specification's notions, in its own words *)

Module spec.

(** The argument name of a declaration [NAME[=default]]: the text up
    to, but not including, the [=default] suffix. *)
Fixpoint arg_name (decl : string) : string :=
  match decl with
  | EmptyString => ""
  | String c rest => if Ascii.eqb c "="%char then "" else String c (arg_name rest)
  end.

(** What a line declares: the name after the keyword [ARG], when the
    line's first token is that keyword. *)
Definition declared (line : string) : list string :=
  match strings.Fields line with
  | keyword :: decl :: _ => if String.eqb keyword "ARG" then [arg_name decl] else []
  | _ => []
  end.

(** A line made of the keyword [ARG] and nothing else. *)
Definition bare_ARG (line : string) : bool :=
  match strings.Fields line with
  | [keyword] => String.eqb keyword "ARG"
  | _ => false
  end.

(** The final path segment of an image reference: what follows its
    last [/], the whole reference when it has none. *)
Fixpoint final_segment_from (seg : string) (image : string) : string :=
  match image with
  | EmptyString => seg
  | String c rest =>
      if Ascii.eqb c "/"%char then final_segment_from "" rest
      else final_segment_from (seg ++ String c "") rest
  end.

Definition final_segment (image : string) : string := final_segment_from "" image.

(** A reference carries a tag when its final segment has a [:]. *)
Definition has_tag (image : string) : bool := strings.Contains (final_segment image) ":".

(** The normalized reference: [:latest] is appended only if the final
    segment carries no tag already. *)
Definition normalized (image : string) : string :=
  if has_tag image then image else (image ++ ":latest")%string.

Section puller.
Context `{Platform}.
Variable opts : BuildOptions.
Variable image : string.

Definition query : Cmd := Docker ["images"; "-q"; image].
Definition pull : Cmd := Docker ["pull"; image].
Definition tag_as (tag : string) : Cmd := Docker ["tag"; image; tag].
Definition plain : RunnerOptions := mkRunnerOptions (Verbose opts) [].

(** "tag the reference under every destination tag registered for it
    (fatal on failure for each tag operation)", in the order of the
    tag list. *)
Inductive tags_applied : list string -> World -> World -> res unit -> Prop :=
  | no_tag_left w :
      tags_applied [] w w (Ok tt)
  | tag_applied tag rest w w1 w2 r :
      Run (tag_as tag) plain w = (w1, Ok tt) ->
      tags_applied rest w1 w2 r ->
      tags_applied (tag :: rest) w w2 r
  | tag_failed tag rest w w1 err :
      Run (tag_as tag) plain w = (w1, Err err) ->
      tags_applied (tag :: rest) w w1 (Err (ErrorString ("build error: " ++ Error err))).

(** "query whether any local image matching the reference already
    exists. If cache is disabled, or no local image exists, pull the
    reference (fatal on failure). Then, regardless of whether a pull
    occurred, tag the reference"; a failed query is fatal. *)
Inductive image_pulled (tags : list string) : World -> World -> res unit -> Prop :=
  | query_failed w w1 err :
      CombinedOutput query w = (w1, Err err) ->
      image_pulled tags w w1 (Err err)
  | pull_failed w w1 w2 output err :
      CombinedOutput query w = (w1, Ok output) ->
      Cache opts = false \/ output = "" ->
      Run pull plain w1 = (w2, Err err) ->
      image_pulled tags w w2 (Err (ErrorString ("build error: " ++ Error err)))
  | pulled_and_tagged w w1 w2 w3 output r :
      CombinedOutput query w = (w1, Ok output) ->
      Cache opts = false \/ output = "" ->
      Run pull plain w1 = (w2, Ok tt) ->
      tags_applied tags w2 w3 r ->
      image_pulled tags w w3 r
  | found_and_tagged w w1 w2 output r :
      CombinedOutput query w = (w1, Ok output) ->
      Cache opts = true ->
      output <> "" ->
      tags_applied tags w1 w2 r ->
      image_pulled tags w w2 r.

End puller.

(** C9 as it is stated: the copy of a regular file has the content of
    the source, its permission bits, its access timestamp and its
    modification timestamp. *)
Definition copied_with_both_times (src dst : string) (fs : FS) : Prop :=
  forall p data perm atime mtime,
    stat_node (tree fs) src = inr (p, File data perm atime mtime) ->
    snd (copyFile src dst fs) = Ok tt ->
    exists q perm',
      stat_node (tree (fst (copyFile src dst fs))) dst = inr (q, File data perm' atime mtime)
      /\ Z.land perm' permMask = Z.land perm permMask.


(** [build [--no-cache] [--build-arg NAME=VALUE]... -f <dockerfile> -t <tag> <context>] *)
Definition build_line (cache : bool) (pairs : list (string * string))
    (dockerfile tag context : string) : list string :=
  ["build"] ++ (if cache then [] else ["--no-cache"])
    ++ flat_map (fun nv => ["--build-arg"; (nv.1 ++ "=" ++ nv.2)%string]) pairs
    ++ ["-f"; dockerfile] ++ ["-t"; tag] ++ [context].

(** A build-command invocation. *)
Definition is_build (ev : event) : bool :=
  match ev with
  | EvRun (program :: verb :: _) => String.eqb program "docker" && String.eqb verb "build"
  | _ => false
  end.

Definition builds_in (round : list event) : nat := length (List.filter is_build round).

(** The build context of a service: its context directory, by
    default [.], under the directory of the run. *)
Definition context_dir (dir : string) (service : Service) : string :=
  filepath.Join [dir; if String.eqb (build_Context (svc_Build service)) "" then "."
                      else build_Context (svc_Build service)].

(** The build-definition file of a service: [Dockerfile] unless the
    service names another, the name in its build section coming first;
    the path is taken from the context. *)
Definition dockerfile_path (dir : string) (service : Service) : string :=
  filepath.Join [context_dir dir service;
                 if negb (String.eqb (build_Dockerfile (svc_Build service)) "")
                 then build_Dockerfile (svc_Build service)
                 else if negb (String.eqb (svc_Dockerfile service) "")
                      then svc_Dockerfile service
                      else "Dockerfile"].

Section builder.
Context `{Platform}.
Variables (dir appName : string) (opts : BuildOptions).

(** The first service of a list that has a given hash. *)
Definition first_with (hash : string) (services : list Service) : option Service :=
  head (filter (fun service => Hash (svc_Build service) = hash) services).

(** C1 as it is stated: of any two services to build with equal
    hashes, the first is built, the second is only tagged from the
    first one's tag, and the two rounds hold one build command. *)
Definition deduplicated_pairwise (builds : list Service) (w : World) : Prop :=
  forall (i j : nat) (a b : Service),
    (i < j)%nat -> builds !! i = Some a -> builds !! j = Some b ->
    Hash (svc_Build a) = Hash (svc_Build b) ->
    exists round_a round_b,
      build_rounds dir appName opts ∅ builds w !! i = Some round_a
      /\ build_rounds dir appName opts ∅ builds w !! j = Some round_b
      /\ builds_in (round_a ++ round_b) = 1%nat
      /\ builds_in round_a = 1%nat
      /\ round_b = [EvRun (Docker ["tag"; Tag a appName; Tag b appName])].

(** C1 as amended: the same of a run that returns no error, for the
    first service [a] of the list that has the hash. *)
Definition deduplicated_from_first (builds : list Service) (w : World) : Prop :=
  forall (i j : nat) (a b : Service),
    (i < j)%nat -> builds !! i = Some a -> builds !! j = Some b ->
    Hash (svc_Build a) = Hash (svc_Build b) ->
    (forall k c, (k < i)%nat -> builds !! k = Some c ->
                 Hash (svc_Build c) <> Hash (svc_Build a)) ->
    exists round_a round_b,
      build_rounds dir appName opts ∅ builds w !! i = Some round_a
      /\ build_rounds dir appName opts ∅ builds w !! j = Some round_b
      /\ builds_in (round_a ++ round_b) = 1%nat
      /\ builds_in round_a = 1%nat
      /\ round_b = [EvRun (Docker ["tag"; Tag a appName; Tag b appName])].

(** The two directories of the cache restore of a service. *)
Definition rcd (service : Service) : string :=
  filepath.Join [CacheDir opts; Hash (svc_Build service)].
Definition lcd : string := filepath.Join [dir; ".cache"; "build"].

(** C5 as it is stated: with a cache store and an entry for the
    service's hash, a failed copy of the entry that is not about an
    absent source makes the round of the service return an error. *)
Definition copy_failure_fatal (buildCache : gmap string string)
    (service : Service) (w : World) : Prop :=
  CacheDir opts <> ""%string ->
  buildCache !! Hash (svc_Build service) = None ->
  (exists si, snd (os.Stat (rcd service) (files w)) = Ok si) ->
  forall err,
    snd (copyDir maxDepth (rcd service) lcd (files (fst (clear_staging lcd w)))) = Err err ->
    os_IsNotExist err = false ->
    exists e, snd (build_service dir appName opts buildCache service w) = Err e.

(** A step of the cache write-back whose failure is not fatal and
    is logged: the step returns no error and the stream receives a
    line from it. *)
Definition logged_not_fatal (step : M World unit) (failure : World -> option error)
    (w : World) : Prop :=
  failure w <> None ->
  snd (step w) = Ok tt
  /\ exists sent line, sink (fst (step w)) = sink w ++ sent ++ [line].

Definition run_failure (cmd : Cmd) (ropts : RunnerOptions) (w : World) : option error :=
  ran_err (runner_Run cmd ropts (files w) (engine w)).

Definition exec_failure (cmd : Cmd) (w : World) : option error :=
  ran_err (exec_Run cmd (files w) (engine w)).

Definition create_cmd (service : Service) : Cmd :=
  Docker ["create"; "--name"; Hash (svc_Build service); Tag service appName].
Definition stale_cmd (service : Service) : Cmd :=
  ["rm"; "-rf"; filepath.Join [CacheDir opts; Hash (svc_Build service)]].
Definition extract_cmd (service : Service) : Cmd :=
  Docker ["cp"; (Hash (svc_Build service) ++ ":/var/cache/build")%string;
          filepath.Join [CacheDir opts; Hash (svc_Build service)]].
Definition remove_cmd (service : Service) : Cmd :=
  Docker ["rm"; Hash (svc_Build service)].

(** C10 as it is stated: each of the four failures of the write-back
    is not fatal and is logged to the stream. *)
Definition write_back_logged (service : Service) (ropts : RunnerOptions) (w : World) : Prop :=
  logged_not_fatal (create_container appName service ropts)
                   (run_failure (create_cmd service) ropts) w
  /\ logged_not_fatal (remove_stale opts service) (exec_failure (stale_cmd service)) w
  /\ logged_not_fatal (extract_cache opts service ropts)
                      (run_failure (extract_cmd service) ropts) w
  /\ logged_not_fatal (remove_container service ropts)
                      (run_failure (remove_cmd service) ropts) w.

End builder.

Section image_rounds.
Context `{Platform}.
Variable opts : BuildOptions.

(** The calls of the round on a reference: the query, the pull when
    one is made, a tag operation for each tag issued. *)
Definition round_calls (image : string) (pulling : bool) (issued : list string) : list event :=
  [EvCombinedOutput (query image)]
    ++ (if pulling then [EvRun (pull image)] else [])
    ++ map (fun tag => EvRun (tag_as image tag)) issued.

(** "For each distinct image reference in the plan": the rounds on the
    references of the plan, one after the other; a round that fails
    ends the run with its error, and the references after it are left
    alone. *)
Inductive images_pulled : list (string * list string) -> World -> World -> res unit -> Prop :=
  | no_image_left w :
      images_pulled [] w w (Ok tt)
  | image_done image tags rest w w1 w2 r :
      image_pulled opts image tags w w1 (Ok tt) ->
      images_pulled rest w1 w2 r ->
      images_pulled ((image, tags) :: rest) w w2 r
  | image_failed image tags rest w w1 err :
      image_pulled opts image tags w w1 (Err err) ->
      images_pulled ((image, tags) :: rest) w w1 (Err err).

End image_rounds.

End spec.

(** ** Notions the proofs are made with *)

(** A call that cannot panic. *)
Definition safe {S A} (m : M S A) : Prop := forall s msg, snd (m s) <> Panic msg.

Ltac safe_call f :=
  intros s msg; unfold f; repeat case_match; discriminate.

(** The pieces of a split with [seg] put before the first one. *)
Definition glue (seg : string) (pieces : list string) : list string :=
  match pieces with
  | [] => [seg]
  | t :: ts => (seg ++ t)%string :: ts
  end.

(** An element of a path name without a separator, and one an entry of
    a directory can bear. *)
Definition no_slash (e : string) : Prop := strings.Contains e "/" = false.

Definition valid (e : string) : Prop := valid_name e = true.

Definition dots (n : nat) : list string := repeat ".."%string n.

(** Two paths neither of which is above the other. *)
Definition unrelated (p q : path) : Prop := ¬ p `prefix_of` q /\ ¬ q `prefix_of` p.

(** Neither a directory nor a link: nothing, or a regular file. *)
Definition plain_at (t : node) (q : path) : Prop :=
  match walk t q with
  | inl _ => True
  | inr (File _ _ _ _) => True
  | inr _ => False
  end.

Definition is_file (n : node) : bool :=
  match n with File _ _ _ _ => true | _ => false end.

Definition is_link (n : node) : bool :=
  match n with Symlink _ => true | _ => false end.

(** The body of the loop of [copyDir] over the entries read. *)
Definition copy_entry (depth : nat) (src dst : string) (f : FileInfo) : M FS unit :=
  let srcPath := filepath.Join [src; Name f] in
  let dstPath := filepath.Join [dst; Name f] in
  if IsDir f then copyDir depth srcPath dstPath
  else if negb (Z.land (Mode f) ModeSymlink =? 0)%Z then ret tt
  else copyFile srcPath dstPath.

Section notions.
Context `{Platform}.
Variables (dir appName : string) (opts : BuildOptions).

(** The names and values of a map, by sorted name. *)
Definition sorted_pairs (bargs : gmap string string) : list (string * string) :=
map (fun name => (name, default ""%string (bargs !! name)))
    (sort_Strings (map_range _ bargs).*1).

(** The command of the build of a service whose file declares [dba]. *)
Definition build_cmd (service : Service) (dba : list string) : Cmd :=
Docker (spec.build_line (Cache opts)
          (sorted_pairs (env_args (Environment opts) dba (build_Args (svc_Build service))))
          (spec.dockerfile_path dir service) (Tag service appName)
          (spec.context_dir dir service)).

Definition build_ropts : RunnerOptions := mkRunnerOptions (Verbose opts) [cache_filter].

(** The memo after some rounds: every hash met, under the tag of the
  first service that had it. *)
Definition memo_of (seen : list Service) (buildCache : gmap string string) : Prop :=
forall hash, buildCache !! hash =
             (fun service => Tag service appName) <$> spec.first_with hash seen.

End notions.

(** ** Further sample files, and notions for further properties *)

Module cases.

(** A line of [n] bytes. *)
Definition filler (n : N) : string :=
  string_of_list_ascii (repeat "x"%char (N.to_nat n)).

(** A build-definition file whose second line is too long for the
    scanner's buffer. *)
Definition head_lines : string := "ARG FIRST=1" ++ sample.LF.
Definition long_line : string := "ARG " ++ filler 65536.
Definition tail_lines : string := sample.LF ++ "ARG LAST" ++ sample.LF.

(** A disk that holds one file, [/Dockerfile]. *)
Definition disk_with (data : string) : FS :=
  mkFS (sample.dir [("Dockerfile", sample.file data)]) 18 1000.

Definition long_disk : FS := disk_with (head_lines ++ long_line ++ tail_lines).

(** A service whose build context is not on the disk, and one that is
    pulled. *)
Definition ghost : Service := sample.built "ghost" "ghost" [].
Definition db : Service := sample.pulled "db" "redis".

(** A platform where the build command fails. *)
Definition build_fails : Cmd -> bool := fun cmd =>
  match cmd with
  | _ :: verb :: _ => String.eqb verb "build"
  | _ => false
  end.

Definition broken : Platform := sample.platform build_fails "".

(** A disk with a cache store that holds an entry for the build of
    hash [web]. *)
Definition cached_disk : FS :=
  mkFS (sample.dir [("app", sample.dir [("web", sample.dir [("Dockerfile",
                                                             sample.file "FROM alpine")])]);
                    ("cache", sample.dir [("web", sample.dir [("layer",
                                                               File "bits" 384 111 222)])])])
       18 1000.

End cases.

(** A byte that is ASCII white space: tab, line feed, vertical tab,
    form feed, carriage return or space. *)
Definition ascii_space (c : ascii) : bool :=
  ((9 <=? N_of_ascii c) && (N_of_ascii c <=? 13) || (N_of_ascii c =? 32))%N.

(** A call that leaves the mask and the clock of the system alone. *)
Definition keeps {A} (m : M FS A) : Prop :=
  forall fs, umask (fst (m fs)) = umask fs /\ clock (fst (m fs)) = clock fs.

Ltac keeps_call f :=
  intros fs; unfold f; repeat case_match; done.

(** What [copyDir] makes of a node of the source, the mask being [um]:
    of a regular file, a regular file of the same content and
    permission bits, with the modification time as both times; of a
    directory, a directory with the permission bits the mask lets
    through. *)
Definition copy_of (um : Z) (n : node) (r : Errno + node) : Prop :=
  match n with
  | File data perm atime mtime => r = inr (File data (Z.land perm permMask) mtime mtime)
  | Dir perm _ => exists es', r = inr (Dir (Z.ldiff (Z.land perm permMask) um) es')
  | Symlink _ => True
  end.

(** A call that gives an image the tag [tag]: a tag operation with that
    destination, or a build command with that [-t]. *)
Definition assigns (tag : string) (ev : event) : Prop :=
  (exists source, ev = EvRun (Docker ["tag"; source; tag]))
  \/ (exists cache pairs dockerfile context,
        ev = EvRun (Docker (spec.build_line cache pairs dockerfile tag context))).

(** The verb of a call to the container engine. *)
Definition docker_verb (ev : event) : option string :=
  match ev with
  | EvRun (program :: verb :: _) | EvCombinedOutput (program :: verb :: _) =>
      if String.eqb program "docker" then Some verb else None
  | _ => None
  end.

(** A call a run without cache store can make. *)
Definition storeless (ev : event) : Prop :=
  exists verb, docker_verb ev = Some verb /\ verb ∈ ["build"; "tag"; "pull"; "images"].

(** The calls of the cache write-back of a service, in order. *)
Definition write_back_calls `{Platform} (appName : string) (opts : BuildOptions)
    (service : Service) : list event :=
  [EvRun (spec.create_cmd appName service);
   EvExec (spec.stale_cmd opts service);
   EvRun (spec.extract_cmd opts service);
   EvRun (spec.remove_cmd service)].

(** A call of the loop over the services to build: anything but a
    query and a pull. *)
Definition build_phase (ev : event) : Prop :=
  match ev with
  | EvCombinedOutput _ => False
  | _ => docker_verb ev <> Some "pull"%string
  end.

(** A call of the loop over the images to pull: the query, a pull or a
    tag operation. *)
Definition pull_phase (ev : event) : Prop :=
  exists verb, docker_verb ev = Some verb /\ verb ∈ ["images"; "pull"; "tag"].

(** * Properties *)

#[local] Arguments String.append !_ _ / : simpl nomatch.
#[local] Arguments copyDir : simpl never.
#[local] Opaque maxDepth.

(** ** The build-argument scanner *)

Lemma SplitN_2_head (decl : string) :
  strings.SplitN decl "="%char 2 !! 0%nat = Some (spec.arg_name decl).
Proof.
  induction decl as [|c rest IH]; [reflexivity|].
  cbn [strings.SplitN spec.arg_name].
  destruct (Ascii.eqb c "="); [reflexivity|].
  destruct (strings.SplitN rest "=" 2) as [|t ts]; [discriminate IH|].
  cbn in IH |- *. congruence.
Qed.

Lemma scan_line_spec (args : list string) (line : string) :
  scan_line args line =
    if spec.bare_ARG line
    then Panic "runtime error: index out of range [1] with length 1"
    else Ok (args ++ spec.declared line).
Proof.
  unfold scan_line, spec.bare_ARG, spec.declared.
  destruct (strings.Fields line) as [|keyword [|decl more]]; cbn.
  - by rewrite app_nil_r.
  - destruct (String.eqb keyword "ARG"); [done|]. by rewrite app_nil_r.
  - destruct (String.eqb keyword "ARG").
    + by rewrite SplitN_2_head.
    + by rewrite app_nil_r.
Qed.

Lemma scan_lines_spec (lines : list string) : forall args : list string,
  scan_lines args lines =
    if existsb spec.bare_ARG lines
    then Panic "runtime error: index out of range [1] with length 1"
    else Ok (args ++ flat_map spec.declared lines).
Proof.
  induction lines as [|line rest IH]; intros args; cbn.
  - by rewrite app_nil_r.
  - rewrite scan_line_spec. destruct (spec.bare_ARG line); cbn; [done|].
    rewrite IH. destruct (existsb spec.bare_ARG rest); [done|].
    by rewrite <- app_assoc.
Qed.

(** What [buildArgs] does with a file that can be read: the names its
    lines declare, in order and with repetitions, unless a line is the
    bare keyword, in which case the call panics. *)
Lemma buildArgs_readable (dockerfile data : string) (fs : FS) :
  os.ReadFile dockerfile fs = (fs, Ok data) ->
  buildArgs dockerfile fs =
    (fs, if existsb spec.bare_ARG (bufio.Scan_all data)
         then Panic "runtime error: index out of range [1] with length 1"
         else Ok (flat_map spec.declared (bufio.Scan_all data))).
Proof.
  intros Hread. unfold buildArgs, bind. rewrite Hread.
  by rewrite scan_lines_spec.
Qed.

(** A file that cannot be read makes [buildArgs] return the read error. *)
Lemma buildArgs_unreadable (dockerfile : string) (fs : FS) (err : error) :
  os.ReadFile dockerfile fs = (fs, Err err) ->
  buildArgs dockerfile fs = (fs, Err err).
Proof. intros Hread. unfold buildArgs, bind. by rewrite Hread. Qed.

(** C7. On the readable file [/app/worker/Dockerfile], whose one line is
    the keyword [ARG] followed by a newline, [buildArgs] returns neither
    a list of names nor an error: indexing the second token panics. *)
Theorem buildArgs_no_list_for_bare_keyword :
  os.ReadFile "/app/worker/Dockerfile" sample.disk = (sample.disk, Ok ("ARG" ++ sample.LF)%string)
  /\ buildArgs "/app/worker/Dockerfile" sample.disk =
       (sample.disk, Panic "runtime error: index out of range [1] with length 1").
Proof. split; vm_compute; reflexivity. Qed.

(** C8. [buildArgs] is not total on readable input: on the file
    [/app/bare/Dockerfile], whose only token is [ARG], the token list has
    length one and the access to its second element is out of bounds. *)
Theorem buildArgs_out_of_bounds :
  os.ReadFile "/app/bare/Dockerfile" sample.disk = (sample.disk, Ok "ARG")
  /\ strings.Fields "ARG" = ["ARG"]
  /\ strings.Fields "ARG" !! 1%nat = None
  /\ snd (buildArgs "/app/bare/Dockerfile" sample.disk) =
       Panic "runtime error: index out of range [1] with length 1".
Proof. repeat split; vm_compute; reflexivity. Qed.

(** ** The build planner: image references *)

Lemma append_empty_r (s : string) : (s ++ "")%string = s.
Proof. induction s as [|c s IH]; cbn; congruence. Qed.

Lemma append_assoc (a b c : string) : ((a ++ b) ++ c)%string = (a ++ (b ++ c))%string.
Proof. induction a as [|x a IH]; cbn; congruence. Qed.

Lemma Split_cons (s : string) (sep : ascii) :
  exists t ts, strings.Split s sep = t :: ts.
Proof.
  destruct s as [|c s]; cbn; [by eauto|].
  destruct (Ascii.eqb c sep); [by eauto|].
  destruct (strings.Split s sep); eauto.
Qed.

Lemma last_Split (image : string) : forall seg : string,
  last (glue seg (strings.Split image "/"%char)) = Some (spec.final_segment_from seg image).
Proof.
  induction image as [|c rest IH]; intros seg; cbn.
  - by rewrite append_empty_r.
  - destruct (Ascii.eqb c "/") eqn:Hc.
    + cbn. rewrite append_empty_r. specialize (IH ""%string).
      destruct (Split_cons rest "/"%char) as (t & ts & Hs). rewrite Hs in IH |- *.
      cbn in IH. by rewrite last_cons, IH.
    + specialize (IH (seg ++ String c "")%string).
      destruct (Split_cons rest "/"%char) as (t & ts & Hs). rewrite Hs in IH |- *.
      cbn in IH |- *. by rewrite append_assoc in IH.
Qed.

(** The code's normalization is the specification's, and never panics. *)
Lemma normalize_image_normalized (image : string) :
  normalize_image image = Ok (spec.normalized image).
Proof.
  unfold normalize_image, spec.normalized, spec.has_tag, spec.final_segment, filepath.slash.
  pose proof (last_Split image ""%string) as Hlast.
  destruct (Split_cons image "/"%char) as (t & ts & Hs).
  rewrite Hs in Hlast |- *. cbn [glue] in Hlast. cbn [append] in Hlast.
  rewrite last_lookup in Hlast. rewrite Nat.sub_1_r, Hlast.
  by destruct (strings.Contains _ ":").
Qed.

Section planner.
Context `{Platform}.

(** Every key of the plan's pull map was already there or is the
    normalized reference of a service with an image. *)
Lemma plan_services_keys (appName : string) (services : list Service) :
  forall (plan plan' : Plan) (image : string) (tags : list string),
    plan_services appName plan services = Ok plan' ->
    plan'.1 !! image = Some tags ->
    is_Some (plan.1 !! image) \/
    exists service, service ∈ services /\ svc_Image service <> ""%string
                    /\ image = spec.normalized (svc_Image service).
Proof.
  induction services as [|service rest IH]; intros plan plan' image tags Hplan Hkey.
  - cbn in Hplan. injection Hplan as <-. left. by eexists.
  - cbn in Hplan. destruct (plan_service appName plan service) as [plan1| |] eqn:Hstep;
      try discriminate.
    destruct (IH _ _ _ _ Hplan Hkey) as [Hin|(s & Hs & Himg & Hnorm)].
    + unfold plan_service in Hstep. destruct plan as [pulls builds].
      destruct (String.eqb (svc_Image service) "") eqn:Heq; cbn in Hstep.
      * injection Hstep as <-. by left.
      * rewrite normalize_image_normalized in Hstep. injection Hstep as <-.
        cbn in Hin |- *.
        destruct (decide (spec.normalized (svc_Image service) = image)) as [<-|Hne].
        -- right. exists service. split; [apply list_elem_of_here|].
           split; [|done]. by apply String.eqb_neq.
        -- left. by rewrite lookup_insert_ne in Hin.
    + right. exists s. split; [by apply list_elem_of_further|done].
Qed.

End planner.

(** ** The image puller *)

Section puller.
Context `{Platform}.
Variable opts : BuildOptions.

Lemma Run_trace (cmd : Cmd) (ro : RunnerOptions) (w w1 : World) (r : res unit) :
  Run cmd ro w = (w1, r) -> trace w1 = trace w ++ [EvRun cmd].
Proof. unfold Run. intros [= <- _]. reflexivity. Qed.

Lemma Run_result (cmd : Cmd) (ro : RunnerOptions) (w : World) :
  snd (Run cmd ro w) = Ok tt \/ exists err, snd (Run cmd ro w) = Err err.
Proof.
  unfold Run, ran_result; cbn. destruct (ran_err _); eauto.
Qed.

Lemma CombinedOutput_trace (cmd : Cmd) (w w1 : World) (r : res string) :
  CombinedOutput cmd w = (w1, r) -> trace w1 = trace w ++ [EvCombinedOutput cmd].
Proof. unfold CombinedOutput. intros [= <- _]. reflexivity. Qed.

Lemma tag_loop_applied (image : string) (tags : list string) : forall w w' r,
  tag_loop opts image tags w = (w', r) ->
  spec.tags_applied opts image tags w w' r
  /\ exists issued,
       issued `prefix_of` tags
       /\ trace w' = trace w ++ map (fun tag => EvRun (spec.tag_as image tag)) issued
       /\ (r = Ok tt -> issued = tags).
Proof.
  induction tags as [|tag rest IH]; intros w w' r Hloop.
  - cbn in Hloop. injection Hloop as <- <-. split; [constructor|].
    exists []. by rewrite app_nil_r.
  - unfold tag_loop in Hloop. cbn [for_each] in Hloop.
    unfold bind, wrap_err in Hloop.
    destruct (Run (Docker ["tag"; image; tag]) _ w) as [w1 r1] eqn:Hrun.
    pose proof (Run_trace _ _ _ _ _ Hrun) as Htr.
    pose proof (Run_result (Docker ["tag"; image; tag])
                  (mkRunnerOptions (Verbose opts) []) w) as Hres.
    rewrite Hrun in Hres. cbn in Hres. destruct Hres as [->|[err ->]].
    + destruct (IH _ _ _ Hloop) as (Happ & issued & Hpre & Htr' & Hall).
      split; [by eapply spec.tag_applied|].
      exists (tag :: issued). split; [by apply prefix_cons|].
      split; [|by intros ->%Hall].
      rewrite Htr', Htr, <- app_assoc. reflexivity.
    + injection Hloop as <- <-. split; [by eapply spec.tag_failed|].
      exists [tag]. split; [apply prefix_cons, prefix_nil|]. by split.
Qed.

(** One round of the loop over the images to pull follows the
    specification's steps, and its calls are the query, the pull when
    one is made, and the tag operations issued, in that order. *)
Lemma pull_image_pulled (image : string) (tags : list string) (w w' : World) (r : res unit) :
  pull_image opts image tags w = (w', r) ->
  spec.image_pulled opts image tags w w' r
  /\ exists (pulls : bool) (issued : list string),
       issued `prefix_of` tags
       /\ trace w' = trace w ++ [EvCombinedOutput (spec.query image)]
                       ++ (if pulls then [EvRun (spec.pull image)] else [])
                       ++ map (fun tag => EvRun (spec.tag_as image tag)) issued
       /\ (r = Ok tt -> issued = tags).
Proof.
  unfold pull_image, bind. intros Hpull.
  destruct (CombinedOutput (Docker ["images"; "-q"; image]) w) as [w1 rq] eqn:Hq.
  pose proof (CombinedOutput_trace _ _ _ _ Hq) as Htq.
  assert (rq = match ran_err (runner_CombinedOutput (Docker ["images"; "-q"; image])
                                (files w) (engine w)) with
               | Some err => Err err
               | None => Ok (ran_output (runner_CombinedOutput
                               (Docker ["images"; "-q"; image]) (files w) (engine w)))
               end) as Hrq by (unfold CombinedOutput in Hq; by injection Hq).
  destruct rq as [output|err|msg]; [|injection Hpull as <- <-|by destruct (ran_err _)].
  2: { split; [by apply spec.query_failed|]. exists false, [].
       split; [apply prefix_nil|]. by rewrite Htq. }
  destruct (negb (Cache opts) || (String.length output =? 0)%nat) eqn:Hneed.
  - assert (Cache opts = false \/ output = ""%string) as Hwhy.
    { apply orb_true_iff in Hneed as [Hc|Hl]; [left; by destruct (Cache opts)|right].
      apply Nat.eqb_eq in Hl. by destruct output. }
    unfold wrap_err in Hpull.
    destruct (Run (Docker ["pull"; image]) _ w1) as [w2 rp] eqn:Hp.
    pose proof (Run_trace _ _ _ _ _ Hp) as Htp.
    pose proof (Run_result (Docker ["pull"; image])
                  (mkRunnerOptions (Verbose opts) []) w1) as Hres.
    rewrite Hp in Hres. cbn in Hres. destruct Hres as [->|[err ->]].
    + destruct (tag_loop_applied image tags _ _ _ Hpull) as (Happ & issued & Hpre & Htr & Hall).
      split; [by eapply spec.pulled_and_tagged|].
      exists true, issued. split; [done|]. split; [|done].
      rewrite Htr, Htp, Htq, <- !app_assoc. reflexivity.
    + injection Hpull as <- <-. split; [by eapply spec.pull_failed|].
      exists true, []. split; [apply prefix_nil|]. split; [|done].
      rewrite Htp, Htq, <- !app_assoc. reflexivity.
  - apply orb_false_iff in Hneed as [Hc Hl].
    cbn [ret] in Hpull.
    destruct (tag_loop_applied image tags _ _ _ Hpull) as (Happ & issued & Hpre & Htr & Hall).
    split.
    + eapply spec.found_and_tagged; [done| |  |done].
      * by destruct (Cache opts).
      * intros ->. discriminate Hl.
    + exists false, issued. split; [done|]. split; [|done].
      rewrite Htr, Htq, <- !app_assoc. reflexivity.
Qed.

(** An error in the body of a loop leaves the loop with that error. *)
Lemma for_each_abort {S A} (x : A) (rest : list A) (body : A -> M S unit)
    (s s1 : S) (err : error) :
  body x s = (s1, Err err) -> for_each (x :: rest) body s = (s1, Err err).
Proof. intros Hx. cbn. unfold bind. by rewrite Hx. Qed.

Lemma for_each_next {S A} (x : A) (rest : list A) (body : A -> M S unit) (s s1 : S) :
  body x s = (s1, Ok tt) -> for_each (x :: rest) body s = for_each rest body s1.
Proof. intros Hx. cbn. unfold bind. by rewrite Hx. Qed.

End puller.

(** ** Calls that cannot panic *)

Lemma safe_ret {S A} (a : A) : safe (@ret S A a).
Proof. intros s msg. discriminate. Qed.

Lemma safe_fail {S A} (err : error) : safe (@fail S A err).
Proof. intros s msg. discriminate. Qed.

Lemma safe_bind {S A B} (m : M S A) (k : A -> M S B) :
  safe m -> (forall a, safe (k a)) -> safe (bind m k).
Proof.
  intros Hm Hk s msg. unfold bind. specialize (Hm s).
  destruct (m s) as [s1 [a|err|msg1]]; cbn in *; [apply Hk|discriminate|].
  by destruct (Hm msg1).
Qed.

Lemma safe_for_each {S A} (xs : list A) (body : A -> M S unit) :
  (forall x, safe (body x)) -> safe (for_each xs body).
Proof.
  intros Hbody. induction xs as [|x rest IH]; cbn; [apply safe_ret|].
  apply safe_bind; [apply Hbody|done].
Qed.

Lemma safe_Stat (name : string) : safe (os.Stat name).
Proof. safe_call os.Stat. Qed.

Lemma safe_Open (name : string) : safe (os.Open name).
Proof. safe_call os.Open. Qed.

Lemma safe_Create (name : string) : safe (os.Create name).
Proof. safe_call os.Create. Qed.

Lemma safe_io_Copy (dst src : os.file) : safe (os.io_Copy dst src).
Proof. safe_call os.io_Copy. Qed.

Lemma safe_Chmod (name : string) (mode : Z) : safe (os.Chmod name mode).
Proof. safe_call os.Chmod. Qed.

Lemma safe_Chtimes (name : string) (atime mtime : Z) : safe (os.Chtimes name atime mtime).
Proof. safe_call os.Chtimes. Qed.

Lemma safe_MkdirAll (name : string) (perm : Z) : safe (os.MkdirAll name perm).
Proof. safe_call os.MkdirAll. Qed.

Lemma safe_ReadDir (name : string) : safe (os.ReadDir name).
Proof. safe_call os.ReadDir. Qed.

Lemma safe_RemoveAll (name : string) : safe (os.RemoveAll name).
Proof. safe_call os.RemoveAll. Qed.

Lemma safe_Sync (f : os.file) : safe (os.Sync f).
Proof. apply safe_ret. Qed.

Lemma safe_copyFile (src dst : string) : safe (copyFile src dst).
Proof.
  unfold copyFile.
  repeat (apply safe_bind; [|intros ?]);
    auto using safe_Open, safe_Create, safe_io_Copy, safe_Sync, safe_ret, safe_Stat,
               safe_Chmod, safe_Chtimes.
Qed.

Lemma safe_copyDir (depth : nat) : forall src dst, safe (copyDir depth src dst).
Proof.
  induction depth as [|depth IH]; intros src dst; cbn [copyDir]; [apply safe_fail|].
  apply safe_bind; [apply safe_Stat|]. intros si.
  destruct (negb (IsDir si)); [apply safe_fail|].
  intros fs msg.
  pose proof (safe_Stat (filepath.Clean dst) fs) as Hdst.
  destruct (os.Stat (filepath.Clean dst) fs) as [fs1 [a|err|msg1]]; cbn in *;
    [discriminate| |by destruct (Hdst msg1)].
  destruct (negb (os_IsNotExist err)); [discriminate|].
  revert msg. apply safe_bind; [apply safe_MkdirAll|]. intros _.
  apply safe_bind; [apply safe_ReadDir|]. intros files0.
  apply safe_for_each. intros f.
  destruct (IsDir f); [apply IH|].
  destruct (negb _); [apply safe_ret|apply safe_copyFile].
Qed.

(** ** The build executor *)

Section builder.
Context `{Platform}.
Variables (dir appName : string) (opts : BuildOptions).

Lemma try_on_files {A} (m : M FS A) (w : World) :
  safe m ->
  exists o : option error,
    try (on_files m) w = (mkWorld (fst (m (files w))) (engine w) (sink w) (trace w), Ok o)
    /\ match o with
       | None => exists a, snd (m (files w)) = Ok a
       | Some err => snd (m (files w)) = Err err
       end.
Proof.
  intros Hsafe. unfold try, on_files. specialize (Hsafe (files w)).
  destruct (m (files w)) as [fs [a|err|msg]]; cbn in *.
  - exists None. eauto.
  - by exists (Some err).
  - by destruct (Hsafe msg).
Qed.

Lemma clear_staging_ok (staging : string) (w : World) :
  exists w1, clear_staging staging w = (w1, Ok tt)
             /\ trace w1 = trace w /\ engine w1 = engine w.
Proof.
  unfold clear_staging, bind.
  destruct (try_on_files (os.RemoveAll staging) w (safe_RemoveAll staging)) as (o & -> & _).
  destruct o; cbn; eauto.
Qed.

(** The copy of the cache entry returns no error, whatever the copy
    did: a failure is sent to the stream, unless its message has the
    words of an absent file. *)
Lemma copy_cache_spec (entry staging : string) (w : World) :
  copy_cache entry staging w =
    (mkWorld (fst (copyDir maxDepth entry staging (files w))) (engine w)
       (sink w ++
          match snd (copyDir maxDepth entry staging (files w)) with
          | Err err =>
              if strings.Contains (Error err) "no such file or directory" then []
              else [("cache error: " ++ Error err)%string]
          | _ => []
          end)
       (trace w),
     Ok tt).
Proof.
  unfold copy_cache, bind.
  destruct (try_on_files (copyDir maxDepth entry staging) w (safe_copyDir _ _ _))
    as (o & -> & Ho).
  destruct o as [err|].
  - rewrite Ho. destruct (strings.Contains _ _); cbn; [by rewrite app_nil_r|done].
  - destruct Ho as [a ->]. cbn. by rewrite app_nil_r.
Qed.

Lemma restore_cache_ok (service : Service) (w : World) :
  exists w1, restore_cache dir opts service w = (w1, Ok tt) /\ trace w1 = trace w.
Proof.
  unfold restore_cache. destruct (negb _); [|by eexists].
  unfold bind.
  destruct (try_on_files (os.Stat (filepath.Join [CacheDir opts; Hash (svc_Build service)]))
              w (safe_Stat _)) as (o & -> & _).
  destruct o; [by eexists|].
  match goal with |- context [clear_staging ?l ?w0] =>
    destruct (clear_staging_ok l w0) as (w1 & -> & Htr & _) end.
  rewrite copy_cache_spec. eexists. split; [done|]. exact Htr.
Qed.

(** *** The merged arguments and their flags *)

Lemma fold_insert_lookup (l : list (string * string)) :
  forall (acc : gmap string string) (name : string),
    NoDup l.*1 ->
    fold_left (fun bargs kv => <[kv.1 := kv.2]> bargs) l acc !! name =
      match (list_to_map l : gmap string string) !! name with
      | Some v => Some v
      | None => acc !! name
      end.
Proof.
  induction l as [|[k v] l IH]; intros acc name Hnd; [done|].
  apply NoDup_cons in Hnd as [Hk Hnd]. cbn. rewrite IH by done.
  destruct (decide (k = name)) as [->|Hne].
  - rewrite lookup_insert_eq, (not_elem_of_list_to_map_1 _ name Hk).
    by rewrite lookup_insert_eq.
  - by rewrite !lookup_insert_ne.
Qed.

(** Copying a map entry by entry gives the map, in whatever order the
    entries come. *)
Lemma copy_args_id (args : gmap string string) : copy_args args = args.
Proof.
  apply map_eq. intros name. unfold copy_args.
  pose proof (map_range_perm _ args) as Hperm.
  assert (NoDup (map_range _ args).*1) as Hnd.
  { rewrite Hperm. apply NoDup_fst_map_to_list. }
  rewrite fold_insert_lookup by done.
  rewrite (list_to_map_proper _ _ Hnd Hperm), list_to_map_to_list, lookup_empty.
  by destruct (args !! name).
Qed.


Lemma fold_names {V} (l : list (string * V)) : forall acc : list string,
  fold_left (fun names kv => names ++ [kv.1]) l acc = acc ++ l.*1.
Proof.
  induction l as [|kv l IH]; intros acc; cbn; [by rewrite app_nil_r|].
  by rewrite IH, <- app_assoc.
Qed.

Lemma arg_flags_sorted (bargs : gmap string string) (args : list string) :
  arg_flags bargs args =
    args ++ flat_map (fun nv => ["--build-arg"; (nv.1 ++ "=" ++ nv.2)%string])
                     (sorted_pairs bargs).
Proof.
  unfold arg_flags, sorted_pairs. rewrite fold_names. cbn [app].
  generalize (sort_Strings (map_range string bargs).*1). intros names. revert args.
  induction names as [|name names IH]; intros args; cbn; [by rewrite app_nil_r|].
  rewrite IH, <- app_assoc. reflexivity.
Qed.




End builder.

Section executor.
Context `{Platform}.
Variables (dir appName : string) (opts : BuildOptions).

Lemma buildArgs_files (dockerfile : string) (fs : FS) :
  fst (buildArgs dockerfile fs) = fs.
Proof.
  unfold buildArgs, bind, os.ReadFile.
  destruct (stat_node (tree fs) dockerfile) as [?|[? []]]; reflexivity.
Qed.

Lemma context_dir_eq (service : Service) :
  filepath.Join [dir; coalesce (build_Context (svc_Build service)) "."] =
  spec.context_dir dir service.
Proof. reflexivity. Qed.

Lemma dockerfile_path_eq (service : Service) :
  filepath.Join [filepath.Join [dir; coalesce (build_Context (svc_Build service)) "."];
                 coalesce (build_Dockerfile (svc_Build service))
                          (coalesce (svc_Dockerfile service) "Dockerfile")] =
  spec.dockerfile_path dir service.
Proof.
  unfold spec.dockerfile_path, spec.context_dir, coalesce.
  destruct (String.eqb (build_Dockerfile _) ""); [|done].
  by destruct (String.eqb (svc_Dockerfile _) "").
Qed.

(** The command assembled for a build, in the specification's shape. *)
Lemma build_command_line (service : Service) (bargs : gmap string string) :
  build_command dir appName opts service bargs =
    spec.build_line (Cache opts) (sorted_pairs bargs)
      (spec.dockerfile_path dir service) (Tag service appName)
      (spec.context_dir dir service).
Proof.
  unfold build_command, spec.build_line. rewrite dockerfile_path_eq, context_dir_eq.
  rewrite arg_flags_sorted.
  destruct (Cache opts); cbn [negb app]; by rewrite <- ?app_assoc.
Qed.

Lemma build_line_is_build (cache : bool) pairs dockerfile tag context :
  spec.is_build (EvRun (Docker (spec.build_line cache pairs dockerfile tag context))) = true.
Proof. reflexivity. Qed.

(** *** The steps of the cache write-back *)

Section steps.
Variables (service : Service) (ropts : RunnerOptions).

Lemma create_container_spec (w : World) :
  let r := runner_Run (spec.create_cmd appName service) ropts (files w) (engine w) in
  create_container appName service ropts w =
    (mkWorld (ran_files r) (ran_engine r)
       (sink w ++ ran_lines r ++
          match ran_err r with
          | Some err => [("cache error: " ++ Error err)%string]
          | None => []
          end)
       (trace w ++ [EvRun (spec.create_cmd appName service)]),
     Ok tt).
Proof.
  unfold create_container, bind, try, Run, ran_result, ran_world, spec.create_cmd, send, ret.
  destruct (ran_err _); cbn [files engine sink trace];
    [by rewrite <- app_assoc|by rewrite !app_nil_r].
Qed.

Lemma remove_stale_spec (w : World) :
  let r := exec_Run (spec.stale_cmd opts service) (files w) (engine w) in
  remove_stale opts service w =
    (mkWorld (ran_files r) (ran_engine r) (sink w)
       (trace w ++ [EvExec (spec.stale_cmd opts service)]),
     Ok tt).
Proof.
  unfold remove_stale, bind, try, exec_Command_Run, ran_result, spec.stale_cmd, ret.
  by destruct (ran_err _).
Qed.

Lemma extract_cache_spec (w : World) :
  let r := runner_Run (spec.extract_cmd opts service) ropts (files w) (engine w) in
  extract_cache opts service ropts w =
    (mkWorld (ran_files r) (ran_engine r)
       (sink w ++ ran_lines r ++
          match ran_err r with
          | Some _ => ["ignoring build cache"%string]
          | None => []
          end)
       (trace w ++ [EvRun (spec.extract_cmd opts service)]),
     Ok tt).
Proof.
  unfold extract_cache, bind, try, Run, ran_result, ran_world, spec.extract_cmd, send, ret.
  destruct (ran_err _); cbn [files engine sink trace];
    [by rewrite <- app_assoc|by rewrite !app_nil_r].
Qed.

Lemma remove_container_spec (w : World) :
  let r := runner_Run (spec.remove_cmd service) ropts (files w) (engine w) in
  remove_container service ropts w =
    (mkWorld (ran_files r) (ran_engine r)
       (sink w ++ ran_lines r ++
          match ran_err r with
          | Some err => [("cache error: " ++ Error err)%string]
          | None => []
          end)
       (trace w ++ [EvRun (spec.remove_cmd service)]),
     Ok tt).
Proof.
  unfold remove_container, bind, try, Run, ran_result, ran_world, spec.remove_cmd, send, ret.
  destruct (ran_err _); cbn [files engine sink trace];
    [by rewrite <- app_assoc|by rewrite !app_nil_r].
Qed.

(** The write-back returns no error, and none of its calls is a
    build command. *)
Lemma save_cache_ok (w : World) :
  exists w1 more,
    save_cache appName opts service ropts w = (w1, Ok tt)
    /\ trace w1 = trace w ++ more /\ spec.builds_in more = 0%nat.
Proof.
  unfold save_cache. destruct (negb _).
  - unfold bind. rewrite create_container_spec. cbv zeta.
    rewrite remove_stale_spec. cbv zeta.
    rewrite extract_cache_spec. cbv zeta.
    rewrite remove_container_spec. cbv zeta.
    eexists _, [_; _; _; _]. split; [done|]. cbn [trace]. split.
    + by rewrite <- !app_assoc.
    + reflexivity.
  - exists w, []. by rewrite app_nil_r.
Qed.

End steps.

End executor.

Section rounds.
Context `{Platform}.
Variables (dir appName : string) (opts : BuildOptions).

Lemma on_files_buildArgs (dockerfile : string) (w : World) :
  on_files (buildArgs dockerfile) w = (w, snd (buildArgs dockerfile (files w))).
Proof.
  unfold on_files. pose proof (buildArgs_files dockerfile (files w)) as Hfs.
  destruct (buildArgs dockerfile (files w)) as [fs r]. cbn in Hfs. subst fs.
  by destruct w.
Qed.

(** What the build of a service does after the cache restore. *)
Lemma run_build_spec (buildCache : gmap string string) (service : Service) (w : World) :
  match snd (buildArgs (spec.dockerfile_path dir service) (files w)) with
  | Ok dba =>
      let r := runner_Run (build_cmd dir appName opts service dba) (build_ropts opts) (files w) (engine w) in
      match ran_err r with
      | Some err =>
          run_build dir appName opts buildCache service w =
            (ran_world w (EvRun (build_cmd dir appName opts service dba)) r,
             Err (ErrorString ("build error: " ++ Error err)))
      | None =>
          exists w1 more,
            run_build dir appName opts buildCache service w =
              (w1, Ok (<[Hash (svc_Build service) := Tag service appName]> buildCache))
            /\ trace w1 = trace w ++ EvRun (build_cmd dir appName opts service dba) :: more
            /\ spec.builds_in more = 0%nat
      end
  | Err err => run_build dir appName opts buildCache service w = (w, Err err)
  | Panic msg => run_build dir appName opts buildCache service w = (w, Panic msg)
  end.
Proof.
  unfold run_build. rewrite dockerfile_path_eq. unfold bind.
  rewrite on_files_buildArgs.
  destruct (snd (buildArgs _ _)) as [dba|err|msg]; [|done..].
  rewrite copy_args_id, build_command_line.
  fold (build_cmd dir appName opts service dba). fold (build_ropts opts).
  unfold wrap_err, Run, ran_result. cbv zeta.
  destruct (ran_err _) as [err|]; [done|].
  match goal with |- context [save_cache _ _ _ _ ?w0] =>
    destruct (save_cache_ok appName opts service (build_ropts opts) w0) as (w1 & more & -> & Htr & Hnb)
  end.
  exists w1, more. split; [done|]. split; [|done].
  rewrite Htr. cbn. by rewrite <- app_assoc.
Qed.


End rounds.

Section cache.
Context `{Platform}.
Variables (dir appName : string) (opts : BuildOptions).

(** C10, as amended. No failure of the cache write-back is fatal: each
    of its four steps returns no error whatever its command does, and
    so does the write-back as a whole; a failed creation or removal of
    the temporary container sends [cache error: ...] to the stream, a
    failed extraction sends [ignoring build cache], and the outcome of
    the removal of the stale entry is dropped with nothing sent. Once
    the build command has succeeded, the build of the service returns
    the memo with the hash recorded under the service's tag. *)
Theorem write_back_not_fatal (service : Service) (ropts : RunnerOptions)
    (buildCache : gmap string string) (w : World) :
  (snd (create_container appName service ropts w) = Ok tt
   /\ sink (fst (create_container appName service ropts w)) =
        sink w ++ ran_lines (runner_Run (spec.create_cmd appName service) ropts
                               (files w) (engine w))
          ++ match spec.run_failure (spec.create_cmd appName service) ropts w with
             | Some err => [("cache error: " ++ Error err)%string]
             | None => []
             end)
  /\ (snd (remove_stale opts service w) = Ok tt
      /\ sink (fst (remove_stale opts service w)) = sink w)
  /\ (snd (extract_cache opts service ropts w) = Ok tt
      /\ sink (fst (extract_cache opts service ropts w)) =
           sink w ++ ran_lines (runner_Run (spec.extract_cmd opts service) ropts
                                  (files w) (engine w))
             ++ match spec.run_failure (spec.extract_cmd opts service) ropts w with
                | Some _ => ["ignoring build cache"%string]
                | None => []
                end)
  /\ (snd (remove_container service ropts w) = Ok tt
      /\ sink (fst (remove_container service ropts w)) =
           sink w ++ ran_lines (runner_Run (spec.remove_cmd service) ropts
                                  (files w) (engine w))
             ++ match spec.run_failure (spec.remove_cmd service) ropts w with
                | Some err => [("cache error: " ++ Error err)%string]
                | None => []
                end)
  /\ snd (save_cache appName opts service ropts w) = Ok tt
  /\ (forall dba,
        snd (buildArgs (spec.dockerfile_path dir service) (files w)) = Ok dba ->
        spec.run_failure (build_cmd dir appName opts service dba) (build_ropts opts) w = None ->
        snd (run_build dir appName opts buildCache service w) =
          Ok (<[Hash (svc_Build service) := Tag service appName]> buildCache)).
Proof.
  rewrite create_container_spec, remove_stale_spec, extract_cache_spec,
    remove_container_spec. cbv zeta. cbn [fst snd sink].
  repeat split.
  - by destruct (save_cache_ok appName opts service ropts w) as (? & ? & -> & _).
  - intros dba Hdba Hok. pose proof (run_build_spec dir appName opts buildCache service w) as Hrun.
    rewrite Hdba in Hrun. cbv zeta in Hrun. unfold spec.run_failure in Hok.
    rewrite Hok in Hrun. by destruct Hrun as (? & ? & -> & _).
Qed.

(** C5, as amended. With a cache store and an entry for the service's
    hash, a failure of the copy of the entry into the staging directory
    is not fatal: the cache restore returns no error, the failure is
    sent to the stream as [cache error: ...] unless its message has the
    words [no such file or directory], and the round of the service
    goes on with the scan of the build-definition file and the
    build. *)
Theorem copy_failure_reported (buildCache : gmap string string) (service : Service)
    (w : World) (si : FileInfo) (err : error) :
  CacheDir opts <> ""%string ->
  buildCache !! Hash (svc_Build service) = None ->
  snd (os.Stat (spec.rcd opts service) (files w)) = Ok si ->
  snd (copyDir maxDepth (spec.rcd opts service) (spec.lcd dir)
         (files (fst (clear_staging (spec.lcd dir) w)))) = Err err ->
  exists w1,
    restore_cache dir opts service w = (w1, Ok tt)
    /\ sink w1 =
         sink (fst (clear_staging (spec.lcd dir) w)) ++
         (if strings.Contains (Error err) "no such file or directory" then []
          else [("cache error: " ++ Error err)%string])
    /\ trace w1 = trace w
    /\ build_service dir appName opts buildCache service w =
         run_build dir appName opts buildCache service w1.
Proof.
  intros Hdir Hmiss Hstat Hcopy.
  assert (exists w1, restore_cache dir opts service w = (w1, Ok tt)
            /\ sink w1 = sink (fst (clear_staging (spec.lcd dir) w)) ++
                 (if strings.Contains (Error err) "no such file or directory" then []
                  else [("cache error: " ++ Error err)%string])
            /\ trace w1 = trace w) as (w1 & Hrestore & Hsink & Htrace).
  { unfold restore_cache. apply String.eqb_neq in Hdir. rewrite Hdir. cbn [negb].
    fold (spec.rcd opts service). fold (spec.lcd dir). unfold bind.
    destruct (try_on_files (os.Stat (spec.rcd opts service)) w (safe_Stat _)) as (o & -> & Ho).
    destruct o as [e|]; [congruence|].
    assert (fst (os.Stat (spec.rcd opts service) (files w)) = files w) as ->.
    { unfold os.Stat. by destruct (stat_node _ _) as [?|[? ?]]. }
    replace (mkWorld (files w) (engine w) (sink w) (trace w)) with w by by destruct w.
    destruct (clear_staging_ok (spec.lcd dir) w) as (w0 & Hclear & Htr & _).
    rewrite Hclear in Hcopy |- *. cbn [fst] in Hcopy.
    rewrite copy_cache_spec, Hcopy. eexists. split; [done|]. by split. }
  exists w1. repeat split; try done.
  unfold build_service. rewrite Hmiss. unfold bind. by rewrite Hrestore.
Qed.

End cache.

Section memo.
Context `{Platform}.
Variables (dir appName : string) (opts : BuildOptions).

Lemma first_with_app (hash : string) (l1 l2 : list Service) :
  spec.first_with hash (l1 ++ l2) =
    match spec.first_with hash l1 with
    | Some a => Some a
    | None => spec.first_with hash l2
    end.
Proof.
  unfold spec.first_with. rewrite filter_app.
  by destruct (filter _ l1).
Qed.

Lemma first_with_one (hash : string) (service : Service) :
  spec.first_with hash [service] =
    if decide (Hash (svc_Build service) = hash) then Some service else None.
Proof.
  unfold spec.first_with. cbn. unfold filter, list_filter.
  by destruct (decide _).
Qed.

Lemma first_with_none (hash : string) (l : list Service) :
  (forall k c, l !! k = Some c -> Hash (svc_Build c) <> hash) ->
  spec.first_with hash l = None.
Proof.
  unfold spec.first_with. induction l as [|x l IH]; intros Hl; [done|].
  rewrite filter_cons_False by apply (Hl 0%nat x eq_refl).
  apply IH. intros k c Hk. by apply (Hl (S k) c).
Qed.

Lemma builds_in_app (l1 l2 : list event) :
  spec.builds_in (l1 ++ l2) = (spec.builds_in l1 + spec.builds_in l2)%nat.
Proof. unfold spec.builds_in. by rewrite List.filter_app, length_app. Qed.

(** One round of the loop over the services to build, when it returns
    no error. *)
Lemma build_service_round (buildCache buildCache' : gmap string string)
    (service : Service) (w w1 : World) :
  build_service dir appName opts buildCache service w = (w1, Ok buildCache') ->
  match buildCache !! Hash (svc_Build service) with
  | Some bc =>
      buildCache' = buildCache
      /\ trace w1 = trace w ++ [EvRun (Docker ["tag"; bc; Tag service appName])]
  | None =>
      buildCache' = <[Hash (svc_Build service) := Tag service appName]> buildCache
      /\ exists ev more, trace w1 = trace w ++ ev :: more
                         /\ spec.is_build ev = true /\ spec.builds_in more = 0%nat
  end.
Proof.
  unfold build_service. destruct (buildCache !! _) as [bc|].
  - unfold bind, wrap_err, Run, ran_result, ret.
    destruct (ran_err _); [discriminate|]. by intros [= <- <-].
  - unfold bind.
    destruct (restore_cache_ok dir opts service w) as (w0 & -> & Htr).
    pose proof (run_build_spec dir appName opts buildCache service w0) as Hrun.
    destruct (snd (buildArgs _ _)) as [dba|err|msg]; [|by rewrite Hrun..].
    cbv zeta in Hrun. destruct (ran_err _); [by rewrite Hrun|].
    destruct Hrun as (w2 & more & -> & Htr2 & Hnb). intros [= <- <-].
    split; [done|]. exists (EvRun (build_cmd dir appName opts service dba)), more.
    by rewrite Htr2, Htr.
Qed.

Lemma memo_of_next (seen : list Service) (buildCache buildCache' : gmap string string)
    (service : Service) :
  memo_of appName seen buildCache ->
  buildCache' = match buildCache !! Hash (svc_Build service) with
                | Some _ => buildCache
                | None => <[Hash (svc_Build service) := Tag service appName]> buildCache
                end ->
  memo_of appName (seen ++ [service]) buildCache'.
Proof.
  intros Hmemo -> hash. rewrite first_with_app, first_with_one.
  pose proof (Hmemo hash) as Hh. pose proof (Hmemo (Hash (svc_Build service))) as Hs.
  destruct (buildCache !! Hash (svc_Build service)) as [bc|] eqn:Hbc.
  - rewrite Hh. destruct (spec.first_with hash seen) as [a|] eqn:Ha; [done|].
    destruct (decide _) as [<-|]; [|done]. rewrite Ha in Hs. discriminate.
  - destruct (decide (Hash (svc_Build service) = hash)) as [<-|Hne].
    + rewrite lookup_insert_eq.
      by destruct (spec.first_with (Hash (svc_Build service)) seen).
    + rewrite lookup_insert_ne by done. rewrite Hh.
      by destruct (spec.first_with hash seen).
Qed.

(** The rounds of a loop that returns no error: a service whose hash
    was met is only tagged, from the tag of the first service that had
    the hash; the others are built, by the one build command of their
    round. *)
Lemma build_rounds_memo (builds : list Service) :
  forall (seen : list Service) (buildCache buildCache' : gmap string string)
         (w w' : World) (j : nat) (b : Service),
    memo_of appName seen buildCache ->
    build_services dir appName opts buildCache builds w = (w', Ok buildCache') ->
    builds !! j = Some b ->
    exists round,
      build_rounds dir appName opts buildCache builds w !! j = Some round
      /\ match spec.first_with (Hash (svc_Build b)) (seen ++ take j builds) with
         | Some a => round = [EvRun (Docker ["tag"; Tag a appName; Tag b appName])]
         | None => spec.builds_in round = 1%nat
         end.
Proof.
  induction builds as [|service rest IH];
    intros seen buildCache buildCache' w w' j b Hmemo Hrun Hj; [done|].
  cbn [build_services build_rounds] in *. unfold bind in Hrun.
  destruct (build_service dir appName opts buildCache service w) as [w1 [memo1|err|msg]] eqn:Hs;
    [|discriminate..].
  pose proof (build_service_round _ _ _ _ _ Hs) as Hround.
  destruct j as [|j].
  - injection Hj as ->. eexists. split; [done|].
    cbn [take]. rewrite app_nil_r. specialize (Hmemo (Hash (svc_Build b))).
    destruct (buildCache !! Hash (svc_Build b)) as [bc|].
    + destruct Hround as [_ ->]. rewrite drop_app_length.
      destruct (spec.first_with _ seen); [|done]. cbn in Hmemo. congruence.
    + destruct Hround as (_ & ev & more & -> & Hev & Hnb). rewrite drop_app_length.
      destruct (spec.first_with _ seen); [done|].
      unfold spec.builds_in in *. cbn. rewrite Hev. cbn. by rewrite Hnb.
  - cbn [lookup list_lookup] in Hj |- *.
    assert (memo_of appName (seen ++ [service]) memo1) as Hmemo1.
    { eapply memo_of_next; [done|].
      destruct (buildCache !! Hash (svc_Build service)); by destruct Hround as [-> _]. }
    destruct (IH _ _ _ _ _ _ _ Hmemo1 Hrun Hj) as (round & Hr & Hshape).
    exists round. split; [done|]. cbn [take]. by rewrite <- app_assoc in Hshape.
Qed.

(** C1, as amended. In a run of the loop over the services to build
    that returns no error, of any two services with equal hashes the
    first of which is the first service of the list with that hash, the
    first is built by the one build command of its round and the second
    is only tagged, from the first service's tag to its own: the two
    rounds hold exactly one build command. *)
Theorem memo_deduplicates (builds : list Service) (w : World)
    (buildCache' : gmap string string) :
  snd (build_services dir appName opts ∅ builds w) = Ok buildCache' ->
  spec.deduplicated_from_first dir appName opts builds w.
Proof.
  intros Hok i j a b Hij Hi Hj Hhash Hfirst.
  destruct (build_services dir appName opts ∅ builds w) as [w' r] eqn:Hrun.
  cbn in Hok. subst r.
  assert (memo_of appName [] ∅) as Hmemo by (intros hash; by rewrite lookup_empty).
  destruct (build_rounds_memo builds [] _ _ _ _ i a Hmemo Hrun Hi) as (round_a & Ha & Hsa).
  destruct (build_rounds_memo builds [] _ _ _ _ j b Hmemo Hrun Hj) as (round_b & Hb & Hsb).
  cbn [app] in Hsa, Hsb.
  assert (spec.first_with (Hash (svc_Build a)) (take i builds) = None) as Hfa.
  { apply first_with_none. intros k c Hk.
    apply lookup_take_Some in Hk as [Hk Hlt]. by apply (Hfirst k c). }
  assert (spec.first_with (Hash (svc_Build b)) (take j builds) = Some a) as Hfb.
  { rewrite <- Hhash. rewrite <- (take_drop i (take j builds)).
    rewrite take_take, Nat.min_l by lia.
    rewrite first_with_app, Hfa.
    destruct (drop i (take j builds)) as [|x tl] eqn:Hdrop.
    - apply (f_equal length) in Hdrop. rewrite length_drop, length_take in Hdrop.
      apply lookup_lt_Some in Hj. cbn in Hdrop. lia.
    - assert (x = a) as ->.
      { assert (drop i (take j builds) !! 0%nat = Some a) as H0.
        { rewrite lookup_drop, Nat.add_0_r, lookup_take_lt by lia. done. }
        rewrite Hdrop in H0. by injection H0. }
      unfold spec.first_with. rewrite filter_cons_True by done. done. }
  rewrite Hfa in Hsa. rewrite Hfb in Hsb.
  exists round_a, round_b. split; [done|]. split; [done|].
  rewrite builds_in_app, Hsa, Hsb. done.
Qed.

End memo.

(** ** The file-system tree *)

Section tree.

Lemma walk_app (p q : path) : forall n : node,
  walk n (p ++ q) =
    match walk n p with
    | inr m => walk m q
    | inl err => inl err
    end.
Proof.
  induction p as [|e p IH]; intros n; [done|].
  cbn. destruct n as [| perm es |]; [done| |done].
  destruct (es !! e); [apply IH|done].
Qed.

Lemma walk_snoc_dir (t : node) (p : path) (e : string) (perm : Z)
    (es : gmap string node) :
  walk t p = inr (Dir perm es) ->
  walk t (p ++ [e]) = match es !! e with Some n => inr n | None => inl ENOENT end.
Proof. intros Hp. rewrite walk_app, Hp. cbn. by destruct (es !! e). Qed.

(** A node below an absent path is absent. *)
Lemma walk_below_absent (t : node) (p q : path) :
  walk t p = inl ENOENT -> walk t (p ++ q) = inl ENOENT.
Proof. intros Hp. by rewrite walk_app, Hp. Qed.

(** What is above a node is a directory. *)
Lemma walk_above_dir (t : node) (p q : path) (n : node) :
  walk t (p ++ q) = inr n -> q <> [] ->
  exists perm es, walk t p = inr (Dir perm es).
Proof.
  rewrite walk_app. destruct (walk t p) as [|m]; [done|].
  destruct q as [|e q]; [done|]. intros Hq _.
  destruct m; [done| |done]. eauto.
Qed.

(** Replacing a node leaves the nodes elsewhere as they are. *)
Lemma put_walk_frame (p : path) : forall (n n' : node) (v : option node) (q : path),
  put n p v = inr n' -> unrelated p q -> walk n' q = walk n q.
Proof.
  induction p as [|e p IH]; intros n n' v q Hput [Hpq Hqp].
  - destruct Hpq. apply prefix_nil.
  - destruct q as [|e' q]; [destruct Hqp; apply prefix_nil|].
    cbn in Hput. destruct n as [| perm es |]; [done| |done].
    destruct p as [|e2 p].
    + injection Hput as <-. cbn.
      destruct (decide (e = e')) as [->|Hne].
      * destruct Hpq. apply prefix_cons, prefix_nil.
      * by rewrite lookup_partial_alter_ne.
    + destruct (es !! e) as [child|] eqn:He; [|done].
      destruct (put child (e2 :: p) v) as [|child'] eqn:Hc; [done|].
      injection Hput as <-. cbn.
      destruct (decide (e = e')) as [->|Hne].
      * rewrite lookup_insert_eq, He. apply (IH _ _ _ _ Hc). split.
        -- intros Hpre. apply Hpq. by apply prefix_cons.
        -- intros Hpre. apply Hqp. by apply prefix_cons.
      * by rewrite lookup_insert_ne.
Qed.

(** The node put is at its path. *)
Lemma put_walk_same (p : path) : forall (n n' : node) (v : option node),
  put n p v = inr n' -> p <> [] ->
  walk n' p = match v with Some m => inr m | None => inl ENOENT end.
Proof.
  induction p as [|e p IH]; intros n n' v Hput Hne; [done|].
  cbn in Hput. destruct n as [| perm es |]; [done| |done].
  destruct p as [|e2 p].
  - injection Hput as <-. cbn. rewrite lookup_partial_alter_eq. by destruct v.
  - destruct (es !! e) as [child|] eqn:He; [|done].
    destruct (put child (e2 :: p) v) as [|child'] eqn:Hc; [done|].
    injection Hput as <-. cbn [walk]. rewrite lookup_insert_eq.
    by apply (IH _ _ _ Hc).
Qed.

(** What is above the node put is a directory, before and after, with
    the same permissions. *)
Lemma put_walk_above (p : path) : forall (n n' : node) (v : option node) (q r : path),
  put n p v = inr n' -> p = q ++ r -> r <> [] ->
  exists perm es es',
    walk n q = inr (Dir perm es) /\ walk n' q = inr (Dir perm es').
Proof.
  induction p as [|e p IH]; intros n n' v q r Hput Hp Hr.
  - by destruct q, r.
  - cbn in Hput. destruct n as [| perm es |]; [done| |done].
    destruct q as [|e' q].
    + cbn. destruct p as [|e2 p].
      * injection Hput as <-. eauto.
      * destruct (es !! e); [|done]. destruct (put _ _ _); [done|].
        injection Hput as <-. eauto.
    + injection Hp as <- Hp.
      destruct p as [|e2 p]; [by destruct q, r|].
      destruct (es !! e) as [child|] eqn:He; [|done].
      destruct (put child (e2 :: p) v) as [|child'] eqn:Hc; [done|].
      injection Hput as <-. cbn [walk]. rewrite lookup_insert_eq, He.
      by apply (IH _ _ _ _ _ Hc Hp).
Qed.

Lemma put_walk_below (p r : path) (n n' m : node) :
  put n p (Some m) = inr n' -> p <> [] -> walk n' (p ++ r) = walk m r.
Proof.
  intros Hput Hp. by rewrite walk_app, (put_walk_same _ _ _ _ Hput Hp).
Qed.

Lemma unrelated_sym (p q : path) : unrelated p q -> unrelated q p.
Proof. intros [? ?]. by split. Qed.

(** Two paths are unrelated, or one is above the other. *)
Lemma related_cases (p q : path) :
  unrelated p q \/ (exists r, q = p ++ r) \/ (exists r, p = q ++ r /\ r <> []).
Proof.
  destruct (decide (p `prefix_of` q)) as [[r Hr]|Hpq]; [right; left; eauto|].
  destruct (decide (q `prefix_of` p)) as [[r Hr]|Hqp]; [|by left].
  right. right. exists r. split; [done|]. intros ->.
  rewrite app_nil_r in Hr. subst. by destruct Hpq.
Qed.

End tree.

(** ** Links, and the calls on files *)

Section files.

Lemma put_walk_some (p : path) (n n' m : node) :
  put n p (Some m) = inr n' -> walk n' p = inr m.
Proof.
  destruct p as [|e p]; [by intros [= <-]|].
  intros Hput. by rewrite (put_walk_same _ _ _ _ Hput).
Qed.

(** Putting a regular file where there is no directory and no link
    changes no link. *)
Lemma link_target_put (t t' : node) (q : path) (n : node) :
  put t q (Some n) = inr t' -> is_file n = true -> plain_at t q ->
  forall p0, link_target t' p0 = link_target t p0.
Proof.
  intros Hput Hn Hplain p0. unfold link_target, plain_at in *.
  destruct (related_cases q p0) as [Hun|[[r ->]|(r & -> & Hr)]].
  - by rewrite (put_walk_frame _ _ _ _ _ Hput Hun).
  - rewrite !walk_app, (put_walk_some _ _ _ _ Hput).
    destruct n; [|done..].
    destruct (walk t q) as [|[]]; [by destruct r| |done..]. by destruct r.
  - destruct (put_walk_above _ _ _ _ _ _ Hput eq_refl Hr) as (perm & es & es' & -> & ->).
    done.
Qed.

Lemma follow_put (t t' : node) (q : path) (n : node) :
  put t q (Some n) = inr t' -> is_file n = true -> plain_at t q ->
  forall hops p0, follow hops t' p0 = follow hops t p0.
Proof.
  intros Hput Hn Hplain hops.
  induction hops as [|h IH]; intros p0; cbn;
    rewrite (link_target_put _ _ _ _ Hput Hn Hplain); [done|].
  destruct (link_target t p0); [apply IH|done].
Qed.

(** Where [follow] ends there is no link. *)
Lemma follow_end (hops : nat) (t : node) : forall p0 q,
  follow hops t p0 = inr q -> link_target t q = None.
Proof.
  induction hops as [|h IH]; intros p0 q; cbn.
  - destruct (link_target t p0) eqn:Hl; [done|]. by intros [= <-].
  - destruct (link_target t p0) eqn:Hl; [apply IH|]. by intros [= <-].
Qed.

Lemma follow_no_link (hops : nat) (t : node) (p : path) :
  link_target t p = None -> follow hops t p = inr p.
Proof. intros Hl. destruct hops; cbn; by rewrite Hl. Qed.

(** A regular file is unrelated to any other place where a file can be
    put. *)
Lemma file_unrelated (t t' : node) (p q : path) (n m : node) :
  put t q (Some m) = inr t' -> plain_at t q ->
  walk t p = inr n -> is_file n = true -> p <> q ->
  unrelated q p.
Proof.
  intros Hput Hplain Hp Hn Hpq. unfold plain_at in Hplain.
  destruct (related_cases q p) as [Hun|[[r ->]|(r & -> & Hr)]]; [done|..].
  - destruct r as [|e r]; [by rewrite app_nil_r in Hpq|].
    destruct (walk_above_dir t q (e :: r) n Hp) as (perm & es & Hq); [done|].
    by rewrite Hq in Hplain.
  - destruct (put_walk_above _ _ _ _ _ _ Hput eq_refl Hr) as (perm & es & es' & Hd & _).
    rewrite Hd in Hp. injection Hp as <-. done.
Qed.

Lemma bind_Ok {S A B} (m : M S A) (k : A -> M S B) (s s' : S) (b : B) :
  bind m k s = (s', Ok b) ->
  exists s1 a, m s = (s1, Ok a) /\ k a s1 = (s', Ok b).
Proof.
  unfold bind. destruct (m s) as [s1 [a|err|msg]]; [eauto|done..].
Qed.

Lemma Open_Ok (name : string) (fs fs' : FS) (p : path) :
  os.Open name fs = (fs', Ok p) ->
  fs' = fs /\ exists n, stat_node (tree fs) name = inr (p, n).
Proof.
  unfold os.Open. destruct (stat_node _ _) as [|[q n]]; [done|].
  intros [= <- <-]. eauto.
Qed.

Lemma Stat_Ok (name : string) (fs fs' : FS) (si : FileInfo) :
  os.Stat name fs = (fs', Ok si) ->
  fs' = fs /\ exists q n, stat_node (tree fs) name = inr (q, n)
                          /\ si = node_info (base_name name) n.
Proof.
  unfold os.Stat. destruct (stat_node _ _) as [|[q n]]; [done|].
  intros [= <- <-]. eauto.
Qed.

Lemma Create_Ok (name : string) (fs fs' : FS) (q : path) :
  os.Create name fs = (fs', Ok q) ->
  exists d0 t' perm atime,
    locate name = inr d0
    /\ follow maxSymlinks (tree fs) d0 = inr q
    /\ plain_at (tree fs) q
    /\ put (tree fs) q (Some (File "" perm atime (clock fs))) = inr t'
    /\ fs' = set_tree fs t'.
Proof.
  unfold os.Create, plain_at. destruct (locate name) as [|d0]; [done|].
  destruct (follow _ _ d0) as [|q0] eqn:Hf; [done|].
  destruct (walk (tree fs) q0) as [[]|[data perm atime mtime| |]] eqn:Hw; try done.
  - destruct (put _ _ _) as [|t'] eqn:Hput; [done|]. intros [= <- <-].
    exists d0, t', (Z.ldiff 438 (umask fs)), (clock fs). by rewrite Hw.
  - destruct (put _ _ _) as [|t'] eqn:Hput; [done|]. intros [= <- <-].
    exists d0, t', perm, atime. by rewrite Hw.
Qed.

Lemma io_Copy_Ok (dst src : path) (fs fs' : FS) (k : Z) :
  os.io_Copy dst src fs = (fs', Ok k) ->
  exists data perm atime mtime old perm' atime' mtime' t',
    walk (tree fs) src = inr (File data perm atime mtime)
    /\ walk (tree fs) dst = inr (File old perm' atime' mtime')
    /\ put (tree fs) dst (Some (File (old ++ data) perm' atime' (clock fs))) = inr t'
    /\ fs' = set_tree fs t'.
Proof.
  unfold os.io_Copy.
  destruct (walk (tree fs) src) as [|[data perm atime mtime| |]]; try done.
  destruct (walk (tree fs) dst) as [|[old perm' atime' mtime'| |]]; try done.
  destruct (put _ _ _) as [|t'] eqn:Hput; [done|]. intros [= <- _].
  by eexists _, _, _, _, _, _, _, _, _.
Qed.

Lemma Chmod_Ok (name : string) (mode : Z) (fs fs' : FS) :
  os.Chmod name mode fs = (fs', Ok tt) ->
  exists q n t',
    stat_node (tree fs) name = inr (q, n)
    /\ put (tree fs) q
         (Some match n with
               | File data _ atime mtime => File data (Z.land mode permMask) atime mtime
               | Dir _ entries => Dir (Z.land mode permMask) entries
               | Symlink _ => n
               end) = inr t'
    /\ fs' = set_tree fs t'.
Proof.
  unfold os.Chmod. destruct (stat_node _ _) as [|[q n]]; [done|].
  destruct (put _ _ _) as [|t'] eqn:Hput; [done|]. intros [= <-].
  by eexists _, _, _.
Qed.

Lemma Chtimes_Ok (name : string) (atime mtime : Z) (fs fs' : FS) :
  os.Chtimes name atime mtime fs = (fs', Ok tt) ->
  exists q n t',
    stat_node (tree fs) name = inr (q, n)
    /\ put (tree fs) q
         (Some match n with
               | File data perm _ _ => File data perm atime mtime
               | _ => n
               end) = inr t'
    /\ fs' = set_tree fs t'.
Proof.
  unfold os.Chtimes. destruct (stat_node _ _) as [|[q n]]; [done|].
  destruct (put _ _ _) as [|t'] eqn:Hput; [done|]. intros [= <-].
  by eexists _, _, _.
Qed.

End files.

Section copy_file.

Lemma stat_node_inr (t : node) (name : string) (q : path) (n : node) :
  stat_node t name = inr (q, n) <->
  exists d0, locate name = inr d0 /\ follow maxSymlinks t d0 = inr q /\ walk t q = inr n.
Proof.
  unfold stat_node, stat_at. split.
  - destruct (locate name) as [|d0]; [done|].
    destruct (follow _ t d0) as [|q0] eqn:Hf; [done|].
    destruct (walk t q0) as [|n0] eqn:Hw; [done|]. intros [= <- <-]. by exists d0.
  - intros (d0 & -> & -> & ->). done.
Qed.

Lemma files_unrelated (t : node) (p q : path) (n m : node) :
  walk t p = inr n -> is_file n = true ->
  walk t q = inr m -> is_file m = true ->
  p <> q -> unrelated q p.
Proof.
  intros Hp Hn Hq Hm Hpq.
  destruct (related_cases q p) as [Hun|[[r ->]|(r & -> & Hr)]]; [done|..].
  - destruct r as [|e r]; [by rewrite app_nil_r in Hpq|].
    destruct (walk_above_dir t q (e :: r) n Hp) as (perm & es & Hd); [done|].
    rewrite Hd in Hq. injection Hq as <-. discriminate Hm.
  - destruct (walk_above_dir t p r m Hq Hr) as (perm & es & Hd).
    rewrite Hd in Hp. injection Hp as <-. discriminate Hn.
Qed.

Lemma plain_at_file (t : node) (q : path) (n : node) :
  walk t q = inr n -> is_file n = true -> plain_at t q.
Proof. unfold plain_at. intros -> Hn. by destruct n. Qed.

Lemma land_permMask_twice (mode : Z) :
  Z.land (Z.land mode permMask) permMask = Z.land mode permMask.
Proof. by rewrite <- Z.land_assoc, Z.land_diag. Qed.

(** What [copyFile] leaves at the destination when it returns no error
    and the destination is not the source file itself: the content of
    the source, its mode, and its modification time as both times;
    the source is as it was. *)
Lemma copyFile_result (src dst : string) (fs fs' : FS) (p : path)
    (data : string) (perm atime mtime : Z) :
  stat_node (tree fs) src = inr (p, File data perm atime mtime) ->
  copyFile src dst fs = (fs', Ok tt) ->
  exists q n,
    stat_node (tree fs') dst = inr (q, n)
    /\ (q <> p ->
        n = File data (Z.land perm permMask) mtime mtime
        /\ walk (tree fs') p = inr (File data perm atime mtime)).
Proof.
  intros Hsrc Hcopy. unfold copyFile in Hcopy.
  apply stat_node_inr in Hsrc as (s0 & Hs0 & Hfs & Hwp).
  apply bind_Ok in Hcopy as (fs0 & p' & Hopen & Hcopy).
  apply Open_Ok in Hopen as (-> & n0 & Hn0).
  apply stat_node_inr in Hn0 as (s0' & Hs0' & Hfs' & _).
  rewrite Hs0 in Hs0'. injection Hs0' as <-. rewrite Hfs in Hfs'. injection Hfs' as <-.
  apply bind_Ok in Hcopy as (fs1 & q & Hcreate & Hcopy).
  apply Create_Ok in Hcreate as (d0 & t1 & pm & at1 & Hd0 & Hfd & Hplain & Hput1 & ->).
  apply bind_Ok in Hcopy as (fs2 & k & Hio & Hcopy).
  apply io_Copy_Ok in Hio
    as (data' & perm1 & atime1 & mtime1 & old & pm' & at' & mt' & t2 & Hwp1 & Hwq1 & Hput2 & ->).
  cbn [tree set_tree clock] in *.
  rewrite (put_walk_some _ _ _ _ Hput1) in Hwq1. injection Hwq1 as <- <- <- <-.
  cbn [String.append] in Hput2.
  apply bind_Ok in Hcopy as (fs3 & [] & Hsync & Hcopy). injection Hsync as <-.
  apply bind_Ok in Hcopy as (fs3 & si & Hstat & Hcopy).
  apply Stat_Ok in Hstat as (-> & q2 & n2 & Hn2 & ->).
  apply bind_Ok in Hcopy as (fs4 & [] & Hchmod & Hcopy).
  apply Chmod_Ok in Hchmod as (q3 & n3 & t3 & Hn3 & Hput3 & ->).
  apply bind_Ok in Hcopy as (fs5 & [] & Hchtimes & Hcopy).
  apply Chtimes_Ok in Hchtimes as (q4 & n4 & t4 & Hn4 & Hput4 & ->).
  injection Hcopy as <-. cbn [tree set_tree] in *.
  (* the destination stays where [os.Create] found it *)
  assert (plain_at t1 q) as Hplain1
    by (eapply plain_at_file; [by apply (put_walk_some _ _ _ _ Hput1)|done]).
  assert (forall p0, follow maxSymlinks t1 p0 = follow maxSymlinks (tree fs) p0) as Hf1
    by (intros p0; by apply (follow_put _ _ _ _ Hput1)).
  assert (forall p0, follow maxSymlinks t2 p0 = follow maxSymlinks (tree fs) p0) as Hf2
    by (intros p0; rewrite <- Hf1; by apply (follow_put _ _ _ _ Hput2)).
  apply stat_node_inr in Hn3 as (d0' & Hd0' & Hfd3 & Hw3).
  rewrite Hd0 in Hd0'. injection Hd0' as <-. rewrite Hf2, Hfd in Hfd3. injection Hfd3 as <-.
  rewrite (put_walk_some _ _ _ _ Hput2) in Hw3. injection Hw3 as <-.
  assert (plain_at t2 q) as Hplain2
    by (eapply plain_at_file; [by apply (put_walk_some _ _ _ _ Hput2)|done]).
  assert (forall p0, follow maxSymlinks t3 p0 = follow maxSymlinks (tree fs) p0) as Hf3
    by (intros p0; rewrite <- Hf2; by apply (follow_put _ _ _ _ Hput3)).
  apply stat_node_inr in Hn4 as (d0' & Hd0' & Hfd4 & Hw4).
  rewrite Hd0 in Hd0'. injection Hd0' as <-. rewrite Hf3, Hfd in Hfd4. injection Hfd4 as <-.
  rewrite (put_walk_some _ _ _ _ Hput3) in Hw4. injection Hw4 as <-.
  assert (plain_at t3 q) as Hplain3
    by (eapply plain_at_file; [by apply (put_walk_some _ _ _ _ Hput3)|done]).
  assert (forall p0, follow maxSymlinks t4 p0 = follow maxSymlinks (tree fs) p0) as Hf4
    by (intros p0; rewrite <- Hf3; by apply (follow_put _ _ _ _ Hput4)).
  eexists q, _. split.
  { apply stat_node_inr. exists d0. rewrite Hf4.
    split; [done|]. split; [done|]. by apply (put_walk_some _ _ _ _ Hput4). }
  intros Hqp.
  (* the source is apart from the destination, and so untouched *)
  assert (unrelated q p) as Hun.
  { apply (files_unrelated t1 p q _ _ Hwp1 eq_refl (put_walk_some _ _ _ _ Hput1) eq_refl).
    congruence. }
  rewrite (put_walk_frame _ _ _ _ _ Hput1 Hun), Hwp in Hwp1.
  injection Hwp1 as <- <- <- <-.
  assert (walk t2 p = inr (File data perm atime mtime)) as Hwp2.
  { by rewrite (put_walk_frame _ _ _ _ _ Hput2 Hun),
       (put_walk_frame _ _ _ _ _ Hput1 Hun). }
  apply stat_node_inr in Hn2 as (s0' & Hs0' & Hfs2 & Hw2).
  rewrite Hs0 in Hs0'. injection Hs0' as <-. rewrite Hf2, Hfs in Hfs2. injection Hfs2 as <-.
  rewrite Hwp2 in Hw2. injection Hw2 as <-. cbn [node_info Mode ModTime node_mode].
  rewrite land_permMask_twice. split; [done|].
  by rewrite (put_walk_frame _ _ _ _ _ Hput4 Hun), (put_walk_frame _ _ _ _ _ Hput3 Hun).
Qed.

(** C9, as amended. When [copyFile] copies a regular file and returns
    no error, the destination (when it is not the source file itself)
    is a regular file whose content is byte for byte the source's,
    whose mode is the source's, and whose access timestamp and
    modification timestamp are both the source's modification
    timestamp. *)
Theorem copyFile_copies (src dst : string) (fs fs' : FS) (p : path)
    (data : string) (perm atime mtime : Z) :
  stat_node (tree fs) src = inr (p, File data perm atime mtime) ->
  copyFile src dst fs = (fs', Ok tt) ->
  exists q n,
    stat_node (tree fs') dst = inr (q, n)
    /\ (q <> p ->
        exists perm',
          n = File data perm' mtime mtime
          /\ Mode (node_info (base_name dst) n) = Mode (node_info (base_name src)
                                                         (File data perm atime mtime))).
Proof.
  intros Hsrc Hcopy.
  destruct (copyFile_result _ _ _ _ _ _ _ _ _ Hsrc Hcopy) as (q & n & Hstat & Hn).
  exists q, n. split; [done|]. intros Hqp. destruct (Hn Hqp) as [-> _].
  eexists. split; [done|]. cbn. apply land_permMask_twice.
Qed.

End copy_file.

(** ** Path names and the paths they denote *)

Section names.

Lemma Contains_slash_cons (c : ascii) (e : string) :
  strings.Contains (String c e) "/" = Ascii.eqb c "/" || strings.Contains e "/".
Proof.
  cbn [strings.Contains String.prefix].
  destruct (ascii_dec "/" c) as [<-|Hne]; [by destruct e|].
  assert (Ascii.eqb c "/" = false) as -> by (apply Ascii.eqb_neq; congruence).
  done.
Qed.

Lemma Split_no_slash (e : string) : no_slash e -> strings.Split e "/" = [e].
Proof.
  unfold no_slash. induction e as [|c e IH]; [done|].
  rewrite Contains_slash_cons. intros [Hc He]%orb_false_iff.
  cbn. rewrite Hc, (IH He). done.
Qed.

Lemma Split_app_slash (a b : string) :
  strings.Split (a ++ String "/" b) "/" = strings.Split a "/" ++ strings.Split b "/".
Proof.
  induction a as [|c a IH]; [done|].
  cbn [String.append strings.Split]. rewrite IH.
  destruct (Ascii.eqb c "/"); [done|].
  by destruct (Split_cons a "/"%char) as (t & ts & ->).
Qed.

Lemma Split_pieces (s : string) : Forall no_slash (strings.Split s "/").
Proof.
  induction s as [|c s IH]; [by repeat constructor|].
  cbn. destruct (Ascii.eqb c "/") eqn:Hc; [by constructor|].
  destruct (Split_cons s "/"%char) as (t & ts & Hs). rewrite Hs in IH |- *.
  apply Forall_cons in IH as [Ht Hts]. constructor; [|done].
  unfold no_slash in *. by rewrite Contains_slash_cons, Hc, Ht.
Qed.

Lemma Split_Join (es : list string) :
  es <> [] -> Forall no_slash es -> strings.Split (strings.Join es "/") "/" = es.
Proof.
  induction es as [|e es IH]; [done|]. intros _ [He Hes]%Forall_cons.
  destruct es as [|e2 es]; [by apply Split_no_slash|].
  change (strings.Join (e :: e2 :: es) "/")
    with (e ++ String "/" (strings.Join (e2 :: es) "/"))%string.
  rewrite Split_app_slash, (Split_no_slash e He), IH; done.
Qed.

Lemma valid_spec (e : string) :
  valid e <-> e <> ""%string /\ e <> "."%string /\ e <> ".."%string /\ no_slash e.
Proof.
  unfold valid, valid_name, no_slash. rewrite !andb_true_iff, !negb_true_iff.
  rewrite !String.eqb_neq. tauto.
Qed.

Lemma clean_step_valid (root : bool) (kept : list string) (e : string) :
  valid e -> filepath.clean_step root kept e = kept ++ [e].
Proof.
  intros (H1 & H2 & H3 & _)%valid_spec. unfold filepath.clean_step.
  apply String.eqb_neq in H1, H2, H3. by rewrite H1, H2, H3.
Qed.

Lemma clean_elems_valid (root : bool) (es : list string) : forall kept,
  Forall valid es -> filepath.clean_elems root kept es = kept ++ es.
Proof.
  unfold filepath.clean_elems.
  induction es as [|e es IH]; intros kept Hes; cbn; [by rewrite app_nil_r|].
  apply Forall_cons in Hes as [He Hes].
  rewrite clean_step_valid, IH, <- app_assoc; done.
Qed.

Lemma clean_elems_app (root : bool) (kept l1 l2 : list string) :
  filepath.clean_elems root kept (l1 ++ l2) =
  filepath.clean_elems root (filepath.clean_elems root kept l1) l2.
Proof. apply fold_left_app. Qed.

Lemma Forall_removelast {A} (P : A -> Prop) (l : list A) :
  Forall P l -> Forall P (removelast l).
Proof.
  induction l as [|x l IH]; [done|]. intros [Hx Hl]%Forall_cons.
  cbn. destruct l; [done|]. constructor; auto.
Qed.

(** From the root, what is kept of elements without a slash are names
    an entry can bear. *)
Lemma clean_root_valid (l : list string) : forall kept,
  Forall no_slash l -> Forall valid kept ->
  Forall valid (filepath.clean_elems true kept l).
Proof.
  unfold filepath.clean_elems.
  induction l as [|e l IH]; intros kept Hl Hk; [done|].
  apply Forall_cons in Hl as [He Hl]. cbn. apply IH; [done|].
  unfold filepath.clean_step.
  destruct (String.eqb e "") eqn:H1; [done|].
  destruct (String.eqb e ".") eqn:H2; [done|]. cbn [orb].
  destruct (String.eqb e "..") eqn:H3.
  - destruct (last kept) as [x|] eqn:Hlast; [|done].
    apply last_Some in Hlast as [kept' ->].
    apply Forall_app in Hk as [Hk' [Hv _]%Forall_cons].
    assert (String.eqb x ".." = false) as ->
      by (apply String.eqb_neq; by apply valid_spec in Hv as (_ & _ & ? & _)).
    by rewrite removelast_last.
  - apply Forall_app. split; [done|]. constructor; [|done].
    apply valid_spec. by rewrite <- !String.eqb_neq.
Qed.

Lemma dots_snoc (n : nat) : dots n ++ [".."%string] = dots (S n).
Proof. unfold dots. symmetry. apply (repeat_cons n). Qed.

Lemma clean_step_dots (n : nat) :
  filepath.clean_step false (dots n) ".." = dots (S n).
Proof.
  unfold filepath.clean_step. cbn [String.eqb Ascii.eqb Bool.eqb orb].
  destruct n as [|n]; [done|].
  rewrite <- (dots_snoc n) at 1. rewrite last_snoc. cbn [String.eqb Ascii.eqb Bool.eqb].
  apply dots_snoc.
Qed.

(** The elements kept from a relative path and from the root differ by
    the [..] at the front. *)
Lemma clean_relative (l : list string) : forall (n : nat) (kept : list string),
  Forall no_slash l -> Forall valid kept ->
  exists n', filepath.clean_elems false (dots n ++ kept) l =
             dots n' ++ filepath.clean_elems true kept l.
Proof.
  unfold filepath.clean_elems.
  induction l as [|e l IH]; intros n kept Hl Hk; [by exists n|].
  apply Forall_cons in Hl as [He Hl]. cbn [fold_left].
  destruct (decide (e = ".."%string)) as [->|Hdd].
  - destruct (last kept) as [x|] eqn:Hlast.
    + apply last_Some in Hlast as [kept' ->].
      apply Forall_app in Hk as [Hk' [Hv _]%Forall_cons].
      assert (String.eqb x ".." = false) as Hx
        by (apply String.eqb_neq; by apply valid_spec in Hv as (_ & _ & ? & _)).
      assert (filepath.clean_step false (dots n ++ kept' ++ [x]) ".." = dots n ++ kept')
        as ->.
      { unfold filepath.clean_step. cbn [String.eqb Ascii.eqb Bool.eqb orb].
        by rewrite app_assoc, last_snoc, Hx, removelast_last. }
      assert (filepath.clean_step true (kept' ++ [x]) ".." = kept') as ->.
      { unfold filepath.clean_step. cbn [String.eqb Ascii.eqb Bool.eqb orb].
        by rewrite last_snoc, Hx, removelast_last. }
      by apply IH.
    + apply last_None in Hlast as ->. rewrite app_nil_r, clean_step_dots.
      change (filepath.clean_step true [] "..") with (@nil string).
      specialize (IH (S n) [] Hl Hk). by rewrite app_nil_r in IH.
  - assert (filepath.clean_step false (dots n ++ kept) e =
            dots n ++ filepath.clean_step true kept e
            /\ Forall valid (filepath.clean_step true kept e)) as [-> Hv].
    { unfold filepath.clean_step.
      destruct (String.eqb e "") eqn:H1; [done|].
      destruct (String.eqb e ".") eqn:H2; [done|]. cbn [orb].
      apply String.eqb_neq in Hdd as Hdd'. rewrite Hdd'.
      split; [by rewrite app_assoc|].
      apply Forall_app. split; [done|]. constructor; [|done].
      apply valid_spec. by rewrite <- !String.eqb_neq. }
    by apply IH.
Qed.

Lemma clean_dots (n : nat) : filepath.clean_elems true [] (dots n) = [].
Proof. unfold filepath.clean_elems. by induction n. Qed.

Lemma clean_again (l : list string) :
  Forall no_slash l ->
  filepath.clean_elems true [] (filepath.clean_elems false [] l) =
  filepath.clean_elems true [] l.
Proof.
  intros Hl. destruct (clean_relative l 0 [] Hl) as [n' Hn']; [done|].
  cbn in Hn'. rewrite Hn', clean_elems_app, clean_dots.
  rewrite clean_elems_valid; [done|]. by apply clean_root_valid.
Qed.

Lemma resolve_root (name : string) :
  resolve [] name = filepath.clean_elems true [] (strings.Split name "/").
Proof. unfold resolve, filepath.slash. by destruct (filepath.rooted name). Qed.

Lemma clean_elems_no_slash (root : bool) (l : list string) : forall kept,
  Forall no_slash l -> Forall no_slash kept ->
  Forall no_slash (filepath.clean_elems root kept l).
Proof.
  unfold filepath.clean_elems.
  induction l as [|e l IH]; intros kept Hl Hk; [done|].
  apply Forall_cons in Hl as [He Hl]. cbn. apply IH; [done|].
  unfold filepath.clean_step.
  destruct (_ || _); [done|].
  assert (Forall no_slash (kept ++ [e])) by (apply Forall_app; split; [done|by constructor]).
  destruct (String.eqb e ".."); [|done].
  destruct (last kept); [|by destruct root].
  destruct (String.eqb _ _); [done|by apply Forall_removelast].
Qed.

(** [filepath.Clean] changes nothing to the path denoted. *)
Lemma resolve_Clean (name : string) :
  resolve [] (filepath.Clean name) = resolve [] name.
Proof.
  rewrite !resolve_root. unfold filepath.Clean, filepath.slash.
  pose proof (Split_pieces name) as Hp.
  destruct (filepath.rooted name).
  - assert (Forall valid (filepath.clean_elems true [] (strings.Split name "/"))) as Hv
      by by apply clean_root_valid.
    destruct (filepath.clean_elems true [] (strings.Split name "/")) as [|e es];
      [reflexivity|].
    change (strings.Split ("/" ++ strings.Join (e :: es) "/") "/")
      with (""%string :: strings.Split (strings.Join (e :: es) "/") "/").
    rewrite Split_Join; [|done|].
    + change (filepath.clean_elems true [] ("" :: e :: es))
        with (filepath.clean_elems true [] (e :: es)).
      by rewrite clean_elems_valid.
    + eapply Forall_impl; [exact Hv|]. by intros x (_ & _ & _ & ?)%valid_spec.
  - rewrite <- (clean_again _ Hp).
    destruct (filepath.clean_elems false [] (strings.Split name "/")) as [|e es] eqn:Hes;
      [done|].
    rewrite Split_Join; [done|done|]. rewrite <- Hes. by apply clean_elems_no_slash.
Qed.

Lemma Join_nonempty (e : string) (es : list string) :
  e <> ""%string -> strings.Join (e :: es) "/" <> ""%string.
Proof. destruct es; [done|]. by destruct e. Qed.

Lemma clean_elems_nonempty (root : bool) (l : list string) : forall kept,
  Forall (fun e => e <> ""%string) kept ->
  Forall (fun e => e <> ""%string) (filepath.clean_elems root kept l).
Proof.
  unfold filepath.clean_elems.
  induction l as [|e l IH]; intros kept Hk; [done|]. cbn. apply IH.
  unfold filepath.clean_step.
  destruct (String.eqb e "") eqn:H1; [done|]. apply String.eqb_neq in H1.
  destruct (String.eqb e "."); [done|]. cbn [orb].
  assert (Forall (fun e => e <> ""%string) (kept ++ [e]))
    by (apply Forall_app; split; [done|by constructor]).
  destruct (String.eqb e ".."); [|done].
  destruct (last kept); [|by destruct root].
  destruct (String.eqb _ _); [done|by apply Forall_removelast].
Qed.

Lemma Clean_nonempty (name : string) : filepath.Clean name <> ""%string.
Proof.
  unfold filepath.Clean, filepath.slash. destruct (filepath.rooted name); [done|].
  pose proof (clean_elems_nonempty false (strings.Split name "/") [] ltac:(done)) as Hne.
  destruct (filepath.clean_elems _ _ _) as [|e es]; [done|].
  apply Forall_cons in Hne as [He _]. by apply Join_nonempty.
Qed.

Lemma locate_Clean (name : string) :
  locate (filepath.Clean name) = inr (resolve [] name).
Proof.
  unfold locate. pose proof (Clean_nonempty name) as Hne.
  apply String.eqb_neq in Hne. by rewrite Hne, resolve_Clean.
Qed.

(** The name of an entry joined to the name of its directory denotes
    the entry. *)
Lemma locate_Join (dirname e : string) :
  dirname <> ""%string -> valid e ->
  locate (filepath.Join [dirname; e]) = inr (resolve [] dirname ++ [e]).
Proof.
  intros Hd He. pose proof He as (He1 & _ & _ & Hns)%valid_spec.
  unfold filepath.Join. cbn [List.filter].
  apply String.eqb_neq in Hd, He1. rewrite Hd, He1. cbn [negb].
  rewrite locate_Clean, resolve_root.
  change (strings.Join [dirname; e] "/") with (dirname ++ String "/" e)%string.
  rewrite Split_app_slash, (Split_no_slash e Hns), clean_elems_app.
  rewrite <- resolve_root. cbn. by rewrite clean_step_valid.
Qed.

End names.

(** ** Directories: making them and reading them *)

Section directories.

Lemma stat_at_no_link (t : node) (p : path) (n : node) :
  walk t p = inr n -> (forall target, n <> Symlink target) ->
  stat_at t p = inr (p, n).
Proof.
  intros Hw Hn. unfold stat_at.
  rewrite follow_no_link; [by rewrite Hw|].
  unfold link_target. rewrite Hw. destruct n; try done. by destruct (Hn target).
Qed.

Lemma snoc_split (x r pp : path) (e : string) :
  x ++ r = pp ++ [e] -> r <> [] -> exists r', pp = x ++ r'.
Proof.
  intros Heq Hr. destruct r as [|e' r _] using rev_ind; [done|].
  rewrite app_assoc in Heq. apply app_inj_tail in Heq as [<- _]. eauto.
Qed.

Lemma not_prefix_snoc (x pp : path) (e : string) :
  ¬ x `prefix_of` pp ++ [e] -> ¬ x `prefix_of` pp.
Proof. intros Hx Hpre. apply Hx. by apply prefix_app_r. Qed.

(** The last step of [os.MkdirAll], where the path is not a directory
    yet: it was absent and is made an empty directory. *)
Lemma mkdir_step (p : path) (perm : Z) (fs1 fs' : FS) :
  match mkdir_at p perm fs1 with
  | inr fs2 => (fs2, None)
  | inl err =>
      match walk (tree fs1) p with
      | inr (Dir _ _) => (fs1, None)
      | _ => (fs1, Some err)
      end
  end = (fs', None) ->
  (forall perm0 es, walk (tree fs1) p <> inr (Dir perm0 es)) ->
  walk (tree fs1) p = inl ENOENT
  /\ (exists perm', walk (tree fs') p = inr (Dir perm' ∅))
  /\ (forall x, ¬ x `prefix_of` p -> walk (tree fs') x = walk (tree fs1) x)
  /\ (forall x r, p = x ++ r -> r <> [] ->
        exists perm0 es, walk (tree fs1) x = inr (Dir perm0 es)).
Proof.
  intros Hstep Hnd. unfold mkdir_at in Hstep.
  destruct (walk (tree fs1) p) as [[]|n] eqn:Hw; try done.
  2: { destruct n; try done. by destruct (Hnd perm0 entries). }
  destruct (put (tree fs1) p _) as [err|t2] eqn:Hput; [done|].
  injection Hstep as <-. cbn [tree set_tree].
  split; [done|]. split; [eexists; by apply (put_walk_some _ _ _ _ Hput)|]. split.
  - intros x Hx. destruct (related_cases p x) as [Hun|[[r ->]|(r & -> & Hr)]].
    + by apply (put_walk_frame _ _ _ _ _ Hput).
    + destruct r as [|e r]; [destruct Hx; by rewrite app_nil_r|].
      rewrite walk_app, (put_walk_some _ _ _ _ Hput), walk_app, Hw. done.
    + destruct Hx. by apply prefix_app_r.
  - intros x r -> Hr.
    destruct (put_walk_above _ _ _ _ _ _ Hput eq_refl Hr) as (perm0 & es & _ & Hd & _).
    eauto.
Qed.

(** What a successful [os.MkdirAll] did: nothing, the path being a
    directory already; or the path was absent, is now an empty
    directory, what is above it was absent or a directory, and every
    path that is not above it leads where it led. *)
Lemma mkdirAll_rev_spec (rp : list string) : forall (perm : Z) (fs fs' : FS),
  mkdirAll_rev rp perm fs = (fs', None) ->
  (fs' = fs /\ exists q n, stat_at (tree fs) (rev rp) = inr (q, n) /\ is_dir n = true)
  \/ (walk (tree fs) (rev rp) = inl ENOENT
      /\ (exists perm', walk (tree fs') (rev rp) = inr (Dir perm' ∅))
      /\ (forall x, ¬ x `prefix_of` rev rp -> walk (tree fs') x = walk (tree fs) x)
      /\ (forall x r, rev rp = x ++ r -> r <> [] ->
            walk (tree fs) x = inl ENOENT
            \/ exists perm0 es, walk (tree fs) x = inr (Dir perm0 es))).
Proof.
  induction rp as [|e rp IH]; intros perm fs fs' Hmk; cbn [mkdirAll_rev] in Hmk;
    destruct (stat_at (tree fs) (rev _)) as [err|[q n]] eqn:Hstat.
  2, 4: destruct (is_dir n) eqn:Hn; [|done]; injection Hmk as <-; left; eauto.
  - (* the root *)
    right. apply mkdir_step in Hmk as (H1 & _); [done|].
    intros perm0 es Hd. by rewrite (stat_at_no_link _ _ _ Hd) in Hstat.
  - right. cbn [rev] in *.
    assert (forall perm0 es, walk (tree fs) (rev rp ++ [e]) <> inr (Dir perm0 es)) as Hnd.
    { intros perm0 es Hd. by rewrite (stat_at_no_link _ _ _ Hd) in Hstat. }
    destruct (is_root rp) eqn:Hroot.
    + (* the parent is the root *)
      destruct rp; [|done]. cbn [rev app] in *.
      apply mkdir_step in Hmk as (H1 & H2 & H3 & H4); [|done].
      repeat split; try done. intros x r Hx Hr. right. by apply (H4 x r).
    + destruct (mkdirAll_rev rp perm fs) as [fs1 [err1|]] eqn:Hparent; [done|].
      destruct (IH _ _ _ Hparent) as [[-> _]|(Habs & _ & Hframe & Habove)].
      * apply mkdir_step in Hmk as (H1 & H2 & H3 & H4); [|done].
        repeat split; try done. intros x r Hx Hr. right. by apply (H4 x r).
      * assert (walk (tree fs1) (rev rp ++ [e]) = walk (tree fs) (rev rp ++ [e])) as Hsame.
        { apply Hframe. apply prefix_snoc_not. }
        apply mkdir_step in Hmk as (H1 & H2 & H3 & H4); [|by rewrite Hsame].
        split; [by rewrite <- Hsame|]. split; [done|]. split.
        -- intros x Hx. rewrite H3 by done. apply Hframe. by eapply not_prefix_snoc.
        -- intros x r Hx Hr. symmetry in Hx.
           destruct (snoc_split _ _ _ _ Hx Hr) as [r' Hr'].
           destruct r' as [|e' r']; [rewrite app_nil_r in Hr'; subst x; by left|].
           by apply (Habove x (e' :: r')).
Qed.

Lemma MkdirAll_Ok (name : string) (perm : Z) (fs fs' : FS) (p : path) :
  os.MkdirAll name perm fs = (fs', Ok tt) ->
  locate name = inr p ->
  (forall q n, stat_at (tree fs) p <> inr (q, n)) ->
  walk (tree fs) p = inl ENOENT
  /\ (exists perm', walk (tree fs') p = inr (Dir perm' ∅))
  /\ (forall x, ¬ x `prefix_of` p -> walk (tree fs') x = walk (tree fs) x)
  /\ (forall x r, p = x ++ r -> r <> [] ->
        walk (tree fs) x = inl ENOENT
        \/ exists perm0 es, walk (tree fs) x = inr (Dir perm0 es)).
Proof.
  unfold os.MkdirAll. intros Hmk Hloc Hstat. rewrite Hloc in Hmk.
  destruct (mkdirAll_rev (rev p) perm fs) as [fs1 [err|]] eqn:Hrev; [done|].
  injection Hmk as <-.
  apply mkdirAll_rev_spec in Hrev. rewrite rev_involutive in Hrev.
  destruct Hrev as [(_ & q & n & Hq & _)|Hfresh]; [by destruct (Hstat q n)|done].
Qed.

(** *** What [os.FileInfo] tells of a node *)

Lemma node_info_Name (name : string) (n : node) : Name (node_info name n) = name.
Proof. by destruct n. Qed.

Lemma land_perm_type (perm type : Z) :
  Z.land permMask type = 0%Z -> Z.land (Z.land perm permMask) type = 0%Z.
Proof. intros Ht. by rewrite <- Z.land_assoc, Ht, Z.land_0_r. Qed.

Lemma node_info_IsDir (name : string) (n : node) :
  IsDir (node_info name n) = is_dir n.
Proof.
  unfold IsDir. destruct n as [data perm atime mtime|perm es|target]; cbn [node_info Mode node_mode is_dir].
  - by rewrite land_perm_type.
  - by rewrite Z.land_lor_distr_l, land_perm_type.
  - reflexivity.
Qed.

Lemma node_info_link (name : string) (n : node) :
  negb (Z.land (Mode (node_info name n)) ModeSymlink =? 0)%Z = is_link n.
Proof.
  destruct n as [data perm atime mtime|perm es|target]; cbn [node_info Mode node_mode is_link].
  - by rewrite land_perm_type.
  - by rewrite Z.land_lor_distr_l, land_perm_type.
  - reflexivity.
Qed.

Lemma NoDup_fst_filter {A B} (f : A * B -> bool) (l : list (A * B)) :
  NoDup l.*1 -> NoDup (List.filter f l).*1.
Proof.
  induction l as [|x l IH]; [done|]. cbn. intros [Hx Hl]%NoDup_cons.
  destruct (f x); [|by apply IH]. cbn. apply NoDup_cons. split; [|by apply IH].
  intros Hin. apply Hx. apply list_elem_of_fmap in Hin as (y & -> & Hy).
  apply list_elem_of_fmap. exists y. split; [done|].
  apply list_elem_of_In, List.filter_In in Hy as [Hy _]. by apply list_elem_of_In.
Qed.

(** What [ioutil.ReadDir] returns: the entries of the directory behind
    the name, each once, under names an entry can bear. *)
Lemma ReadDir_Ok (name : string) (fs fs' : FS) (infos : list FileInfo) :
  os.ReadDir name fs = (fs', Ok infos) ->
  fs' = fs
  /\ exists q perm es,
       stat_node (tree fs) name = inr (q, Dir perm es)
       /\ NoDup (map Name infos)
       /\ forall f, f ∈ infos ->
            valid (Name f) /\ exists n, es !! Name f = Some n /\ f = node_info (Name f) n.
Proof.
  unfold os.ReadDir.
  destruct (stat_node (tree fs) name) as [|[q [| perm es |]]] eqn:Hstat; try done.
  intros [= <- <-]. split; [done|]. exists q, perm, es. split; [done|].
  set (kept := List.filter (fun kn => valid_name kn.1) (map_to_list es)).
  split.
  - rewrite merge_sort_Permutation.
    rewrite map_map.
    erewrite map_ext; [|intros kn; apply node_info_Name].
    apply NoDup_fst_filter, NoDup_fst_map_to_list.
  - intros f Hf. rewrite merge_sort_Permutation in Hf.
    apply list_elem_of_fmap in Hf as ([k n] & -> & Hkn).
    apply list_elem_of_In, List.filter_In in Hkn as [Hkn Hv].
    apply list_elem_of_In, elem_of_map_to_list in Hkn.
    rewrite node_info_Name. cbn in *. eauto.
Qed.

End directories.

(** ** The directory cache transfer *)

Section transfer.

(** The calls of [copyFile] that write: four times a regular file put
    at the place [os.Create] found for the destination. *)
Lemma copyFile_puts (src dst : string) (fs fs' : FS) :
  copyFile src dst fs = (fs', Ok tt) ->
  exists d0 q n1 n2 n3 n4 t1 t2 t3 t4,
    locate dst = inr d0
    /\ follow maxSymlinks (tree fs) d0 = inr q
    /\ plain_at (tree fs) q
    /\ put (tree fs) q (Some n1) = inr t1
    /\ put t1 q (Some n2) = inr t2
    /\ put t2 q (Some n3) = inr t3
    /\ put t3 q (Some n4) = inr t4
    /\ is_file n1 = true /\ is_file n2 = true /\ is_file n3 = true /\ is_file n4 = true
    /\ tree fs' = t4.
Proof.
  intros Hcopy. unfold copyFile in Hcopy.
  apply bind_Ok in Hcopy as (fs0 & p & Hopen & Hcopy).
  apply Open_Ok in Hopen as (-> & _).
  apply bind_Ok in Hcopy as (fs1 & q & Hcreate & Hcopy).
  apply Create_Ok in Hcreate as (d0 & t1 & pm & at1 & Hd0 & Hfd & Hplain & Hput1 & ->).
  apply bind_Ok in Hcopy as (fs2 & k & Hio & Hcopy).
  apply io_Copy_Ok in Hio
    as (data' & perm1 & atime1 & mtime1 & old & pm' & at' & mt' & t2 & _ & Hwq1 & Hput2 & ->).
  cbn [tree set_tree clock] in *.
  apply bind_Ok in Hcopy as (fs3 & [] & Hsync & Hcopy). injection Hsync as <-.
  apply bind_Ok in Hcopy as (fs3 & si & Hstat & Hcopy).
  apply Stat_Ok in Hstat as (-> & _).
  apply bind_Ok in Hcopy as (fs4 & [] & Hchmod & Hcopy).
  apply Chmod_Ok in Hchmod as (q3 & n3 & t3 & Hn3 & Hput3 & ->).
  apply bind_Ok in Hcopy as (fs5 & [] & Hchtimes & Hcopy).
  apply Chtimes_Ok in Hchtimes as (q4 & n4 & t4 & Hn4 & Hput4 & ->).
  injection Hcopy as <-. cbn [tree set_tree] in *.
  assert (plain_at t1 q) as Hplain1
    by (eapply plain_at_file; [by apply (put_walk_some _ _ _ _ Hput1)|done]).
  assert (forall p0, follow maxSymlinks t1 p0 = follow maxSymlinks (tree fs) p0) as Hf1
    by (intros p0; by apply (follow_put _ _ _ _ Hput1)).
  assert (forall p0, follow maxSymlinks t2 p0 = follow maxSymlinks (tree fs) p0) as Hf2
    by (intros p0; rewrite <- Hf1; by apply (follow_put _ _ _ _ Hput2)).
  apply stat_node_inr in Hn3 as (d0' & Hd0' & Hfd3 & Hw3).
  rewrite Hd0 in Hd0'. injection Hd0' as <-. rewrite Hf2, Hfd in Hfd3. injection Hfd3 as <-.
  rewrite (put_walk_some _ _ _ _ Hput2) in Hw3. injection Hw3 as <-.
  assert (plain_at t2 q) as Hplain2
    by (eapply plain_at_file; [by apply (put_walk_some _ _ _ _ Hput2)|done]).
  assert (forall p0, follow maxSymlinks t3 p0 = follow maxSymlinks (tree fs) p0) as Hf3
    by (intros p0; rewrite <- Hf2; by apply (follow_put _ _ _ _ Hput3)).
  apply stat_node_inr in Hn4 as (d0' & Hd0' & Hfd4 & Hw4).
  rewrite Hd0 in Hd0'. injection Hd0' as <-. rewrite Hf3, Hfd in Hfd4. injection Hfd4 as <-.
  rewrite (put_walk_some _ _ _ _ Hput3) in Hw4. injection Hw4 as <-.
  by eexists d0, q, _, _, _, _, t1, t2, t3, t4.
Qed.

(** [copyFile] to a path where nothing is writes at that path only. *)
Lemma copyFile_frame (src dst : string) (fs fs' : FS) (d0 : path) :
  copyFile src dst fs = (fs', Ok tt) ->
  locate dst = inr d0 ->
  walk (tree fs) d0 = inl ENOENT ->
  forall x, unrelated d0 x -> walk (tree fs') x = walk (tree fs) x.
Proof.
  intros Hcopy Hloc Habs x Hun.
  apply copyFile_puts in Hcopy
    as (d0' & q & n1 & n2 & n3 & n4 & t1 & t2 & t3 & t4 & Hd0 & Hf & _
        & Hp1 & Hp2 & Hp3 & Hp4 & _ & _ & _ & _ & ->).
  rewrite Hloc in Hd0. injection Hd0 as <-.
  rewrite follow_no_link in Hf by (unfold link_target; by rewrite Habs).
  injection Hf as <-.
  by rewrite (put_walk_frame _ _ _ _ _ Hp4 Hun), (put_walk_frame _ _ _ _ _ Hp3 Hun),
    (put_walk_frame _ _ _ _ _ Hp2 Hun), (put_walk_frame _ _ _ _ _ Hp1 Hun).
Qed.

Lemma Stat_files (name : string) (fs : FS) : fst (os.Stat name fs) = fs.
Proof. unfold os.Stat. by destruct (stat_node _ _) as [|[]]. Qed.

Lemma copyDir_unfold (depth : nat) (src dst : string) :
  copyDir (S depth) src dst =
    (do si <- os.Stat (filepath.Clean src);
     if negb (IsDir si) then fail (ErrorString "source is not a directory")
     else fun fs =>
       match os.Stat (filepath.Clean dst) fs with
       | (fs1, Ok _) => (fs1, Err (ErrorString "destination already exists"))
       | (fs1, Panic msg) => (fs1, Panic msg)
       | (fs1, Err err) =>
           if negb (os_IsNotExist err) then (fs1, Err err)
           else
             (do_ os.MkdirAll (filepath.Clean dst) (Mode si);
              do files <- os.ReadDir (filepath.Clean src);
              for_each files
                (copy_entry depth (filepath.Clean src) (filepath.Clean dst))) fs1
       end)%go.
Proof. reflexivity. Qed.

(** The steps of a [copyDir] that returns no error. *)
Lemma copyDir_Ok (depth : nat) (src0 dst0 : string) (fs fs' : FS) :
  copyDir (S depth) src0 dst0 fs = (fs', Ok tt) ->
  exists si fs1 infos,
    os.Stat (filepath.Clean src0) fs = (fs, Ok si)
    /\ IsDir si = true
    /\ (forall q n, stat_at (tree fs) (resolve [] dst0) <> inr (q, n))
    /\ os.MkdirAll (filepath.Clean dst0) (Mode si) fs = (fs1, Ok tt)
    /\ os.ReadDir (filepath.Clean src0) fs1 = (fs1, Ok infos)
    /\ for_each infos (copy_entry depth (filepath.Clean src0) (filepath.Clean dst0)) fs1
       = (fs', Ok tt).
Proof.
  rewrite copyDir_unfold. intros Hcopy.
  apply bind_Ok in Hcopy as (fs0 & si & Hstat & Hcopy).
  pose proof (Stat_files (filepath.Clean src0) fs) as Hfs. rewrite Hstat in Hfs.
  cbn in Hfs. subst fs0.
  destruct (IsDir si) eqn:Hdir; [|done]. cbn [negb] in Hcopy.
  pose proof (Stat_files (filepath.Clean dst0) fs) as Hfs.
  destruct (os.Stat (filepath.Clean dst0) fs) as [fs0 [a|err|msg]] eqn:Hdst; try done.
  cbn in Hfs. subst fs0.
  destruct (negb (os_IsNotExist err)); [done|].
  apply bind_Ok in Hcopy as (fs1 & [] & Hmk & Hcopy).
  apply bind_Ok in Hcopy as (fs2 & infos & Hrd & Hcopy).
  pose proof (ReadDir_Ok _ _ _ _ Hrd) as [-> _].
  exists si, fs1, infos. repeat split; try done.
  intros q n Hq. unfold os.Stat, stat_node in Hdst.
  rewrite locate_Clean, Hq in Hdst. done.
Qed.

Lemma resolve_Join (dirname e : string) :
  valid e ->
  resolve [] (filepath.Join [filepath.Clean dirname; e]) = resolve [] dirname ++ [e].
Proof.
  intros He. pose proof (locate_Join (filepath.Clean dirname) e (Clean_nonempty _) He) as Hl.
  unfold locate in Hl. destruct (String.eqb _ ""); [done|].
  injection Hl as ->. by rewrite resolve_Clean.
Qed.

Lemma unrelated_snoc (d x : path) (e : string) :
  unrelated d x -> unrelated (d ++ [e]) x.
Proof.
  intros [Hdx Hxd]. split.
  - intros Hpre. apply Hdx. by eapply prefix_app_l.
  - intros [k Hk]. destruct k as [|e' k _] using rev_ind.
    + rewrite app_nil_r in Hk. subst x. apply Hdx. by apply prefix_app_r.
    + rewrite app_assoc in Hk. apply app_inj_tail in Hk as [-> _].
      apply Hxd. by apply prefix_app_r.
Qed.

Lemma unrelated_siblings (d : path) (e e' : string) (r : path) :
  e <> e' -> unrelated (d ++ [e]) (d ++ e' :: r).
Proof.
  intros Hne. split.
  - intros [k Hk]. rewrite <- app_assoc in Hk. apply app_inv_head in Hk.
    cbn in Hk. congruence.
  - intros [k Hk]. rewrite <- app_assoc in Hk. apply app_inv_head in Hk.
    cbn in Hk. congruence.
Qed.

Section frame.
Variable depth : nat.
Hypothesis copyDir_frame_depth :
  forall src dst fs fs',
    copyDir depth src dst fs = (fs', Ok tt) ->
    forall x, unrelated (resolve [] dst) x -> walk (tree fs') x = walk (tree fs) x.

(** One round of the loop writes below the entry's destination. *)
Lemma copy_entry_frame (src dst : string) (f : FileInfo) (fs fs' : FS) :
  copy_entry depth (filepath.Clean src) (filepath.Clean dst) f fs = (fs', Ok tt) ->
  valid (Name f) ->
  walk (tree fs) (resolve [] dst ++ [Name f]) = inl ENOENT ->
  forall x, unrelated (resolve [] dst ++ [Name f]) x ->
            walk (tree fs') x = walk (tree fs) x.
Proof.
  unfold copy_entry. intros Hstep Hv Habs x Hun.
  destruct (IsDir f).
  - apply (copyDir_frame_depth _ _ _ _ Hstep). by rewrite resolve_Join.
  - destruct (negb _); [by injection Hstep as <-|].
    eapply copyFile_frame; [exact Hstep| |done..].
    by rewrite locate_Join, resolve_Clean by (done || apply Clean_nonempty).
Qed.

Lemma copy_entries_frame (src dst : string) (todo : list FileInfo) :
  forall fs fs',
    for_each todo (copy_entry depth (filepath.Clean src) (filepath.Clean dst)) fs
      = (fs', Ok tt) ->
    NoDup (map Name todo) ->
    (forall f, f ∈ todo -> valid (Name f)) ->
    (forall f, f ∈ todo -> walk (tree fs) (resolve [] dst ++ [Name f]) = inl ENOENT) ->
    forall x, (forall f, f ∈ todo -> unrelated (resolve [] dst ++ [Name f]) x) ->
              walk (tree fs') x = walk (tree fs) x.
Proof.
  induction todo as [|f rest IH]; intros fs fs' Hloop Hnd Hv Habs x Hun.
  - by injection Hloop as <-.
  - cbn [for_each] in Hloop. apply bind_Ok in Hloop as (fs1 & [] & Hstep & Hloop).
    cbn in Hnd. apply NoDup_cons in Hnd as [Hf Hnd].
    assert (forall y, unrelated (resolve [] dst ++ [Name f]) y ->
                      walk (tree fs1) y = walk (tree fs) y) as Hframe.
    { apply (copy_entry_frame _ _ _ _ _ Hstep); [apply Hv|apply Habs]; apply list_elem_of_here. }
    rewrite (IH _ _ Hloop Hnd).
    + apply Hframe, Hun, list_elem_of_here.
    + intros f' Hf'. by apply Hv, list_elem_of_further.
    + intros f' Hf'. rewrite Hframe; [by apply Habs, list_elem_of_further|].
      replace (resolve [] dst ++ [Name f']) with (resolve [] dst ++ Name f' :: []) by done.
      apply unrelated_siblings. intros Heq. apply Hf. rewrite Heq.
      by apply list_elem_of_fmap_2.
    + intros f' Hf'. by apply Hun, list_elem_of_further.
Qed.

End frame.

(** A [copyDir] that returns no error has written at its destination,
    below it, and above it to make the way: what is apart from the
    destination is as it was. *)
Lemma copyDir_frame (depth : nat) : forall src dst fs fs',
  copyDir depth src dst fs = (fs', Ok tt) ->
  forall x, unrelated (resolve [] dst) x -> walk (tree fs') x = walk (tree fs) x.
Proof.
  induction depth as [|depth IH]; intros src dst fs fs' Hcopy x Hun; [done|].
  apply copyDir_Ok in Hcopy as (si & fs1 & infos & _ & _ & Hdst & Hmk & Hrd & Hloop).
  apply (MkdirAll_Ok _ _ _ _ (resolve [] dst)) in Hmk
    as (Habs & (perm' & Hnew) & Hframe & _); [|apply locate_Clean|done].
  apply ReadDir_Ok in Hrd as (_ & q & perm & es & _ & Hnd & Hinfos).
  rewrite (copy_entries_frame depth IH _ _ _ _ _ Hloop Hnd).
  - apply Hframe. by destruct Hun.
  - intros f Hf. by apply Hinfos.
  - intros f Hf. by rewrite (walk_snoc_dir _ _ _ _ _ Hnew).
  - intros f Hf. by apply unrelated_snoc.
Qed.

Section links.
Variable depth : nat.
Hypothesis skips_links_depth :
  forall src dst fs fs' e rel target,
    copyDir depth src dst fs = (fs', Ok tt) ->
    walk (tree fs) (resolve [] src ++ e :: rel) = inr (Symlink target) ->
    walk (tree fs') (resolve [] dst ++ e :: rel) = inl ENOENT.

(** The loop over the entries leaves nothing where the source has a
    link: [e :: rel] is the way from the source to the link. *)
Lemma copy_entries_links (src dst : string) (e : string) (rel : path) (target : string)
    (todo : list FileInfo) :
  forall fs fs',
    for_each todo (copy_entry depth (filepath.Clean src) (filepath.Clean dst)) fs
      = (fs', Ok tt) ->
    NoDup (map Name todo) ->
    (forall f, f ∈ todo -> valid (Name f)) ->
    (forall f, f ∈ todo -> walk (tree fs) (resolve [] dst ++ [Name f]) = inl ENOENT) ->
    (forall f, f ∈ todo -> Name f = e ->
               if is_root rel
               then IsDir f = false /\ negb (Z.land (Mode f) ModeSymlink =? 0)%Z = true
               else IsDir f = true) ->
    unrelated (resolve [] dst) (resolve [] src ++ e :: rel) ->
    walk (tree fs) (resolve [] src ++ e :: rel) = inr (Symlink target) ->
    walk (tree fs) (resolve [] dst ++ e :: rel) = inl ENOENT ->
    walk (tree fs') (resolve [] dst ++ e :: rel) = inl ENOENT.
Proof.
  induction todo as [|f rest IH]; intros fs fs' Hloop Hnd Hv Habs Hkind Hun Hlink Hnone.
  - by injection Hloop as <-.
  - cbn [for_each] in Hloop. apply bind_Ok in Hloop as (fs1 & [] & Hstep & Hloop).
    cbn in Hnd. apply NoDup_cons in Hnd as [Hf Hnd].
    pose proof (copy_entry_frame depth (copyDir_frame depth) _ _ _ _ _ Hstep
                  (Hv f (list_elem_of_here _ _)) (Habs f (list_elem_of_here _ _))) as Hframe.
    assert (walk (tree fs1) (resolve [] src ++ e :: rel) = inr (Symlink target)) as Hlink1.
    { rewrite Hframe; [done|]. by apply unrelated_snoc. }
    assert (walk (tree fs1) (resolve [] dst ++ e :: rel) = inl ENOENT) as Hnone1.
    { destruct (decide (Name f = e)) as [Heq|Hne].
      - specialize (Hkind f (list_elem_of_here _ _) Heq). unfold copy_entry in Hstep.
        destruct rel as [|e2 rel]; cbn [is_root] in Hkind.
        + destruct Hkind as [Hd Hl]. rewrite Hd, Hl in Hstep. by injection Hstep as <-.
        + rewrite Hkind in Hstep.
          pose proof (skips_links_depth _ _ _ _ e2 rel target Hstep) as Hdeep.
          rewrite !resolve_Join, Heq, <- !app_assoc in Hdeep by apply Hv, list_elem_of_here.
          by apply Hdeep.
      - rewrite Hframe; [done|]. by apply unrelated_siblings. }
    apply (IH _ _ Hloop Hnd); try done.
    + intros f' Hf'. by apply Hv, list_elem_of_further.
    + intros f' Hf'. rewrite Hframe; [by apply Habs, list_elem_of_further|].
      replace (resolve [] dst ++ [Name f']) with (resolve [] dst ++ Name f' :: []) by done.
      apply unrelated_siblings. intros Heq. apply Hf. rewrite Heq.
      by apply list_elem_of_fmap_2.
    + intros f' Hf'. by apply Hkind, list_elem_of_further.
Qed.

End links.

(** After a [copyDir] that returns no error, nothing is in the
    destination where the source has a symbolic link. *)
Lemma copyDir_skips_links (depth : nat) : forall src dst fs fs' e rel target,
  copyDir depth src dst fs = (fs', Ok tt) ->
  walk (tree fs) (resolve [] src ++ e :: rel) = inr (Symlink target) ->
  walk (tree fs') (resolve [] dst ++ e :: rel) = inl ENOENT.
Proof.
  induction depth as [|depth IH]; intros src dst fs fs' e rel target Hcopy Hlink; [done|].
  apply copyDir_Ok in Hcopy as (si & fs1 & infos & _ & _ & Hdst & Hmk & Hrd & Hloop).
  apply (MkdirAll_Ok _ _ _ _ (resolve [] dst)) in Hmk
    as (Habs & (perm' & Hnew) & Hframe & Habove); [|apply locate_Clean|done].
  (* the link is apart from the destination *)
  assert (unrelated (resolve [] dst) (resolve [] src ++ e :: rel)) as Hun.
  { split.
    - intros [r Hr]. rewrite Hr, walk_app, Habs in Hlink. done.
    - intros [r Hr]. destruct r as [|e' r].
      + rewrite app_nil_r in Hr. rewrite Hr, Hlink in Habs. done.
      + destruct (Habove _ (e' :: r) Hr) as [Hx|(? & ? & Hx)]; [done|..];
          rewrite Hx in Hlink; done. }
  assert (walk (tree fs1) (resolve [] src ++ e :: rel) = inr (Symlink target)) as Hlink1.
  { rewrite Hframe; [done|]. by destruct Hun. }
  (* the source is a directory of the tree, and its entries were read *)
  destruct (walk_above_dir _ _ _ _ Hlink1) as (sperm & ses & Hsrc); [done|].
  apply ReadDir_Ok in Hrd as (_ & q & perm & es & Hstat & Hnd & Hinfos).
  unfold stat_node in Hstat. rewrite locate_Clean in Hstat.
  rewrite (stat_at_no_link _ _ _ Hsrc) in Hstat by done.
  injection Hstat as <- <- <-.
  apply (copy_entries_links depth IH src dst e rel target infos fs1 fs' Hloop Hnd);
    try done.
  - intros f Hf. by apply Hinfos.
  - intros f Hf. by rewrite (walk_snoc_dir _ _ _ _ _ Hnew).
  - intros f Hf Heq. destruct (Hinfos f Hf) as (_ & n & Hn & ->). rewrite Heq in Hn.
    rewrite node_info_IsDir, node_info_link.
    rewrite walk_app, Hsrc in Hlink1. cbn in Hlink1. rewrite Hn in Hlink1.
    destruct rel as [|e2 rel]; cbn [is_root].
    + cbn in Hlink1. by injection Hlink1 as ->.
    + by destruct n.
  - rewrite walk_app, Hnew. done.
Qed.

(** C6. [copyDir] returns the error of the stat of its source when the
    source does not exist, and an error when the source is not a
    directory; when the destination exists it returns an error with
    the file system exactly as it was, nothing having been written;
    and when it returns no error, nothing is in the destination where
    the source tree has a symbolic link: the link entries were passed
    over, at every level. *)
Theorem copyDir_refuses_and_skips (depth : nat) (src dst : string) (fs : FS) :
  (forall err,
     snd (os.Stat (filepath.Clean src) fs) = Err err ->
     copyDir (S depth) src dst fs = (fs, Err err))
  /\ (forall si,
        snd (os.Stat (filepath.Clean src) fs) = Ok si -> IsDir si = false ->
        copyDir (S depth) src dst fs = (fs, Err (ErrorString "source is not a directory")))
  /\ (forall di,
        snd (os.Stat (filepath.Clean dst) fs) = Ok di ->
        exists err, copyDir (S depth) src dst fs = (fs, Err err)
                    /\ (forall si, snd (os.Stat (filepath.Clean src) fs) = Ok si ->
                                    IsDir si = true ->
                                    err = ErrorString "destination already exists"))
  /\ (forall fs' e rel target,
        copyDir (S depth) src dst fs = (fs', Ok tt) ->
        walk (tree fs) (resolve [] src ++ e :: rel) = inr (Symlink target) ->
        walk (tree fs') (resolve [] dst ++ e :: rel) = inl ENOENT).
Proof.
  pose proof (Stat_files (filepath.Clean src) fs) as Hs.
  pose proof (Stat_files (filepath.Clean dst) fs) as Hd.
  destruct (os.Stat (filepath.Clean src) fs) as [fs0 rs] eqn:Hsrc.
  destruct (os.Stat (filepath.Clean dst) fs) as [fs1 rd] eqn:Hdst.
  cbn in Hs, Hd. subst fs0 fs1. cbn [snd].
  split; [|split; [|split]].
  - intros err ->. rewrite copyDir_unfold. unfold bind. by rewrite Hsrc.
  - intros si -> Hdir. rewrite copyDir_unfold. unfold bind. by rewrite Hsrc, Hdir.
  - intros di ->. rewrite copyDir_unfold. unfold bind. rewrite Hsrc.
    destruct rs as [si|err|msg].
    + destruct (IsDir si) eqn:Hdir; cbn [negb].
      * rewrite Hdst. eexists. split; [done|]. done.
      * eexists. split; [done|]. intros si' [= <-]. congruence.
    + eexists. split; [done|]. done.
    + exfalso. apply (safe_Stat (filepath.Clean src) fs msg). by rewrite Hsrc.
  - intros fs' e rel target. apply copyDir_skips_links.
Qed.

End transfer.

(** ** Claims settled on sample runs *)

Section samples.
Import sample.

#[local] Transparent maxDepth.

(** C1, counterexample. Three services of equal hash, in a run that
    returns no error: the second and the third are a pair with equal
    hashes, yet the second is not built and the third is tagged from
    the first service's tag, not from the second's. *)
Lemma dedup_pairwise_counterexample :
  snd (@Build quiet [web; web2; web3] "/app" "app" (options true "" []) (world quiet tt))
    = Ok tt
  /\ ¬ @spec.deduplicated_pairwise quiet "/app" "app" (options true "" [])
         [web; web2; web3] (world quiet tt).
Proof.
  split; [vm_compute; reflexivity|]. intros Hstated.
  destruct (Hstated 1%nat 2%nat web2 web3) as (round_a & round_b & Ha & _ & _ & Hone & _);
    [lia|reflexivity..|].
  vm_compute in Ha. injection Ha as <-. vm_compute in Hone. discriminate.
Qed.

Lemma memo_deduplicates_witness :
  @spec.deduplicated_from_first quiet "/app" "app" (options true "" [])
    [web; web2; web3] (world quiet tt).
Proof.
  eapply (@memo_deduplicates quiet "/app" "app" (options true "" [])
            [web; web2; web3] (world quiet tt)).
  vm_compute. reflexivity.
Defined.


(** C5, counterexample. The cache store has an entry for the hash, a
    regular file: its copy fails with [source is not a directory],
    which is not about an absent source, and the run returns no
    error, the failure being sent to the stream. *)
Lemma copy_failure_fatal_counterexample :
  snd (@Build quiet [web] "/app" "app" (options true "/cache" []) (world quiet tt)) = Ok tt
  /\ sink (fst (@Build quiet [web] "/app" "app" (options true "/cache" []) (world quiet tt)))
     = ["cache error: source is not a directory"%string]
  /\ ¬ @spec.copy_failure_fatal quiet "/app" "app" (options true "/cache" []) ∅ web
         (world quiet tt).
Proof.
  split; [vm_compute; reflexivity|]. split; [vm_compute; reflexivity|].
  intros Hstated.
  destruct (Hstated) with (err := ErrorString "source is not a directory") as [e He].
  - discriminate.
  - reflexivity.
  - eexists. vm_compute. reflexivity.
  - vm_compute. reflexivity.
  - reflexivity.
  - vm_compute in He. discriminate.
Qed.

Lemma copy_failure_reported_witness :
  exists w1,
    @restore_cache quiet "/app" (options true "/cache" []) web (world quiet tt) = (w1, Ok tt)
    /\ sink w1 =
         sink (fst (@clear_staging quiet (spec.lcd "/app") (world quiet tt))) ++
         (if strings.Contains (Error (ErrorString "source is not a directory"))
               "no such file or directory"
          then []
          else [("cache error: " ++ Error (ErrorString "source is not a directory"))%string])
    /\ trace w1 = trace (world quiet tt)
    /\ @build_service quiet "/app" "app" (options true "/cache" []) ∅ web (world quiet tt) =
         @run_build quiet "/app" "app" (options true "/cache" []) ∅ web w1.
Proof.
  eapply (@copy_failure_reported quiet "/app" "app" (options true "/cache" []) ∅ web
            (world quiet tt)).
  - discriminate.
  - reflexivity.
  - vm_compute. reflexivity.
  - vm_compute. reflexivity.
Defined.

(** C9, counterexample. The file [/store/notes] was last read at 111
    and last written at 222; its copy has 222 as access timestamp, not
    111. *)
Lemma both_times_counterexample :
  stat_node (tree disk) "/store/notes" = inr (["store"; "notes"], File "hello" 384 111 222)
  /\ stat_node (tree (fst (copyFile "/store/notes" "/store/copy" disk))) "/store/copy"
     = inr (["store"; "copy"], File "hello" 384 222 222)
  /\ ¬ spec.copied_with_both_times "/store/notes" "/store/copy" disk.
Proof.
  split; [vm_compute; reflexivity|]. split; [vm_compute; reflexivity|].
  intros Hstated.
  destruct (Hstated ["store"; "notes"] "hello" 384%Z 111%Z 222%Z) as (q & perm' & Hstat & _);
    [vm_compute; reflexivity..|].
  vm_compute in Hstat. discriminate.
Qed.

Lemma copyFile_copies_witness :
  exists q n,
    stat_node (tree (fst (copyFile "/store/notes" "/store/copy" disk))) "/store/copy"
      = inr (q, n)
    /\ (q <> ["store"; "notes"] ->
        exists perm',
          n = File "hello" perm' 222 222
          /\ Mode (node_info (base_name "/store/copy") n) =
             Mode (node_info (base_name "/store/notes") (File "hello" 384 111 222))).
Proof.
  apply (copyFile_copies "/store/notes" "/store/copy" disk
           (fst (copyFile "/store/notes" "/store/copy" disk))
           ["store"; "notes"] "hello" 384 111 222);
    vm_compute; reflexivity.
Defined.

(** C10, counterexample. The removal of the stale entry fails, the
    other commands succeed: the write-back step returns no error but
    the stream receives no line, the failure is not logged. *)
Lemma write_back_logged_counterexample :
  spec.exec_failure (@spec.stale_cmd stuck (options true "/cache" []) web) (world stuck tt)
    = Some (ErrorString "exit status 1")
  /\ sink (fst (@remove_stale stuck (options true "/cache" []) web (world stuck tt))) = []
  /\ sink (fst (@Build stuck [web] "/app" "app" (options true "/cache" []) (world stuck tt)))
     = ["cache error: source is not a directory"%string]
  /\ ¬ @spec.write_back_logged stuck "app" (options true "/cache" []) web
         (mkRunnerOptions false [cache_filter]) (world stuck tt).
Proof.
  split; [vm_compute; reflexivity|]. split; [vm_compute; reflexivity|].
  split; [vm_compute; reflexivity|].
  intros (_ & Hstale & _). destruct Hstale as (_ & sent & line & Hsink); [discriminate|].
  vm_compute in Hsink. by destruct sent.
Qed.

(** The tree [/store] has a link at its top and one in a
    subdirectory: the copy returns no error and has neither. *)
Lemma copyDir_refuses_and_skips_witness :
  snd (copyDir maxDepth "/store" "/copy" disk) = Ok tt
  /\ walk (tree (fst (copyDir maxDepth "/store" "/copy" disk))) ["copy"; "link"] = inl ENOENT
  /\ walk (tree (fst (copyDir maxDepth "/store" "/copy" disk))) ["copy"; "sub"; "up"]
     = inl ENOENT
  /\ walk (tree (fst (copyDir maxDepth "/store" "/copy" disk))) ["copy"; "sub"; "deep"]
     = inr (File "x" 420 200 200).
Proof.
  destruct (copyDir_refuses_and_skips 2047 "/store" "/copy" disk) as (_ & _ & _ & Hskip).
  split; [vm_compute; reflexivity|]. split; [|split].
  - apply (Hskip (fst (copyDir maxDepth "/store" "/copy" disk)) "link"%string [] "notes"%string);
      vm_compute; reflexivity.
  - apply (Hskip (fst (copyDir maxDepth "/store" "/copy" disk)) "sub"%string ["up"%string]
             ".."%string); vm_compute; reflexivity.
  - vm_compute. reflexivity.
Defined.

End samples.

(** * Further properties of the code *)

(** ** [buildArgs]: what it returns, and what it leaves unread *)

Section scanner.

Lemma Contains_byte_cons (c b : ascii) (s : string) :
  strings.Contains (String c s) (String b "") = Ascii.eqb b c || strings.Contains s (String b "").
Proof.
  cbn [strings.Contains String.prefix]. destruct (ascii_dec b c) as [->|Hne].
  - rewrite Ascii.eqb_refl. by destruct s.
  - apply Ascii.eqb_neq in Hne. rewrite Hne. by destruct s.
Qed.

Lemma length_append (a b : string) :
  String.length (a ++ b) = (String.length a + String.length b)%nat.
Proof. induction a as [|c a IH]; cbn; congruence. Qed.

Lemma raw_lines_after_newline (a : string) : forall cur b : string,
  bufio.raw_lines cur (a ++ String bufio.LF b) =
  bufio.raw_lines cur (a ++ String bufio.LF "") ++ bufio.raw_lines "" b.
Proof.
  induction a as [|c a IH]; intros cur b; cbn [String.append bufio.raw_lines].
  - by rewrite Ascii.eqb_refl.
  - destruct (Ascii.eqb c bufio.LF); [|apply IH].
    cbn [app]. by rewrite IH.
Qed.

Lemma raw_lines_pending (rest : string) : forall cur : string,
  cur <> "" ->
  exists l more, bufio.raw_lines cur rest = l :: more
                 /\ (String.length cur <= String.length l)%nat.
Proof.
  induction rest as [|c rest IH]; intros cur Hcur; cbn [bufio.raw_lines].
  - destruct (String.eqb_spec cur ""); [done|]. by eexists _, _.
  - destruct (Ascii.eqb c bufio.LF); [by eexists _, _|].
    destruct (IH (cur ++ String c "")%string) as (l & more & -> & Hlen); [by destruct cur|].
    exists l, more. split; [done|]. rewrite length_append in Hlen. lia.
Qed.

Lemma raw_lines_first (long : string) : forall cur rest : string,
  strings.Contains long (String bufio.LF "") = false ->
  (cur ++ long <> "")%string ->
  exists l more, bufio.raw_lines cur (long ++ rest) = l :: more
                 /\ (String.length cur + String.length long <= String.length l)%nat.
Proof.
  induction long as [|c long IH]; intros cur rest Hone Hne; cbn [String.append].
  - rewrite append_empty_r in Hne.
    destruct (raw_lines_pending rest cur Hne) as (l & more & -> & Hlen).
    exists l, more. split; [done|]. cbn. lia.
  - rewrite Contains_byte_cons in Hone. apply orb_false_elim in Hone as [Hc Hone].
    cbn [bufio.raw_lines]. rewrite Ascii.eqb_sym, Hc.
    destruct (IH (cur ++ String c "")%string rest Hone) as (l & more & -> & Hlen);
      [by destruct cur|].
    exists l, more. split; [done|]. rewrite length_append in Hlen. cbn in *. lia.
Qed.

Lemma take_fitting_stops (ls : list string) (l : string) (more : list string) :
  bufio.fits l = false ->
  bufio.take_fitting (ls ++ l :: more) = bufio.take_fitting ls.
Proof.
  intros Hl. induction ls as [|x ls IH]; cbn [app bufio.take_fitting].
  - by rewrite Hl.
  - destruct (bufio.fits x); [by rewrite IH|done].
Qed.

(** The scan of a text that goes on with a line too long for the
    buffer is the scan of what comes before that line. *)
Lemma Scan_all_long_line (before long rest : string) :
  before = "" \/ (exists b, before = (b ++ String bufio.LF "")%string) ->
  strings.Contains long (String bufio.LF "") = false ->
  (bufio.MaxScanTokenSize <= N.of_nat (String.length long))%N ->
  bufio.Scan_all (before ++ long ++ rest) = bufio.Scan_all before.
Proof.
  intros Hbefore Hone Hlong. unfold bufio.Scan_all. f_equal.
  assert (long <> "") as Hne.
  { intros ->. cbn in Hlong. unfold bufio.MaxScanTokenSize in Hlong. lia. }
  destruct (raw_lines_first long "" rest Hone) as (l & more & Hl & Hlen); [done|].
  assert (bufio.fits l = false) as Hfits.
  { unfold bufio.fits. apply N.ltb_ge. cbn in Hlen. lia. }
  destruct Hbefore as [->|[b ->]].
  - cbn [String.append bufio.raw_lines String.eqb]. rewrite Hl. cbn. by rewrite Hfits.
  - rewrite append_assoc. cbn [String.append].
    rewrite raw_lines_after_newline, Hl. by apply take_fitting_stops.
Qed.

Lemma bytes_append (a b : string) :
  list_ascii_of_string (a ++ b) = list_ascii_of_string a ++ list_ascii_of_string b.
Proof. induction a as [|c a IH]; cbn; congruence. Qed.

Lemma Fields_go_bytes (s : string) : forall (skip : nat) (cur : string),
  Forall (fun c => ascii_space c = false) (list_ascii_of_string cur) ->
  Forall (fun field => Forall (fun c => ascii_space c = false) (list_ascii_of_string field))
         (strings.Fields_go skip cur s).
Proof.
  assert (forall cur, Forall (fun c => ascii_space c = false) (list_ascii_of_string cur) ->
            Forall (fun field => Forall (fun c => ascii_space c = false)
                                        (list_ascii_of_string field))
                   (strings.flush cur)) as Hflush.
  { intros cur Hcur. unfold strings.flush. destruct (String.eqb cur ""); by constructor. }
  induction s as [|c s IH]; intros skip cur Hcur; cbn [strings.Fields_go].
  - by apply Hflush.
  - destruct skip as [|k]; [|by apply IH].
    destruct (strings.space_width (String c s)) as [|k] eqn:Hw.
    + apply IH. rewrite bytes_append. apply Forall_app. split; [done|]. constructor; [|done].
      unfold strings.space_width in Hw. unfold ascii_space.
      change (strings.byte_at (String c s) 0) with (N_of_ascii c) in Hw.
      by destruct ((9 <=? N_of_ascii c)%N && (N_of_ascii c <=? 13)%N || (N_of_ascii c =? 32)%N).
    + apply Forall_app. split; [by apply Hflush|]. apply IH. constructor.
Qed.

Lemma arg_name_bytes (decl : string) :
  Forall (fun c => ascii_space c = false) (list_ascii_of_string decl) ->
  Forall (fun c => ascii_space c = false /\ c <> "="%char)
         (list_ascii_of_string (spec.arg_name decl)).
Proof.
  induction decl as [|c decl IH]; cbn [spec.arg_name list_ascii_of_string]; [constructor|].
  intros Hd. apply Forall_cons in Hd as [Hc Hd].
  destruct (Ascii.eqb_spec c "="); [constructor|].
  cbn [list_ascii_of_string]. constructor; [done|by apply IH].
Qed.

Lemma declared_bytes (line : string) :
  Forall (fun name => Forall (fun c => ascii_space c = false /\ c <> "="%char)
                             (list_ascii_of_string name))
         (spec.declared line).
Proof.
  unfold spec.declared, strings.Fields.
  pose proof (Fields_go_bytes line 0 "" (Forall_nil_2 _)) as Hfields.
  destruct (strings.Fields_go 0 "" line) as [|keyword [|decl more]]; [constructor..|].
  destruct (String.eqb keyword "ARG"); [|constructor].
  constructor; [|constructor]. apply arg_name_bytes.
  apply Forall_cons in Hfields as [_ Hfields]. by apply Forall_cons in Hfields as [? _].
Qed.

(** X1. For a file that can be read and none of whose scanned lines is
    the keyword [ARG] alone, [buildArgs] returns, with no error and the
    file system as it was, the names its lines declare: for each line
    whose first white-space-delimited token is [ARG], in the order of
    the lines and with repetitions, the second token up to its first
    [=]. *)
Theorem buildArgs_declared_names (dockerfile data : string) (fs : FS) :
  os.ReadFile dockerfile fs = (fs, Ok data) ->
  existsb spec.bare_ARG (bufio.Scan_all data) = false ->
  buildArgs dockerfile fs = (fs, Ok (flat_map spec.declared (bufio.Scan_all data))).
Proof.
  intros Hread Hbare. rewrite (buildArgs_readable _ _ _ Hread). by rewrite Hbare.
Qed.

(** X2. [buildArgs] never looks at [scanner.Err()]: when a line of the
    file takes [bufio.MaxScanTokenSize] bytes or more, the scan stops
    before it without an error, and the call returns what the text
    before that line gives; the declarations on the long line and
    after it are left out. *)
Theorem buildArgs_stops_at_long_line (dockerfile before long rest : string) (fs : FS) :
  os.ReadFile dockerfile fs = (fs, Ok (before ++ long ++ rest)%string) ->
  before = "" \/ (exists b, before = (b ++ String bufio.LF "")%string) ->
  strings.Contains long (String bufio.LF "") = false ->
  (bufio.MaxScanTokenSize <= N.of_nat (String.length long))%N ->
  buildArgs dockerfile fs = (fs, scan_lines [] (bufio.Scan_all before)).
Proof.
  intros Hread Hbefore Hone Hlong. unfold buildArgs, bind. rewrite Hread.
  by rewrite Scan_all_long_line.
Qed.

(** X3. A name returned by [buildArgs] holds no [=] and no ASCII white
    space (tab, line feed, vertical tab, form feed, carriage return,
    space). *)
Theorem buildArgs_names_wellformed (dockerfile : string) (fs : FS) (names : list string) :
  snd (buildArgs dockerfile fs) = Ok names ->
  Forall (fun name => Forall (fun c => ascii_space c = false /\ c <> "="%char)
                             (list_ascii_of_string name)) names.
Proof.
  unfold buildArgs, bind. destruct (os.ReadFile dockerfile fs) as [fs0 [data|err|msg]];
    cbn [snd]; [|done..].
  rewrite scan_lines_spec. destruct (existsb _ _); [done|]. intros [= <-].
  cbn [app]. apply Forall_flat_map, Forall_forall. intros line _. apply declared_bytes.
Qed.

End scanner.

(** ** [copyFile]: where it writes, and what a failure leaves *)

Section copy_file_more.

(** A node can be put where a node is, and in a directory that is. *)
Lemma put_defined (p : path) : forall (t n m : node),
  walk t p = inr n -> exists t', put t p (Some m) = inr t'.
Proof.
  induction p as [|e p IH]; intros t n m Hw; [by eexists|].
  destruct t as [| perm es |]; try done. cbn in Hw |- *.
  destruct p as [|e2 p]; [by eexists|].
  destruct (es !! e) as [child|]; [|done].
  destruct (IH child n m Hw) as [t' ->]. by eexists.
Qed.

Lemma put_new (p : path) : forall (t m : node) (perm : Z) (es : gmap string node) (e : string),
  walk t p = inr (Dir perm es) -> exists t', put t (p ++ [e]) (Some m) = inr t'.
Proof.
  induction p as [|e0 p IH]; intros t m perm es e Hw.
  - cbn in Hw. injection Hw as ->. by eexists.
  - destruct t as [| perm0 es0 |]; try done. cbn in Hw.
    destruct (es0 !! e0) as [child|] eqn:Hc; [|done].
    destruct (IH child m perm es e Hw) as [t' Ht'].
    cbn [app put]. rewrite Hc, Ht'. destruct (p ++ [e]) eqn:Hp; [by destruct p|].
    by eexists.
Qed.

(** The name of a regular file still denotes the place after a regular
    file was put there. *)
Lemma stat_node_put (t t' : node) (q : path) (n m : node) (name : string) :
  put t q (Some n) = inr t' -> is_file n = true ->
  stat_node t name = inr (q, m) -> is_file m = true ->
  stat_node t' name = inr (q, n).
Proof.
  intros Hput Hn Hstat Hm. apply stat_node_inr in Hstat as (d0 & Hd0 & Hf & Hw).
  apply stat_node_inr. exists d0. split; [done|]. split.
  - rewrite (follow_put _ _ _ _ Hput Hn); [done|]. by eapply plain_at_file.
  - by apply (put_walk_some _ _ _ _ Hput).
Qed.

Lemma keeps_ret {A} (a : A) : keeps (@ret FS A a).
Proof. done. Qed.

Lemma keeps_fail {A} (err : error) : keeps (@fail FS A err).
Proof. done. Qed.

Lemma keeps_bind {A B} (m : M FS A) (k : A -> M FS B) :
  keeps m -> (forall a, keeps (k a)) -> keeps (bind m k).
Proof.
  intros Hm Hk fs. unfold bind. specialize (Hm fs).
  destruct (m fs) as [fs1 [a|err|msg]]; cbn [fst] in *; [|done..].
  destruct (Hk a fs1) as [-> ->]. done.
Qed.

Lemma keeps_for_each {A} (xs : list A) (body : A -> M FS unit) :
  (forall x, keeps (body x)) -> keeps (for_each xs body).
Proof.
  intros Hbody. induction xs as [|x xs IH]; cbn [for_each]; [apply keeps_ret|].
  apply keeps_bind; [apply Hbody|done].
Qed.

Lemma keeps_Stat (name : string) : keeps (os.Stat name).
Proof. keeps_call os.Stat. Qed.

Lemma keeps_Open (name : string) : keeps (os.Open name).
Proof. keeps_call os.Open. Qed.

Lemma keeps_Create (name : string) : keeps (os.Create name).
Proof. keeps_call os.Create. Qed.

Lemma keeps_io_Copy (dst src : os.file) : keeps (os.io_Copy dst src).
Proof. keeps_call os.io_Copy. Qed.

Lemma keeps_Chmod (name : string) (mode : Z) : keeps (os.Chmod name mode).
Proof. keeps_call os.Chmod. Qed.

Lemma keeps_Chtimes (name : string) (atime mtime : Z) : keeps (os.Chtimes name atime mtime).
Proof. keeps_call os.Chtimes. Qed.

Lemma keeps_ReadDir (name : string) : keeps (os.ReadDir name).
Proof. keeps_call os.ReadDir. Qed.

Lemma keeps_copyFile (src dst : string) : keeps (copyFile src dst).
Proof.
  unfold copyFile.
  repeat (apply keeps_bind; [|intros ?]);
    auto using keeps_Open, keeps_Create, keeps_io_Copy, keeps_Stat, keeps_Chmod,
               keeps_Chtimes, keeps_ret.
  apply keeps_ret.
Qed.

(** X4. [copyFile] onto the source file itself, under the same name or
    another name of the same file, returns no error and leaves the file
    empty: [os.Create] cuts the file before [io.Copy] reads it. *)
Theorem copyFile_onto_itself (src dst : string) (fs : FS) (p : path)
    (data : string) (perm atime mtime : Z) :
  stat_node (tree fs) src = inr (p, File data perm atime mtime) ->
  stat_node (tree fs) dst = inr (p, File data perm atime mtime) ->
  exists fs',
    copyFile src dst fs = (fs', Ok tt)
    /\ walk (tree fs') p = inr (File "" (Z.land perm permMask) (clock fs) (clock fs)).
Proof.
  intros Hsrc Hdst.
  pose proof Hdst as Hd. apply stat_node_inr in Hd as (d0 & Hd0 & Hfd & Hwp).
  destruct (put_defined p (tree fs) _ (File "" perm atime (clock fs)) Hwp) as [t1 Hput1].
  pose proof (put_walk_some _ _ _ _ Hput1) as Hw1.
  destruct (put_defined p t1 _ (File "" perm atime (clock fs)) Hw1) as [t2 Hput2].
  pose proof (put_walk_some _ _ _ _ Hput2) as Hw2.
  destruct (put_defined p t2 _ (File "" (Z.land (Z.land perm permMask) permMask)
                                  atime (clock fs)) Hw2) as [t3 Hput3].
  pose proof (put_walk_some _ _ _ _ Hput3) as Hw3.
  destruct (put_defined p t3 _ (File "" (Z.land (Z.land perm permMask) permMask)
                                  (clock fs) (clock fs)) Hw3) as [t4 Hput4].
  pose proof (stat_node_put _ _ _ _ _ src Hput1 eq_refl Hsrc eq_refl) as Hs1.
  pose proof (stat_node_put _ _ _ _ _ dst Hput1 eq_refl Hdst eq_refl) as Hd1.
  pose proof (stat_node_put _ _ _ _ _ src Hput2 eq_refl Hs1 eq_refl) as Hs2.
  pose proof (stat_node_put _ _ _ _ _ dst Hput2 eq_refl Hd1 eq_refl) as Hd2.
  pose proof (stat_node_put _ _ _ _ _ dst Hput3 eq_refl Hd2 eq_refl) as Hd3.
  exists (set_tree fs t4). split.
  - unfold copyFile, bind.
    unfold os.Open at 1. rewrite Hsrc.
    unfold os.Create at 1. rewrite Hd0, Hfd, Hwp, Hput1.
    unfold os.io_Copy at 1. cbn [tree set_tree clock]. rewrite Hw1.
    cbn [String.append]. rewrite Hput2.
    unfold os.Sync at 1, ret at 1.
    unfold os.Stat at 1. cbn [tree set_tree]. rewrite Hs2.
    unfold os.Chmod at 1. cbn [tree set_tree node_info Mode ModTime node_mode].
    rewrite Hd2, Hput3.
    unfold os.Chtimes at 1. cbn [tree set_tree]. rewrite Hd3, Hput4.
    reflexivity.
  - cbn [tree set_tree]. rewrite (put_walk_some _ _ _ _ Hput4).
    by rewrite land_permMask_twice.
Qed.

(** X5. A [copyFile] that returns no error has written at one place
    only, the one its destination name denoted: every path that is
    neither above nor below that place leads to what it led to, and the
    mask and the clock of the system are as they were. *)
Theorem copyFile_writes_only_destination (src dst : string) (fs fs' : FS) :
  copyFile src dst fs = (fs', Ok tt) ->
  exists d0 q,
    locate dst = inr d0
    /\ follow maxSymlinks (tree fs) d0 = inr q
    /\ (exists n, stat_node (tree fs') dst = inr (q, n) /\ is_file n = true)
    /\ umask fs' = umask fs /\ clock fs' = clock fs
    /\ forall x, unrelated q x -> walk (tree fs') x = walk (tree fs) x.
Proof.
  intros Hcopy.
  pose proof (keeps_copyFile src dst fs) as Hkeeps. rewrite Hcopy in Hkeeps.
  apply copyFile_puts in Hcopy
    as (d0 & q & n1 & n2 & n3 & n4 & t1 & t2 & t3 & t4 & Hd0 & Hf & Hplain
        & Hp1 & Hp2 & Hp3 & Hp4 & Hn1 & Hn2 & Hn3 & Hn4 & Htree).
  cbn [fst] in Hkeeps. destruct Hkeeps as [Hmask Hclock].
  assert (plain_at t1 q) as Hplain1
    by (eapply plain_at_file; [by apply (put_walk_some _ _ _ _ Hp1)|done]).
  assert (plain_at t2 q) as Hplain2
    by (eapply plain_at_file; [by apply (put_walk_some _ _ _ _ Hp2)|done]).
  assert (plain_at t3 q) as Hplain3
    by (eapply plain_at_file; [by apply (put_walk_some _ _ _ _ Hp3)|done]).
  exists d0, q. split; [done|]. split; [done|]. split; [|split; [done|split; [done|]]].
  - exists n4. split; [|done]. rewrite Htree. apply stat_node_inr. exists d0.
    split; [done|]. split; [|by apply (put_walk_some _ _ _ _ Hp4)].
    by rewrite (follow_put _ _ _ _ Hp4 Hn4 Hplain3), (follow_put _ _ _ _ Hp3 Hn3 Hplain2),
      (follow_put _ _ _ _ Hp2 Hn2 Hplain1), (follow_put _ _ _ _ Hp1 Hn1 Hplain).
  - intros x Hun. rewrite Htree.
    by rewrite (put_walk_frame _ _ _ _ _ Hp4 Hun), (put_walk_frame _ _ _ _ _ Hp3 Hun),
      (put_walk_frame _ _ _ _ _ Hp2 Hun), (put_walk_frame _ _ _ _ _ Hp1 Hun).
Qed.

(** X6. Two failures of [copyFile]. When the source cannot be opened,
    the error of [os.Open] is returned and nothing is written: the
    destination is not made, nor cut. When the source is a directory
    and the destination a new name in a directory that is, the call
    returns an error and leaves the destination behind as an empty
    regular file. *)
Theorem copyFile_failures (src dst : string) (fs : FS) :
  (forall errno,
     stat_node (tree fs) src = inl errno ->
     copyFile src dst fs = (fs, Err (PathError "open" src errno)))
  /\ (forall p perm es parent e pperm pes,
        stat_node (tree fs) src = inr (p, Dir perm es) ->
        locate dst = inr (parent ++ [e]) ->
        walk (tree fs) parent = inr (Dir pperm pes) ->
        pes !! e = None ->
        exists fs' err,
          copyFile src dst fs = (fs', Err err)
          /\ walk (tree fs') (parent ++ [e])
             = inr (File "" (Z.ldiff 438 (umask fs)) (clock fs) (clock fs))).
Proof.
  split.
  - intros errno Hsrc. unfold copyFile, bind, os.Open. by rewrite Hsrc.
  - intros p perm es parent e pperm pes Hsrc Hloc Hparent Hnew.
    assert (walk (tree fs) (parent ++ [e]) = inl ENOENT) as Habs
      by (by rewrite (walk_snoc_dir _ _ _ _ _ Hparent), Hnew).
    destruct (put_new parent (tree fs)
                (File "" (Z.ldiff 438 (umask fs)) (clock fs) (clock fs)) _ _ e Hparent)
      as [t1 Hput1].
    pose proof (put_walk_some _ _ _ _ Hput1) as Hw1.
    pose proof Hsrc as Hs. apply stat_node_inr in Hs as (s0 & Hs0 & Hfs & Hwp).
    (* the source is still a directory once the destination is made *)
    assert (exists perm1 es1, walk t1 p = inr (Dir perm1 es1)) as (perm1 & es1 & Hwp1).
    { destruct (related_cases (parent ++ [e]) p) as [Hun|[[r ->]|(r & Hr & Hrne)]].
      - rewrite (put_walk_frame _ _ _ _ _ Hput1 Hun). by eexists _, _.
      - by rewrite walk_app, Habs in Hwp.
      - destruct (put_walk_above _ _ _ _ p r Hput1 Hr Hrne) as (pm & es0 & es' & _ & Hafter).
        by eexists _, _. }
    exists (set_tree fs t1). eexists. split.
    + unfold copyFile, bind.
      unfold os.Open at 1. rewrite Hsrc.
      unfold os.Create at 1. rewrite Hloc.
      rewrite follow_no_link by (unfold link_target; by rewrite Habs).
      rewrite Habs, Hput1.
      unfold os.io_Copy at 1. cbn [tree set_tree]. rewrite Hwp1. reflexivity.
    + done.
Qed.

End copy_file_more.

(** ** [copyDir]: what is in the destination, and what stays as it was *)

Section transfer_more.

Lemma stat_at_absent (t : node) (p : path) (err : Errno) :
  walk t p = inl err -> stat_at t p = inl err.
Proof.
  intros Hw. unfold stat_at.
  rewrite follow_no_link by (unfold link_target; by rewrite Hw). by rewrite Hw.
Qed.

(** [ioutil.ReadDir] leaves out no entry that bears a name. *)
Lemma ReadDir_all (name : string) (fs fs' : FS) (infos : list FileInfo)
    (q : path) (perm : Z) (es : gmap string node) (e : string) (n : node) :
  os.ReadDir name fs = (fs', Ok infos) ->
  stat_node (tree fs) name = inr (q, Dir perm es) ->
  es !! e = Some n -> valid e ->
  node_info e n ∈ infos.
Proof.
  unfold os.ReadDir. intros Hrd Hstat He Hv. rewrite Hstat in Hrd.
  injection Hrd as _ <-. rewrite merge_sort_Permutation.
  apply list_elem_of_fmap. exists (e, n). split; [done|].
  apply list_elem_of_In, List.filter_In. split; [|done].
  by apply list_elem_of_In, elem_of_map_to_list.
Qed.

Lemma for_each_never {S A} (xs : list A) (body : A -> M S unit) (x : A) :
  x ∈ xs -> (forall s, snd (body x s) <> Ok tt) ->
  forall s, snd (for_each xs body s) <> Ok tt.
Proof.
  intros Hx Hbody. induction xs as [|y xs IH]; [by apply elem_of_nil in Hx|].
  intros s. cbn [for_each]. unfold bind.
  destruct (body y s) as [s1 [[]|err|msg]] eqn:Hy; [|done..].
  apply elem_of_cons in Hx as [->|Hx]; [|by apply IH].
  specialize (Hbody s). by rewrite Hy in Hbody.
Qed.

(** *** The mask and the clock *)

Lemma mkdirAll_rev_keeps (rp : list string) (perm : Z) : forall fs,
  umask (fst (mkdirAll_rev rp perm fs)) = umask fs
  /\ clock (fst (mkdirAll_rev rp perm fs)) = clock fs.
Proof.
  assert (forall p fs1 fs0,
            umask fs1 = umask fs0 /\ clock fs1 = clock fs0 ->
            umask (fst (match mkdir_at p perm fs1 with
                        | inr fs2 => (fs2, None)
                        | inl err => match walk (tree fs1) p with
                                     | inr (Dir _ _) => (fs1, None)
                                     | _ => (fs1, Some err)
                                     end
                        end)) = umask fs0
            /\ clock (fst (match mkdir_at p perm fs1 with
                           | inr fs2 => (fs2, None)
                           | inl err => match walk (tree fs1) p with
                                        | inr (Dir _ _) => (fs1, None)
                                        | _ => (fs1, Some err)
                                        end
                           end)) = clock fs0) as Hstep.
  { intros p fs1 fs0 [Hm Hc]. unfold mkdir_at.
    repeat case_match; simplify_eq; done. }
  induction rp as [|e rp IH]; intros fs; cbn [mkdirAll_rev];
    destruct (stat_at (tree fs) (rev _)) as [err|[q n]]; try (by destruct (is_dir n)).
  - by apply Hstep.
  - destruct (is_root rp); [by apply Hstep|].
    specialize (IH fs). destruct (mkdirAll_rev rp perm fs) as [fs1 [err1|]]; [done|].
    by apply Hstep.
Qed.

Lemma keeps_MkdirAll (name : string) (perm : Z) : keeps (os.MkdirAll name perm).
Proof.
  intros fs. unfold os.MkdirAll. destruct (locate name) as [|p]; [done|].
  pose proof (mkdirAll_rev_keeps (rev p) perm fs) as Hk.
  by destruct (mkdirAll_rev (rev p) perm fs) as [fs1 [err|]].
Qed.

Lemma keeps_copyDir (depth : nat) : forall src dst, keeps (copyDir depth src dst).
Proof.
  induction depth as [|depth IH]; intros src dst; [apply keeps_fail|].
  rewrite copyDir_unfold. apply keeps_bind; [apply keeps_Stat|]. intros si.
  destruct (negb (IsDir si)); [apply keeps_fail|]. intros fs.
  pose proof (keeps_Stat (filepath.Clean dst) fs) as Hd.
  destruct (os.Stat (filepath.Clean dst) fs) as [fs1 [a|err|msg]]; cbn [fst] in *; try done.
  destruct (negb (os_IsNotExist err)); [done|].
  destruct Hd as [<- <-].
  apply keeps_bind; [apply keeps_MkdirAll|]. intros _.
  apply keeps_bind; [apply keeps_ReadDir|]. intros infos.
  apply keeps_for_each. intros f. unfold copy_entry.
  destruct (IsDir f); [apply IH|]. destruct (negb _); [apply keeps_ret|apply keeps_copyFile].
Qed.

(** *** The directories above what is written *)

Lemma put_above_dir (p x r : path) (t t' : node) (v : option node)
    (perm : Z) (es : gmap string node) :
  put t p v = inr t' -> p = x ++ r -> r <> [] ->
  walk t x = inr (Dir perm es) ->
  exists es', walk t' x = inr (Dir perm es').
Proof.
  intros Hput Hp Hr Hx.
  destruct (put_walk_above _ _ _ _ _ _ Hput Hp Hr) as (perm0 & es0 & es' & Hb & Ha).
  rewrite Hx in Hb. injection Hb as <- <-. eauto.
Qed.

Lemma mkdirAll_rev_above (rp : list string) (perm : Z) :
  forall (fs fs' : FS) (o : option Errno) (x : path) (pm : Z) (es : gmap string node),
    mkdirAll_rev rp perm fs = (fs', o) ->
    x `prefix_of` rev rp ->
    walk (tree fs) x = inr (Dir pm es) ->
    exists es', walk (tree fs') x = inr (Dir pm es').
Proof.
  assert (forall p fs1 fs' o x pm es,
            match mkdir_at p perm fs1 with
            | inr fs2 => (fs2, None)
            | inl err => match walk (tree fs1) p with
                         | inr (Dir _ _) => (fs1, None)
                         | _ => (fs1, Some err)
                         end
            end = (fs', o) ->
            (exists r, p = x ++ r /\ r <> []) ->
            walk (tree fs1) x = inr (Dir pm es) ->
            exists es', walk (tree fs') x = inr (Dir pm es')) as Hstep.
  { intros p fs1 fs' o x pm es Hmk (r & Hp & Hr) Hx. unfold mkdir_at in Hmk.
    destruct (walk (tree fs1) p) as [[]|[]]; simplify_eq; eauto.
    destruct (put (tree fs1) (x ++ r) _) as [|t2] eqn:Hput; simplify_eq; eauto.
    cbn [tree set_tree]. by eapply put_above_dir. }
  induction rp as [|e rp IH]; intros fs fs' o x pm es Hmk Hpre Hx;
    cbn [mkdirAll_rev] in Hmk;
    destruct (stat_at (tree fs) (rev _)) as [err|[q n]] eqn:Hstat;
    try (destruct (is_dir n); simplify_eq; eauto).
  - (* the root has nothing above it *)
    apply prefix_nil_inv in Hpre. subst x. cbn [rev] in *.
    by rewrite (stat_at_no_link _ [] _ Hx) in Hstat.
  - cbn [rev] in *.
    assert (exists r, rev rp ++ [e] = x ++ r /\ r <> []) as Hbelow.
    { destruct Hpre as [r Hr]. exists r. split; [done|]. intros ->.
      rewrite app_nil_r in Hr. subst x.
      by rewrite (stat_at_no_link _ _ _ Hx) in Hstat. }
    destruct (is_root rp) eqn:Hroot; [by eapply Hstep|].
    destruct (mkdirAll_rev rp perm fs) as [fs1 [err1|]] eqn:Hparent.
    + injection Hmk as <- <-. eapply IH; [done| |done].
      destruct Hbelow as (r & Hr & Hne). destruct (snoc_split _ _ _ _ (eq_sym Hr) Hne) as [r' ->].
      by apply prefix_app_r.
    + destruct Hbelow as (r & Hr & Hne).
      destruct (snoc_split _ _ _ _ (eq_sym Hr) Hne) as [r' Hr'].
      destruct (IH fs fs1 None x pm es Hparent) as [es1 Hx1]; [|done|].
      { rewrite Hr'. by apply prefix_app_r. }
      eapply Hstep; [done| |done]. eauto.
Qed.

Lemma MkdirAll_above (name : string) (perm : Z) (fs fs' : FS) (r : res unit)
    (p x : path) (pm : Z) (es : gmap string node) :
  os.MkdirAll name perm fs = (fs', r) ->
  locate name = inr p ->
  x `prefix_of` p ->
  walk (tree fs) x = inr (Dir pm es) ->
  exists es', walk (tree fs') x = inr (Dir pm es').
Proof.
  unfold os.MkdirAll. intros Hmk Hloc Hpre Hx. rewrite Hloc in Hmk.
  destruct (mkdirAll_rev (rev p) perm fs) as [fs1 o] eqn:Hrev.
  assert (fs' = fs1) as -> by (destruct o; by injection Hmk).
  eapply mkdirAll_rev_above; [done| |done]. by rewrite rev_involutive.
Qed.

(** The directory [os.MkdirAll] makes has the permission bits asked
    for, less those of the mask. *)
Lemma MkdirAll_perm (name : string) (perm : Z) (fs fs' : FS) (p : path) :
  os.MkdirAll name perm fs = (fs', Ok tt) ->
  locate name = inr p ->
  walk (tree fs) p = inl ENOENT ->
  walk (tree fs') p = inr (Dir (Z.ldiff (Z.land perm permMask) (umask fs)) ∅).
Proof.
  unfold os.MkdirAll. intros Hmk Hloc Habs. rewrite Hloc in Hmk.
  destruct (mkdirAll_rev (rev p) perm fs) as [fs1 [err|]] eqn:Hrev; [done|].
  injection Hmk as <-.
  destruct (rev p) as [|e rp] eqn:Hp.
  { apply (f_equal (@rev string)) in Hp. rewrite rev_involutive in Hp. by subst p. }
  assert (p = rev rp ++ [e]) as ->.
  { apply (f_equal (@rev string)) in Hp. by rewrite rev_involutive in Hp. }
  cbn [mkdirAll_rev rev] in Hrev. rewrite (stat_at_absent _ _ _ Habs) in Hrev.
  assert (exists fs0, (if is_root rp then (fs, None) else mkdirAll_rev rp perm fs)
                      = (fs0, None)
                      /\ umask fs0 = umask fs
                      /\ walk (tree fs0) (rev rp ++ [e]) = inl ENOENT
                      /\ match mkdir_at (rev rp ++ [e]) perm fs0 with
                         | inr fs2 => (fs2, None)
                         | inl err => match walk (tree fs0) (rev rp ++ [e]) with
                                      | inr (Dir _ _) => (fs0, None)
                                      | _ => (fs0, Some err)
                                      end
                         end = (fs1, None)) as (fs0 & _ & Hmask & Habs0 & Hstep).
  { destruct (is_root rp); [by exists fs|].
    pose proof (mkdirAll_rev_keeps rp perm fs) as [Hm _].
    destruct (mkdirAll_rev rp perm fs) as [fs0 [err0|]] eqn:Hparent; [done|].
    exists fs0. split; [done|]. split; [done|]. split; [|done].
    destruct (mkdirAll_rev_spec _ _ _ _ Hparent) as [[-> _]|(_ & _ & Hframe & _)]; [done|].
    rewrite Hframe; [done|]. apply prefix_snoc_not. }
  unfold mkdir_at in Hstep. rewrite Habs0 in Hstep.
  destruct (put (tree fs0) (rev rp ++ [e]) _) as [|t2] eqn:Hput; [done|].
  injection Hstep as <-. cbn [tree set_tree].
  rewrite (put_walk_some _ _ _ _ Hput). by rewrite Hmask.
Qed.

Lemma copyFile_above (src dst : string) (fs fs' : FS) (d0 x r : path)
    (pm : Z) (es : gmap string node) :
  copyFile src dst fs = (fs', Ok tt) ->
  locate dst = inr d0 ->
  walk (tree fs) d0 = inl ENOENT ->
  d0 = x ++ r -> r <> [] ->
  walk (tree fs) x = inr (Dir pm es) ->
  exists es', walk (tree fs') x = inr (Dir pm es').
Proof.
  intros Hcopy Hloc Habs Hd Hr Hx.
  apply copyFile_puts in Hcopy
    as (d0' & q & n1 & n2 & n3 & n4 & t1 & t2 & t3 & t4 & Hd0 & Hf & _
        & Hp1 & Hp2 & Hp3 & Hp4 & _ & _ & _ & _ & ->).
  rewrite Hloc in Hd0. injection Hd0 as <-.
  rewrite follow_no_link in Hf by (unfold link_target; by rewrite Habs).
  injection Hf as <-.
  destruct (put_above_dir _ _ _ _ _ _ _ _ Hp1 Hd Hr Hx) as [es1 Hx1].
  destruct (put_above_dir _ _ _ _ _ _ _ _ Hp2 Hd Hr Hx1) as [es2 Hx2].
  destruct (put_above_dir _ _ _ _ _ _ _ _ Hp3 Hd Hr Hx2) as [es3 Hx3].
  by apply (put_above_dir _ _ _ _ _ _ _ _ Hp4 Hd Hr Hx3).
Qed.


(** A new file made by [copyFile] is at the path of its name. *)
Lemma copyFile_new (src dst : string) (fs fs' : FS) (d0 : path) :
  copyFile src dst fs = (fs', Ok tt) ->
  locate dst = inr d0 ->
  walk (tree fs) d0 = inl ENOENT ->
  exists n, is_file n = true /\ walk (tree fs') d0 = inr n
            /\ stat_node (tree fs') dst = inr (d0, n).
Proof.
  intros Hcopy Hloc Habs.
  apply copyFile_puts in Hcopy
    as (d0' & q & n1 & n2 & n3 & n4 & t1 & t2 & t3 & t4 & Hd0 & Hf & _
        & Hp1 & Hp2 & Hp3 & Hp4 & _ & _ & _ & Hn4 & ->).
  rewrite Hloc in Hd0. injection Hd0 as <-.
  rewrite follow_no_link in Hf by (unfold link_target; by rewrite Habs).
  injection Hf as <-.
  pose proof (put_walk_some _ _ _ _ Hp4) as Hw.
  exists n4. split; [done|]. split; [done|].
  apply stat_node_inr. exists d0. split; [done|]. split; [|done].
  apply follow_no_link. unfold link_target. rewrite Hw. by destruct n4.
Qed.

Lemma unrelated_below (d s r : path) : unrelated d s -> unrelated d (s ++ r).
Proof.
  intros [Hds Hsd]. split.
  - intros Hpre.
    destruct (prefix_weak_total d s (s ++ r) Hpre) as [?|?]; [by apply prefix_app_r|done..].
  - intros Hpre. apply Hsd. by eapply prefix_app_l.
Qed.

Lemma resolve_valid (name : string) : Forall valid (resolve [] name).
Proof. rewrite resolve_root. apply clean_root_valid; [apply Split_pieces|constructor]. Qed.

Lemma keeps_copy_entry (depth : nat) (src dst : string) (f : FileInfo) :
  keeps (copy_entry depth src dst f).
Proof.
  unfold copy_entry. destruct (IsDir f); [apply keeps_copyDir|].
  destruct (negb _); [apply keeps_ret|apply keeps_copyFile].
Qed.

(** *** A destination inside the source *)

Lemma copyDir_inside (depth : nat) : forall (src dst : string) (fs : FS) (s : path),
  resolve [] dst = resolve [] src ++ s -> s <> [] ->
  snd (copyDir depth src dst fs) <> Ok tt.
Proof.
  induction depth as [|depth IH]; intros src dst fs s Hin Hs Hok; [done|].
  destruct (copyDir (S depth) src dst fs) as [fs' r] eqn:Hcopy. cbn in Hok. subst r.
  apply copyDir_Ok in Hcopy as (si & fs1 & infos & Hstat & Hdir & Hdst & Hmk & Hrd & Hloop).
  pose proof Hmk as Hmk'.
  apply (MkdirAll_Ok _ _ _ _ (resolve [] dst)) in Hmk
    as (Habs & (perm' & Hnew) & Hframe & Habove); [|apply locate_Clean|done].
  destruct s as [|e s]; [done|].
  (* the source is a directory of the tree *)
  apply Stat_Ok in Hstat as (_ & q & n & Hq & ->).
  unfold stat_node in Hq. rewrite locate_Clean in Hq.
  destruct (Habove (resolve [] src) (e :: s) Hin) as [Hx|(pm & es & Hsrc)]; [done| |].
  { by rewrite (stat_at_absent _ _ _ Hx) in Hq. }
  destruct (MkdirAll_above _ _ _ _ _ _ (resolve [] src) pm es Hmk' (locate_Clean dst))
    as [es1 Hsrc1]; [rewrite Hin; by apply prefix_app_r|done|].
  (* its entry on the way to the destination is a directory by now *)
  assert (exists pe ee, walk (tree fs1) (resolve [] src ++ [e]) = inr (Dir pe ee))
    as (pe & ee & He).
  { rewrite Hin in Hnew. destruct s as [|e2 s]; [eauto|].
    apply (walk_above_dir _ (resolve [] src ++ [e]) (e2 :: s) (Dir perm' ∅)); [|done].
    by rewrite <- app_assoc. }
  rewrite (walk_snoc_dir _ _ _ _ _ Hsrc1) in He.
  destruct (es1 !! e) as [child|] eqn:Hchild; [|done]. injection He as ->.
  assert (valid e) as Hv.
  { pose proof (resolve_valid dst) as Hall. rewrite Hin in Hall.
    apply Forall_app in Hall as [_ Hall]. by apply Forall_cons in Hall as [? _]. }
  assert (node_info e (Dir pe ee) ∈ infos) as Hlisted.
  { eapply ReadDir_all; [exact Hrd| |exact Hchild|exact Hv].
    unfold stat_node. rewrite locate_Clean. by apply stat_at_no_link. }
  apply (for_each_never infos (copy_entry depth (filepath.Clean src) (filepath.Clean dst))
           _ Hlisted) with (s := fs1); [|by rewrite Hloop].
  intros fs0. unfold copy_entry. rewrite node_info_IsDir, node_info_Name. cbn [is_dir].
  apply (IH _ _ _ (s ++ [e])); [|by destruct s].
  rewrite !resolve_Join by done. rewrite Hin. by rewrite <- !app_assoc.
Qed.

(** A [copyDir] that returns no error had its source and its
    destination apart. *)
Lemma copyDir_apart (depth : nat) (src dst : string) (fs fs' : FS) :
  copyDir depth src dst fs = (fs', Ok tt) ->
  unrelated (resolve [] dst) (resolve [] src).
Proof.
  intros Hcopy. pose proof Hcopy as Hwhole.
  destruct depth as [|depth]; [done|].
  apply copyDir_Ok in Hcopy as (si & fs1 & infos & Hstat & Hdir & Hdst & Hmk & Hrd & Hloop).
  apply (MkdirAll_Ok _ _ _ _ (resolve [] dst)) in Hmk
    as (Habs & _ & _ & _); [|apply locate_Clean|done].
  apply Stat_Ok in Hstat as (_ & q & n & Hq & ->).
  unfold stat_node in Hq. rewrite locate_Clean in Hq.
  split.
  - intros [r Hr].
    rewrite (stat_at_absent _ _ ENOENT) in Hq; [done|]. by rewrite Hr, walk_app, Habs.
  - intros [r Hr]. destruct r as [|e r].
    + rewrite app_nil_r in Hr. rewrite Hr in Hdst. by destruct (Hdst q n).
    + apply (copyDir_inside (S depth) src dst fs (e :: r) Hr); [done|by rewrite Hwhole].
Qed.

(** *** The loop over the entries, in general *)

Lemma copy_entries_inv (depth : nat) (src dst : string) (P : FS -> Prop)
    (todo : list FileInfo) :
  forall fs fs',
    for_each todo (copy_entry depth (filepath.Clean src) (filepath.Clean dst)) fs
      = (fs', Ok tt) ->
    NoDup (map Name todo) ->
    (forall f, f ∈ todo -> valid (Name f)) ->
    (forall f, f ∈ todo -> walk (tree fs) (resolve [] dst ++ [Name f]) = inl ENOENT) ->
    (forall f fs0 fs1,
       f ∈ todo -> walk (tree fs0) (resolve [] dst ++ [Name f]) = inl ENOENT ->
       P fs0 ->
       copy_entry depth (filepath.Clean src) (filepath.Clean dst) f fs0 = (fs1, Ok tt) ->
       P fs1) ->
    P fs -> P fs'.
Proof.
  induction todo as [|f rest IH]; intros fs fs' Hloop Hnd Hv Habs Hstep HP.
  - by injection Hloop as <-.
  - cbn [for_each] in Hloop. apply bind_Ok in Hloop as (fs1 & [] & Hone & Hloop).
    cbn in Hnd. apply NoDup_cons in Hnd as [Hf Hnd].
    pose proof (copy_entry_frame depth (copyDir_frame depth) _ _ _ _ _ Hone
                  (Hv f (list_elem_of_here _ _)) (Habs f (list_elem_of_here _ _))) as Hframe.
    apply (IH fs1 fs' Hloop Hnd).
    + intros f' Hf'. by apply Hv, list_elem_of_further.
    + intros f' Hf'. rewrite Hframe; [by apply Habs, list_elem_of_further|].
      replace (resolve [] dst ++ [Name f']) with (resolve [] dst ++ Name f' :: []) by done.
      apply unrelated_siblings. intros Heq. apply Hf. rewrite Heq.
      by apply list_elem_of_fmap_2.
    + intros f' fs0 fs2 Hf'. by apply Hstep, list_elem_of_further.
    + apply (Hstep f fs fs1); [apply list_elem_of_here|apply Habs, list_elem_of_here|done..].
Qed.

(** The directories above the destination stay directories, with the
    permission bits they had. *)
Lemma copyDir_above (depth : nat) :
  forall (src dst : string) (fs fs' : FS) (x : path) (pm : Z) (es : gmap string node),
    copyDir depth src dst fs = (fs', Ok tt) ->
    x `prefix_of` resolve [] dst ->
    walk (tree fs) x = inr (Dir pm es) ->
    exists es', walk (tree fs') x = inr (Dir pm es').
Proof.
  induction depth as [|depth IH]; intros src dst fs fs' x pm es Hcopy Hpre Hx; [done|].
  apply copyDir_Ok in Hcopy as (si & fs1 & infos & _ & _ & Hdst & Hmk & Hrd & Hloop).
  destruct (MkdirAll_above _ _ _ _ _ _ x pm es Hmk (locate_Clean dst) Hpre Hx) as [es1 Hx1].
  apply (MkdirAll_Ok _ _ _ _ (resolve [] dst)) in Hmk
    as (Habs & (perm' & Hnew) & Hframe & _); [|apply locate_Clean|done].
  apply ReadDir_Ok in Hrd as (_ & q & perm & es0 & _ & Hnd & Hinfos).
  apply (copy_entries_inv depth src dst
           (fun fs0 => exists es', walk (tree fs0) x = inr (Dir pm es'))
           infos fs1 fs' Hloop Hnd); [| | |eauto].
  - intros f Hf. by apply Hinfos.
  - intros f Hf. by rewrite (walk_snoc_dir _ _ _ _ _ Hnew).
  - intros f fs0 fs2 Hf Habs0 [es2 Hx2] Hone. unfold copy_entry in Hone.
    destruct (Hinfos f Hf) as [Hv _]. destruct Hpre as [r Hr].
    destruct (IsDir f).
    + eapply IH; [exact Hone| |exact Hx2]. rewrite resolve_Join by done.
      apply prefix_app_r. by exists r.
    + destruct (negb _); [injection Hone as <-; eauto|].
      eapply (copyFile_above _ _ _ _ _ x (r ++ [Name f])); [exact Hone| |exact Habs0| | |exact Hx2].
      * by rewrite locate_Join, resolve_Clean by (done || apply Clean_nonempty).
      * by rewrite Hr, <- app_assoc.
      * by destruct r.
Qed.

(** X7. [copyDir] into a destination that lies inside its source never
    returns without an error, whatever the depth it is allowed: the
    directory it has just made is among the entries it goes on to copy,
    into itself again. *)
Theorem copyDir_into_itself_fails (depth : nat) (src dst : string) (fs : FS) (s : path) :
  resolve [] dst = resolve [] src ++ s -> s <> [] ->
  snd (copyDir depth src dst fs) <> Ok tt.
Proof. apply copyDir_inside. Qed.

(** X8. A [copyDir] that returns no error has written at its
    destination and below it only: the mask and the clock are as they
    were; every path that is neither above nor below the destination
    leads to what it led to, and so does every path at or below the
    source; and a directory above the destination is a directory still,
    with the permission bits it had. *)
Theorem copyDir_writes_only_destination (depth : nat) (src dst : string) (fs fs' : FS) :
  copyDir depth src dst fs = (fs', Ok tt) ->
  umask fs' = umask fs /\ clock fs' = clock fs
  /\ (forall x, unrelated (resolve [] dst) x -> walk (tree fs') x = walk (tree fs) x)
  /\ (forall rel, walk (tree fs') (resolve [] src ++ rel) = walk (tree fs) (resolve [] src ++ rel))
  /\ (forall x pm es,
        x `prefix_of` resolve [] dst -> walk (tree fs) x = inr (Dir pm es) ->
        exists es', walk (tree fs') x = inr (Dir pm es')).
Proof.
  intros Hcopy.
  pose proof (keeps_copyDir depth src dst fs) as Hkeeps. rewrite Hcopy in Hkeeps.
  destruct Hkeeps as [Hmask Hclock].
  split; [done|]. split; [done|]. split; [|split].
  - by apply (copyDir_frame depth src dst).
  - intros rel. apply (copyDir_frame depth src dst _ _ Hcopy).
    apply unrelated_below. by eapply copyDir_apart.
  - intros x pm es. by apply (copyDir_above depth src dst).
Qed.


(** *** The tree of the destination *)

Lemma stat_at_walk (t : node) (p q : path) (n : node) :
  stat_at t p = inr (q, n) -> exists m, walk t p = inr m.
Proof.
  intros Hstat. destruct (walk t p) as [err|m] eqn:Hw; [|eauto].
  by rewrite (stat_at_absent _ _ _ Hw) in Hstat.
Qed.

Lemma copyDir_source (depth : nat) (src dst : string) (fs fs' : FS) :
  copyDir depth src dst fs = (fs', Ok tt) ->
  exists m, walk (tree fs) (resolve [] src) = inr m.
Proof.
  destruct depth as [|depth]; [done|]. intros Hcopy.
  apply copyDir_Ok in Hcopy as (si & fs1 & infos & Hstat & _).
  apply Stat_Ok in Hstat as (_ & q & n & Hq & _).
  unfold stat_node in Hq. rewrite locate_Clean in Hq. by eapply stat_at_walk.
Qed.

Lemma copyFile_source (src dst : string) (fs fs' : FS) (s0 : path) :
  copyFile src dst fs = (fs', Ok tt) ->
  locate src = inr s0 ->
  exists m, walk (tree fs) s0 = inr m.
Proof.
  unfold copyFile. intros Hcopy Hloc.
  apply bind_Ok in Hcopy as (fs0 & p & Hopen & _).
  apply Open_Ok in Hopen as (_ & n & Hn).
  unfold stat_node in Hn. rewrite Hloc in Hn. by eapply stat_at_walk.
Qed.

Lemma dir_mode_perm (name : string) (perm : Z) (es : gmap string node) :
  Z.land (Mode (node_info name (Dir perm es))) permMask = Z.land perm permMask.
Proof.
  cbn [node_info Mode node_mode].
  rewrite Z.land_lor_distr_l, land_permMask_twice.
  replace (Z.land ModeDir permMask) with 0%Z by reflexivity. apply Z.lor_0_l.
Qed.

(** The loop over the entries, seen from one entry [e]: what its round
    brings about at a path below [e] in the destination is there when
    the loop ends. The file system [fsb] is the one the loop starts
    from, or an earlier one that differs from it at the destination
    only. *)
Lemma copy_entries_reach (depth : nat) (src dst : string) (R : Errno + node -> Prop)
    (e : string) (rel : path) (fsb : FS) (todo : list FileInfo) :
  forall fs fs',
    for_each todo (copy_entry depth (filepath.Clean src) (filepath.Clean dst)) fs
      = (fs', Ok tt) ->
    NoDup (map Name todo) ->
    (forall f, f ∈ todo -> valid (Name f)) ->
    (forall f, f ∈ todo -> walk (tree fs) (resolve [] dst ++ [Name f]) = inl ENOENT) ->
    (forall y, unrelated (resolve [] dst) y -> walk (tree fs) y = walk (tree fsb) y) ->
    umask fs = umask fsb ->
    (forall f fs0 fs1,
       f ∈ todo -> Name f = e ->
       (forall y, unrelated (resolve [] dst) y -> walk (tree fs0) y = walk (tree fsb) y) ->
       umask fs0 = umask fsb ->
       walk (tree fs0) (resolve [] dst ++ [e]) = inl ENOENT ->
       copy_entry depth (filepath.Clean src) (filepath.Clean dst) f fs0 = (fs1, Ok tt) ->
       R (walk (tree fs1) (resolve [] dst ++ e :: rel))) ->
    (exists f, f ∈ todo /\ Name f = e) ->
    R (walk (tree fs') (resolve [] dst ++ e :: rel)).
Proof.
  induction todo as [|f rest IH];
    intros fs fs' Hloop Hnd Hv Habs Hsame Hmask Hstep (f0 & Hf0 & He).
  - by apply elem_of_nil in Hf0.
  - cbn [for_each] in Hloop. apply bind_Ok in Hloop as (fs1 & [] & Hone & Hloop).
    cbn in Hnd. apply NoDup_cons in Hnd as [Hf Hnd].
    pose proof (copy_entry_frame depth (copyDir_frame depth) _ _ _ _ _ Hone
                  (Hv f (list_elem_of_here _ _)) (Habs f (list_elem_of_here _ _))) as Hframe.
    assert (forall f', f' ∈ rest ->
              walk (tree fs1) (resolve [] dst ++ [Name f']) = inl ENOENT) as Habs1.
    { intros f' Hf'. rewrite Hframe; [by apply Habs, list_elem_of_further|].
      replace (resolve [] dst ++ [Name f']) with (resolve [] dst ++ Name f' :: []) by done.
      apply unrelated_siblings. intros Heq. apply Hf. rewrite Heq.
      by apply list_elem_of_fmap_2. }
    assert (forall f', f' ∈ rest -> valid (Name f')) as Hv1
      by (intros f' Hf'; by apply Hv, list_elem_of_further).
    destruct (decide (Name f = e)) as [Heq|Hne].
    + (* the round of the entry, and the rounds after it *)
      assert (R (walk (tree fs1) (resolve [] dst ++ e :: rel))) as HR.
      { apply (Hstep f fs fs1); try done; [apply list_elem_of_here|].
        rewrite <- Heq. apply Habs, list_elem_of_here. }
      rewrite (copy_entries_frame depth (copyDir_frame depth) _ _ _ _ _ Hloop Hnd); try done.
      intros f' Hf'. apply unrelated_siblings. intros Heq'. apply Hf.
      rewrite Heq, <- Heq'. by apply list_elem_of_fmap_2.
    + apply (IH fs1 fs' Hloop Hnd); try done.
      * intros y Hy. rewrite Hframe; [by apply Hsame|]. by apply unrelated_snoc.
      * pose proof (keeps_copy_entry depth (filepath.Clean src) (filepath.Clean dst) f fs)
          as [Hm _]. rewrite Hone in Hm. cbn in Hm. congruence.
      * intros f' fs0 fs2 Hf'. by apply Hstep, list_elem_of_further.
      * exists f0. split; [|done]. apply elem_of_cons in Hf0 as [->|?]; done.
Qed.

(** What a [copyDir] that returns no error has made of each regular
    file and each directory of the source tree. *)
Lemma copyDir_tree (depth : nat) :
  forall (src dst : string) (fs fs' : FS) (rel : path) (n : node),
    copyDir depth src dst fs = (fs', Ok tt) ->
    Forall valid rel ->
    walk (tree fs) (resolve [] src ++ rel) = inr n ->
    copy_of (umask fs) n (walk (tree fs') (resolve [] dst ++ rel)).
Proof.
  induction depth as [|depth IH]; intros src dst fs fs' rel n Hcopy Hrel Hn; [done|].
  pose proof (unrelated_below _ _ rel (copyDir_apart _ _ _ _ _ Hcopy)) as Hun.
  apply copyDir_Ok in Hcopy as (si & fs1 & infos & Hstat & Hdir & Hdst & Hmk & Hrd & Hloop).
  pose proof (keeps_MkdirAll (filepath.Clean dst) (Mode si) fs) as [Hmask _].
  rewrite Hmk in Hmask. cbn [fst] in Hmask.
  pose proof Hmk as Hmk'.
  apply (MkdirAll_Ok _ _ _ _ (resolve [] dst)) in Hmk
    as (Habs & (perm' & Hnew) & Hframe & Habove); [|apply locate_Clean|done].
  apply Stat_Ok in Hstat as (_ & q & n0 & Hq & ->).
  unfold stat_node in Hq. rewrite locate_Clean in Hq.
  apply ReadDir_Ok in Hrd as Hread. destruct Hread as (_ & q1 & perm1 & es1 & Hstat1 & Hnd & Hinfos).
  assert (forall f, f ∈ infos ->
            walk (tree fs1) (resolve [] dst ++ [Name f]) = inl ENOENT) as Hfresh
    by (intros f Hf; by rewrite (walk_snoc_dir _ _ _ _ _ Hnew)).
  destruct rel as [|e rel].
  - (* the source itself *)
    rewrite app_nil_r in *.
    destruct n as [data perm atime mtime|perm es|target]; cbn [copy_of]; [| |done].
    { rewrite (stat_at_no_link _ _ _ Hn) in Hq by done. injection Hq as <- <-.
      by rewrite node_info_IsDir in Hdir. }
    rewrite (stat_at_no_link _ _ _ Hn) in Hq by done. injection Hq as <- <-.
    pose proof (MkdirAll_perm _ _ _ _ _ Hmk' (locate_Clean dst) Habs) as Hmade.
    rewrite dir_mode_perm in Hmade.
    apply (copy_entries_inv depth src dst
             (fun fs0 => exists es',
                walk (tree fs0) (resolve [] dst)
                = inr (Dir (Z.ldiff (Z.land perm permMask) (umask fs)) es'))
             infos fs1 fs' Hloop Hnd); [by intros f Hf; apply Hinfos|done| |eauto].
    intros f fs0 fs2 Hf Habs0 [es2 Hx2] Hone. unfold copy_entry in Hone.
    destruct (Hinfos f Hf) as [Hv _].
    destruct (IsDir f).
    + eapply copyDir_above; [exact Hone| |exact Hx2]. rewrite resolve_Join by done.
      by apply prefix_app_r.
    + destruct (negb _); [injection Hone as <-; eauto|].
      eapply (copyFile_above _ _ _ _ _ (resolve [] dst) [Name f]);
        [exact Hone| |exact Habs0|done|done|exact Hx2].
      by rewrite locate_Join, resolve_Clean by (done || apply Clean_nonempty).
  - (* an entry of the source, or what is below one *)
    apply Forall_cons in Hrel as [He Hrel].
    assert (walk (tree fs1) (resolve [] src ++ e :: rel) = inr n) as Hn1
      by (rewrite Hframe; [done|by destruct Hun]).
    destruct (walk_above_dir _ _ _ _ Hn1) as (sperm & ses & Hsrc); [done|].
    unfold stat_node in Hstat1. rewrite locate_Clean in Hstat1.
    rewrite (stat_at_no_link _ _ _ Hsrc) in Hstat1 by done.
    injection Hstat1 as <- <- <-.
    pose proof Hn1 as Hchild. rewrite walk_app, Hsrc in Hchild. cbn [walk] in Hchild.
    destruct (ses !! e) as [child|] eqn:Hse; [|done].
    assert (node_info e child ∈ infos) as Hlisted.
    { eapply ReadDir_all; [exact Hrd| |exact Hse|exact He].
      unfold stat_node. rewrite locate_Clean. by apply stat_at_no_link. }
    rewrite <- Hmask.
    apply (copy_entries_reach depth src dst (copy_of (umask fs1) n) e rel fs1
             infos fs1 fs' Hloop Hnd); try done.
    + by intros f Hf; apply Hinfos.
    + intros f fs0 fs2 Hf Hname Hsame Hmask0 Habs0 Hone.
      destruct (Hinfos f Hf) as (Hv & c & Hc & Hfeq). rewrite Hname in Hc, Hv.
      rewrite Hse in Hc. injection Hc as <-.
      pose proof (node_info_IsDir (Name f) child) as HisDir. rewrite <- Hfeq in HisDir.
      pose proof (node_info_link (Name f) child) as Hislink. rewrite <- Hfeq in Hislink.
      unfold copy_entry in Hone. rewrite HisDir, Hislink, Hname in Hone.
      assert (walk (tree fs0) (resolve [] src ++ e :: rel) = inr n) as Hn0
        by (by rewrite Hsame).
      destruct rel as [|e2 rel].
      * (* the entry itself *)
        cbn [walk] in Hchild. injection Hchild as ->.
        destruct n as [data perm atime mtime|perm es|target]; cbn [is_dir is_link negb] in Hone;
          cbn [copy_of]; [| |done].
        -- assert (stat_node (tree fs0) (filepath.Join [filepath.Clean src; e])
                   = inr (resolve [] src ++ [e], File data perm atime mtime)) as Hsf.
           { apply stat_node_inr. exists (resolve [] src ++ [e]).
             rewrite locate_Join, resolve_Clean by (done || apply Clean_nonempty).
             split; [done|]. split; [|done].
             apply follow_no_link. unfold link_target. by rewrite Hn0. }
           destruct (copyFile_result _ _ _ _ _ _ _ _ _ Hsf Hone) as (q2 & n2 & Hq2 & Hres).
           destruct (copyFile_new _ _ _ _ (resolve [] dst ++ [e]) Hone)
             as (nf & _ & Hwf & Hsn); [|done|].
           { by rewrite locate_Join, resolve_Clean by (done || apply Clean_nonempty). }
           rewrite Hsn in Hq2. injection Hq2 as <- <-.
           destruct Hres as [-> _]; [|done].
           intros Heq. apply app_inj_tail in Heq as [Heq _].
           destruct Hun as [Hun _]. apply Hun. rewrite Heq. by apply prefix_app_r.
        -- pose proof (IH _ _ _ _ [] (Dir perm es) Hone (Forall_nil_2 _)) as Hsub.
           rewrite !resolve_Join, !app_nil_r in Hsub by done.
           rewrite <- Hmask0. by apply Hsub.
      * (* below the entry, which is a directory *)
        assert (is_dir child = true) as Hcd by (by destruct child).
        rewrite Hcd in Hone.
        pose proof (IH _ _ _ _ (e2 :: rel) n Hone Hrel) as Hsub.
        rewrite !resolve_Join, <- !app_assoc in Hsub by done.
        rewrite <- Hmask0. by apply Hsub.
    + exists (node_info e child). split; [done|apply node_info_Name].
Qed.

(** Whatever is in the destination after a [copyDir] that returns no
    error is there for a regular file or a directory of the source. *)
Lemma copyDir_only_copies (depth : nat) :
  forall (src dst : string) (fs fs' : FS) (rel : path) (n' : node),
    copyDir depth src dst fs = (fs', Ok tt) ->
    rel <> [] ->
    walk (tree fs') (resolve [] dst ++ rel) = inr n' ->
    Forall valid rel
    /\ exists n, walk (tree fs) (resolve [] src ++ rel) = inr n /\ is_link n = false.
Proof.
  induction depth as [|depth IH]; intros src dst fs fs' rel n' Hcopy Hrel Hn'; [done|].
  pose proof (copyDir_apart _ _ _ _ _ Hcopy) as Hun.
  apply copyDir_Ok in Hcopy as (si & fs1 & infos & Hstat & Hdir & Hdst & Hmk & Hrd & Hloop).
  apply (MkdirAll_Ok _ _ _ _ (resolve [] dst)) in Hmk
    as (Habs & (perm' & Hnew) & Hframe & Habove); [|apply locate_Clean|done].
  apply ReadDir_Ok in Hrd as Hread. destruct Hread as (_ & q1 & perm1 & es1 & Hstat1 & Hnd & Hinfos).
  unfold stat_node in Hstat1. rewrite locate_Clean in Hstat1.
  assert (forall f, f ∈ infos ->
            walk (tree fs1) (resolve [] dst ++ [Name f]) = inl ENOENT) as Hfresh
    by (intros f Hf; by rewrite (walk_snoc_dir _ _ _ _ _ Hnew)).
  destruct rel as [|e rel]; [done|].
  assert (forall r, walk (tree fs1) (resolve [] src ++ r) = walk (tree fs) (resolve [] src ++ r))
    as Hsrc1.
  { intros r. apply Hframe. by destruct (unrelated_below _ _ r Hun). }
  destruct (decide (e ∈ map Name infos)) as [Hin|Hnot].
  2: { (* no entry of that name was read: nothing is made under it *)
    rewrite (copy_entries_frame depth (copyDir_frame depth) _ _ _ _ _ Hloop Hnd) in Hn';
      try done.
    - by rewrite walk_app, Hnew in Hn'.
    - by intros f Hf; apply Hinfos.
    - intros f Hf. apply unrelated_siblings. intros Heq. apply Hnot. rewrite <- Heq.
      by apply list_elem_of_fmap_2. }
  apply list_elem_of_fmap in Hin as (f & He & Hf).
  cut (Forall valid (e :: rel)
       /\ exists n, walk (tree fs1) (resolve [] src ++ e :: rel) = inr n /\ is_link n = false).
  { intros (Hv & n & Hn & Hl). split; [done|]. exists n. by rewrite <- Hsrc1. }
  revert Hn'.
  apply (copy_entries_reach depth src dst
           (fun r => r = inr n' ->
              Forall valid (e :: rel)
              /\ exists n, walk (tree fs1) (resolve [] src ++ e :: rel) = inr n
                           /\ is_link n = false)
           e rel fs1 infos fs1 fs' Hloop Hnd); try done.
  - by intros f' Hf'; apply Hinfos.
  - intros f0 fs0 fs2 Hf0 Hname Hsame Hmask0 Habs0 Hone Hr.
    destruct (Hinfos f0 Hf0) as (Hv & c & Hc & Hfeq). rewrite Hname in Hc, Hv.
    pose proof (node_info_IsDir (Name f0) c) as HisDir. rewrite <- Hfeq in HisDir.
    pose proof (node_info_link (Name f0) c) as Hislink. rewrite <- Hfeq in Hislink.
    unfold copy_entry in Hone. rewrite HisDir, Hislink, Hname in Hone.
    (* the entry read is the node at its path, when the round reaches it *)
    assert (forall m, walk (tree fs0) (resolve [] src ++ [e]) = inr m ->
                      walk (tree fs1) (resolve [] src ++ [e]) = inr c) as Hentry.
    { intros m Hm. rewrite Hsame in Hm by (by apply unrelated_below).
      destruct (walk_above_dir _ _ _ _ Hm) as (sperm & ses & Hs); [done|].
      rewrite (stat_at_no_link _ _ _ Hs) in Hstat1 by done.
      injection Hstat1 as <- <- <-.
      by rewrite (walk_snoc_dir _ _ _ _ _ Hs), Hc. }
    destruct c as [data perm atime mtime|perm es|target]; cbn [is_dir is_link negb] in Hone.
    + (* a regular file *)
      destruct (copyFile_new _ _ _ _ (resolve [] dst ++ [e]) Hone)
        as (nf & Hnf & Hwf & _); [|done|].
      { by rewrite locate_Join, resolve_Clean by (done || apply Clean_nonempty). }
      destruct rel as [|e2 rel].
      * destruct (copyFile_source _ _ _ _ (resolve [] src ++ [e]) Hone) as [m Hm].
        { by rewrite locate_Join, resolve_Clean by (done || apply Clean_nonempty). }
        split; [by constructor|]. eexists. split; [by eapply Hentry|done].
      * replace (resolve [] dst ++ e :: e2 :: rel)
          with ((resolve [] dst ++ [e]) ++ e2 :: rel) in Hr by (by rewrite <- app_assoc).
        rewrite walk_app, Hwf in Hr. by destruct nf.
    + (* a directory *)
      destruct (copyDir_source _ _ _ _ _ Hone) as [m Hm].
      rewrite resolve_Join in Hm by done.
      destruct rel as [|e2 rel].
      * split; [by constructor|]. eexists. split; [by eapply Hentry|done].
      * replace (resolve [] dst ++ e :: e2 :: rel)
          with ((resolve [] dst ++ [e]) ++ e2 :: rel) in Hr by (by rewrite <- app_assoc).
        destruct (IH _ _ _ _ (e2 :: rel) n' Hone) as (Hvr & n & Hn & Hl); [done| |].
        { by rewrite resolve_Join. }
        split; [by constructor|]. exists n. split; [|done].
        rewrite resolve_Join, <- app_assoc in Hn by done. cbn [app] in Hn.
        rewrite <- Hn. symmetry. apply Hsame. by apply unrelated_below.
    + (* a link: passed over *)
      injection Hone as <-.
      replace (resolve [] dst ++ e :: rel)
        with ((resolve [] dst ++ [e]) ++ rel) in Hr by (by rewrite <- app_assoc).
      by rewrite (walk_below_absent _ _ _ Habs0) in Hr.
  - by exists f.
Qed.

(** X9. After a [copyDir] that returns no error, each regular file of
    the source tree, at any depth, has a copy at the same place of the
    destination tree: a regular file of the same content and the same
    permission bits, whose access and modification times are both the
    modification time of the source file. *)
Theorem copyDir_copies_files (depth : nat) (src dst : string) (fs fs' : FS)
    (rel : path) (data : string) (perm atime mtime : Z) :
  copyDir depth src dst fs = (fs', Ok tt) ->
  Forall valid rel ->
  walk (tree fs) (resolve [] src ++ rel) = inr (File data perm atime mtime) ->
  walk (tree fs') (resolve [] dst ++ rel)
  = inr (File data (Z.land perm permMask) mtime mtime).
Proof. intros Hcopy Hrel Hfile. apply (copyDir_tree _ _ _ _ _ _ _ Hcopy Hrel Hfile). Qed.

(** X10. After a [copyDir] that returns no error, the destination is a
    directory, and so is the place of each directory of the source
    tree, empty ones too; the permission bits of each are those of the
    source directory less the bits of the process's mask: unlike those
    of the files, they are not set again once the directory is
    made. *)
Theorem copyDir_makes_directories (depth : nat) (src dst : string) (fs fs' : FS)
    (rel : path) (perm : Z) (es : gmap string node) :
  copyDir depth src dst fs = (fs', Ok tt) ->
  Forall valid rel ->
  walk (tree fs) (resolve [] src ++ rel) = inr (Dir perm es) ->
  exists es',
    walk (tree fs') (resolve [] dst ++ rel)
    = inr (Dir (Z.ldiff (Z.land perm permMask) (umask fs)) es').
Proof. intros Hcopy Hrel Hd. apply (copyDir_tree _ _ _ _ _ _ _ Hcopy Hrel Hd). Qed.

(** X11. After a [copyDir] that returns no error, the destination tree
    holds nothing but copies: whatever is at a path below the
    destination is the copy of a regular file or of a directory at the
    same path below the source, never of a symbolic link. *)
Theorem copyDir_destination_exact (depth : nat) (src dst : string) (fs fs' : FS)
    (rel : path) (n' : node) :
  copyDir depth src dst fs = (fs', Ok tt) ->
  rel <> [] ->
  walk (tree fs') (resolve [] dst ++ rel) = inr n' ->
  exists n,
    walk (tree fs) (resolve [] src ++ rel) = inr n
    /\ is_link n = false
    /\ copy_of (umask fs) n (inr n').
Proof.
  intros Hcopy Hrel Hn'.
  destruct (copyDir_only_copies _ _ _ _ _ _ _ Hcopy Hrel Hn') as (Hv & n & Hn & Hl).
  exists n. split; [done|]. split; [done|].
  rewrite <- Hn'. by apply (copyDir_tree depth src dst).
Qed.

End transfer_more.

(** ** [Build]: the plan, the rounds and their calls *)

Section build_more.
Context `{Platform}.
Variables (dir appName : string) (opts : BuildOptions).

(** *** The plan *)

Lemma plan_services_spec (services : list Service) :
  forall (pulls0 : gmap string (list string)) (builds0 : list Service),
  exists pulls,
    plan_services appName (pulls0, builds0) services
      = Ok (pulls, builds0 ++ filter (fun s => svc_Image s = ""%string) services)
    /\ forall image,
         pulls !! image =
           match filter (fun s => svc_Image s <> ""%string
                                  /\ spec.normalized (svc_Image s) = image) services with
           | [] => pulls0 !! image
           | pulled => Some (default [] (pulls0 !! image)
                             ++ map (fun s => Tag s appName) pulled)
           end.
Proof.
  induction services as [|service rest IH]; intros pulls0 builds0.
  - exists pulls0. by rewrite app_nil_r.
  - cbn [plan_services plan_service].
    destruct (String.eqb_spec (svc_Image service) "") as [Hempty|Himage]; cbn [negb].
    + destruct (IH pulls0 (builds0 ++ [service])) as (pulls & -> & Hpulls).
      exists pulls. split.
      * rewrite filter_cons_True by done. by rewrite <- app_assoc.
      * intros image. rewrite filter_cons_False; [apply Hpulls|]. by intros [? _].
    + rewrite normalize_image_normalized.
      destruct (IH (<[spec.normalized (svc_Image service) :=
                        default [] (pulls0 !! spec.normalized (svc_Image service))
                        ++ [Tag service appName]]> pulls0) builds0)
        as (pulls & -> & Hpulls).
      exists pulls. split; [by rewrite filter_cons_False|].
      intros image. rewrite Hpulls.
      destruct (decide (spec.normalized (svc_Image service) = image)) as [<-|Hother].
      * rewrite filter_cons_True by done. rewrite lookup_insert_eq. cbn [default id map].
        assert (forall (d : list string) (t : string) (l : list Service),
                  match l with
                  | [] => Some (d ++ [t])
                  | s :: l' => Some ((d ++ [t]) ++ map (fun s => Tag s appName) (s :: l'))
                  end = Some (d ++ t :: map (fun s => Tag s appName) l)) as Hsame.
        { intros d t [|s l]; cbn [map]; [done|by rewrite <- app_assoc]. }
        apply Hsame.
      * rewrite filter_cons_False by (by intros [_ ?]). by rewrite lookup_insert_ne.
Qed.

(** X12. The first loop of [Build] never fails, and splits the
    services, in run order, in two: the services without an image are
    the services to build, in that order; the tags of the services
    with an image are registered, in that order, under the normalized
    reference of their image, and the plan has a reference exactly
    when a service has it. *)
Theorem plan_services_partition (services : list Service) :
  exists pulls,
    plan_services appName (∅, []) services
      = Ok (pulls, filter (fun s => svc_Image s = ""%string) services)
    /\ forall image,
         pulls !! image =
           match filter (fun s => svc_Image s <> ""%string
                                  /\ spec.normalized (svc_Image s) = image) services with
           | [] => None
           | pulled => Some (map (fun s => Tag s appName) pulled)
           end.
Proof.
  destruct (plan_services_spec services ∅ []) as (pulls & Hplan & Hpulls).
  exists pulls. split; [done|]. intros image. rewrite Hpulls, lookup_empty. done.
Qed.

(** *** The calls of a round *)

Lemma ReadFile_files (name : string) (fs : FS) : fst (os.ReadFile name fs) = fs.
Proof. unfold os.ReadFile. by destruct (stat_node _ _) as [|[? []]]. Qed.

(** The calls of the cache write-back. *)
Lemma save_cache_calls (service : Service) (ropts : RunnerOptions) (w : World) :
  snd (save_cache appName opts service ropts w) = Ok tt
  /\ trace (fst (save_cache appName opts service ropts w)) =
       trace w ++ (if String.eqb (CacheDir opts) "" then []
                   else write_back_calls appName opts service).
Proof.
  unfold save_cache. destruct (String.eqb (CacheDir opts) ""); cbn [negb].
  - by rewrite app_nil_r.
  - unfold bind. rewrite create_container_spec. cbv zeta.
    rewrite remove_stale_spec. cbv zeta.
    rewrite extract_cache_spec. cbv zeta.
    rewrite remove_container_spec. cbv zeta.
    split; [done|]. cbn [fst trace]. by rewrite <- !app_assoc.
Qed.

(** The calls of a build that returns no error. *)
Lemma run_build_calls (buildCache : gmap string string) (service : Service) (w : World)
    (dba : list string) :
  snd (buildArgs (spec.dockerfile_path dir service) (files w)) = Ok dba ->
  spec.run_failure (build_cmd dir appName opts service dba) (build_ropts opts) w = None ->
  snd (run_build dir appName opts buildCache service w)
    = Ok (<[Hash (svc_Build service) := Tag service appName]> buildCache)
  /\ trace (fst (run_build dir appName opts buildCache service w)) =
       trace w ++ EvRun (build_cmd dir appName opts service dba)
         :: (if String.eqb (CacheDir opts) "" then []
             else write_back_calls appName opts service).
Proof.
  intros Hdba Hrun. unfold spec.run_failure in Hrun.
  unfold run_build. rewrite dockerfile_path_eq. unfold bind.
  rewrite on_files_buildArgs, Hdba.
  rewrite copy_args_id, build_command_line.
  fold (build_cmd dir appName opts service dba). fold (build_ropts opts).
  unfold wrap_err, Run, ran_result. cbv zeta. rewrite Hrun.
  match goal with |- context [save_cache _ _ _ _ ?w0] =>
    destruct (save_cache_calls service (build_ropts opts) w0) as [Hok Htr];
    destruct (save_cache appName opts service (build_ropts opts) w0) as [w1 r]
  end.
  cbn [fst snd] in *. subst r. split; [done|].
  unfold ret. cbn [fst]. rewrite Htr. cbn [trace ran_world]. by rewrite <- app_assoc.
Qed.

(** The calls of a round, whatever it returns. *)
Lemma build_service_calls (buildCache : gmap string string) (service : Service) (w : World) :
  exists new,
    trace (fst (build_service dir appName opts buildCache service w)) = trace w ++ new
    /\ match buildCache !! Hash (svc_Build service) with
       | Some bc => new = [EvRun (Docker ["tag"; bc; Tag service appName])]
       | None =>
           new = []
           \/ exists dba,
                new = [EvRun (build_cmd dir appName opts service dba)]
                \/ new = EvRun (build_cmd dir appName opts service dba)
                           :: (if String.eqb (CacheDir opts) "" then []
                               else write_back_calls appName opts service)
       end.
Proof.
  unfold build_service. destruct (buildCache !! Hash (svc_Build service)) as [bc|].
  - eexists. split; [|done]. unfold bind, wrap_err.
    destruct (Run _ _ w) as [w1 r] eqn:Hrun. apply Run_trace in Hrun.
    by destruct r as [[]|err|msg].
  - unfold bind. destruct (restore_cache_ok dir opts service w) as (w0 & -> & <-).
    pose proof (run_build_spec dir appName opts buildCache service w0) as Hspec.
    destruct (snd (buildArgs _ (files w0))) as [dba|err|msg] eqn:Hdba.
    + cbv zeta in Hspec.
      destruct (ran_err _) as [err|] eqn:Hran.
      * rewrite Hspec. eexists. split; [done|]. right. exists dba. by left.
      * destruct (run_build_calls buildCache service w0 dba Hdba Hran) as [_ Htr].
        eexists. split; [exact Htr|]. right. exists dba. by right.
    + rewrite Hspec. exists []. split; [by rewrite app_nil_r|by left].
    + rewrite Hspec. exists []. split; [by rewrite app_nil_r|by left].
Qed.

(** X13. The cache write-back of a service runs its four commands
    whatever each of them returns, always in this order: the creation
    of the temporary container, the removal of the stale entry, the
    extraction of the cache path, the removal of the container; with
    no cache store it runs nothing. *)
Theorem write_back_sequence (service : Service) (ropts : RunnerOptions) (w : World) :
  snd (save_cache appName opts service ropts w) = Ok tt
  /\ trace (fst (save_cache appName opts service ropts w)) =
       trace w ++ (if String.eqb (CacheDir opts) "" then []
                   else [EvRun (Docker ["create"; "--name"; Hash (svc_Build service);
                                        Tag service appName]);
                         EvExec ["rm"; "-rf";
                                 filepath.Join [CacheDir opts; Hash (svc_Build service)]];
                         EvRun (Docker ["cp";
                                        (Hash (svc_Build service) ++ ":/var/cache/build")%string;
                                        filepath.Join [CacheDir opts; Hash (svc_Build service)]]);
                         EvRun (Docker ["rm"; Hash (svc_Build service)])]).
Proof. apply save_cache_calls. Qed.

(** X14. When the build-definition file of a service to build cannot
    be read, the round returns the read error as it is, without the
    [build error:] prefix of the failed commands, no command having
    been run for the service; and the loop over the services ends
    there with that error. *)
Theorem unreadable_file_aborts (buildCache : gmap string string) (service : Service)
    (rest : list Service) (w w1 : World) (err : error) :
  buildCache !! Hash (svc_Build service) = None ->
  restore_cache dir opts service w = (w1, Ok tt) ->
  snd (os.ReadFile (spec.dockerfile_path dir service) (files w1)) = Err err ->
  build_service dir appName opts buildCache service w = (w1, Err err)
  /\ trace w1 = trace w
  /\ build_services dir appName opts buildCache (service :: rest) w = (w1, Err err).
Proof.
  intros Hmiss Hrestore Hread.
  assert (build_service dir appName opts buildCache service w = (w1, Err err)) as Hround.
  { unfold build_service. rewrite Hmiss. unfold bind. rewrite Hrestore.
    pose proof (run_build_spec dir appName opts buildCache service w1) as Hspec.
    rewrite (buildArgs_unreadable _ _ err) in Hspec; [done|].
    pose proof (ReadFile_files (spec.dockerfile_path dir service) (files w1)) as Hfs.
    destruct (os.ReadFile _ _) as [fs r]. cbn in *. by subst. }
  split; [done|]. split.
  - destruct (restore_cache_ok dir opts service w) as (w0 & Heq & Htr).
    rewrite Hrestore in Heq. by injection Heq as <-.
  - cbn [build_services]. unfold bind. by rewrite Hround.
Qed.

(** X15. The staging directory is cleared and filled again only when
    the stat of the cache entry returns no error. With no cache store,
    or when the stat fails, for whatever reason and not only for an
    absent entry, the restore leaves the world as it is: no error is
    returned, nothing is sent to the stream, and the staging directory
    keeps what an earlier round left there. *)
Theorem restore_needs_entry (service : Service) (w : World) :
  CacheDir opts = ""%string
  \/ (exists err, snd (os.Stat (spec.rcd opts service) (files w)) = Err err) ->
  restore_cache dir opts service w = (w, Ok tt).
Proof.
  intros Hnone. unfold restore_cache.
  destruct (String.eqb_spec (CacheDir opts) "") as [Hcd|Hcd]; cbn [negb]; [done|].
  destruct Hnone as [?|[err Herr]]; [done|]. unfold spec.rcd in Herr.
  unfold bind, try, on_files.
  pose proof (Stat_files (filepath.Join [CacheDir opts; Hash (svc_Build service)]) (files w))
    as Hfs.
  destruct (os.Stat _ (files w)) as [fs r]. cbn in Herr, Hfs. subst. by destruct w.
Qed.

(** X16. When the build command of a service fails, the round returns
    [build error: ] followed by the command's error, right after that
    command: the cache write-back is not run, and the memo is not
    given the hash. *)
Theorem failed_build_aborts (buildCache : gmap string string) (service : Service)
    (w w1 : World) (dba : list string) (err : error) :
  buildCache !! Hash (svc_Build service) = None ->
  restore_cache dir opts service w = (w1, Ok tt) ->
  snd (buildArgs (spec.dockerfile_path dir service) (files w1)) = Ok dba ->
  spec.run_failure (build_cmd dir appName opts service dba) (build_ropts opts) w1 = Some err ->
  snd (build_service dir appName opts buildCache service w)
    = Err (ErrorString ("build error: " ++ Error err))
  /\ trace (fst (build_service dir appName opts buildCache service w))
     = trace w ++ [EvRun (build_cmd dir appName opts service dba)].
Proof.
  intros Hmiss Hrestore Hdba Hrun. unfold build_service. rewrite Hmiss.
  unfold bind. rewrite Hrestore.
  pose proof (run_build_spec dir appName opts buildCache service w1) as Hspec.
  rewrite Hdba in Hspec. cbv zeta in Hspec. unfold spec.run_failure in Hrun.
  rewrite Hrun in Hspec. rewrite Hspec. split; [done|]. cbn [fst trace ran_world].
  destruct (restore_cache_ok dir opts service w) as (w0 & Heq & Htr).
  rewrite Hrestore in Heq. injection Heq as <-. by rewrite Htr.
Qed.

(** *** Every service gets its tag *)

Lemma build_service_assigns (buildCache buildCache' : gmap string string)
    (service : Service) (w w1 : World) :
  build_service dir appName opts buildCache service w = (w1, Ok buildCache') ->
  exists new, trace w1 = trace w ++ new
              /\ exists ev, ev ∈ new /\ assigns (Tag service appName) ev.
Proof.
  intros Hround. unfold build_service in Hround.
  destruct (buildCache !! Hash (svc_Build service)) as [bc|].
  - apply bind_Ok in Hround as (w0 & [] & Hrun & Hret). injection Hret as <- _.
    unfold wrap_err in Hrun. destruct (Run _ _ w) as [w' r] eqn:HR.
    apply Run_trace in HR. assert (w' = w0) as -> by (by destruct r; injection Hrun).
    eexists. split; [exact HR|]. eexists. split; [apply list_elem_of_here|].
    left. by eexists.
  - apply bind_Ok in Hround as (w0 & [] & Hrestore & Hbuild).
    destruct (restore_cache_ok dir opts service w) as (w0' & Heq & Htr).
    rewrite Hrestore in Heq. injection Heq as <-.
    pose proof (run_build_spec dir appName opts buildCache service w0) as Hspec.
    rewrite Hbuild in Hspec.
    destruct (snd (buildArgs _ (files w0))) as [dba|err|msg]; [|done..].
    cbv zeta in Hspec. destruct (ran_err _); [done|].
    destruct Hspec as (w2 & more & [= <- _] & Htr2 & _).
    eexists. split; [by rewrite Htr2, Htr|].
    eexists. split; [apply list_elem_of_here|].
    right. unfold build_cmd. by eexists _, _, _, _.
Qed.

Lemma build_services_assign (builds : list Service) :
  forall (buildCache buildCache' : gmap string string) (w w1 : World),
    build_services dir appName opts buildCache builds w = (w1, Ok buildCache') ->
    exists new, trace w1 = trace w ++ new
                /\ forall service, service ∈ builds ->
                     exists ev, ev ∈ new /\ assigns (Tag service appName) ev.
Proof.
  induction builds as [|service rest IH]; intros buildCache buildCache' w w1 Hloop.
  - injection Hloop as <- _. exists []. split; [by rewrite app_nil_r|].
    intros service Hs. by apply elem_of_nil in Hs.
  - cbn [build_services] in Hloop. apply bind_Ok in Hloop as (w0 & bc0 & Hround & Hloop).
    apply build_service_assigns in Hround as (new1 & Htr1 & ev1 & Hev1 & Has1).
    apply IH in Hloop as (new2 & Htr2 & Hall).
    exists (new1 ++ new2). split; [by rewrite Htr2, Htr1, app_assoc|].
    intros s Hs. apply elem_of_cons in Hs as [->|Hs].
    + exists ev1. split; [|done]. apply elem_of_app. by left.
    + destruct (Hall s Hs) as (ev & Hev & Has). exists ev. split; [|done].
      apply elem_of_app. by right.
Qed.

Lemma pulls_assign (todo : list (string * list string)) :
  forall (w w1 : World),
    for_each todo (fun it => pull_image opts it.1 it.2) w = (w1, Ok tt) ->
    exists new, trace w1 = trace w ++ new
                /\ forall image tags tag,
                     (image, tags) ∈ todo -> tag ∈ tags ->
                     EvRun (Docker ["tag"; image; tag]) ∈ new.
Proof.
  induction todo as [|[image0 tags0] rest IH]; intros w w1 Hloop.
  - injection Hloop as <-. exists []. split; [by rewrite app_nil_r|].
    intros image tags tag Hin. by apply elem_of_nil in Hin.
  - cbn [for_each] in Hloop. apply bind_Ok in Hloop as (w0 & [] & Hone & Hloop).
    cbn [fst snd] in Hone.
    apply pull_image_pulled in Hone as (_ & pulling & issued & _ & Htr1 & Hall).
    rewrite (Hall eq_refl) in Htr1.
    apply IH in Hloop as (new2 & Htr2 & Hrest).
    eexists. split; [rewrite Htr2, Htr1; by rewrite <- app_assoc|].
    intros image tags tag Hin Htag. apply elem_of_cons in Hin as [[= -> ->]|Hin].
    + apply elem_of_app. left. apply elem_of_app. right. apply elem_of_app. right.
      apply list_elem_of_fmap. by exists tag.
    + apply elem_of_app. right. by apply (Hrest image tags).
Qed.

(** X17. When [Build] returns no error, every service of the run order
    has been given its tag by a call made in the run: a build command
    with the tag as [-t], or a tag operation with the tag as
    destination. *)
Theorem Build_tags_every_service (m : Manifest) (services : list Service) (w w' : World) :
  runOrder m (opt_Service opts) = inl services ->
  Build m dir appName opts w = (w', Ok tt) ->
  exists new,
    trace w' = trace w ++ new
    /\ forall service, service ∈ services ->
         exists ev, ev ∈ new /\ assigns (Tag service appName) ev.
Proof.
  intros Horder Hbuild. unfold Build in Hbuild. rewrite Horder in Hbuild.
  destruct (plan_services_spec services ∅ []) as (pulls & Hplan & Hpulls).
  cbn [app] in Hplan. rewrite Hplan in Hbuild.
  apply bind_Ok in Hbuild as (w1 & memo & Hbuilds & Hpull).
  apply build_services_assign in Hbuilds as (new1 & Htr1 & Hbuilt).
  apply pulls_assign in Hpull as (new2 & Htr2 & Hpulled).
  exists (new1 ++ new2). split; [by rewrite Htr2, Htr1, app_assoc|].
  intros service Hs.
  destruct (decide (svc_Image service = ""%string)) as [Hempty|Himage].
  - destruct (Hbuilt service) as (ev & Hev & Has); [by apply list_elem_of_filter|].
    exists ev. split; [|done]. apply elem_of_app. by left.
  - specialize (Hpulls (spec.normalized (svc_Image service))).
    rewrite lookup_empty in Hpulls. cbn [default app] in Hpulls.
    assert (service ∈ filter (fun s => svc_Image s <> ""%string
                                       /\ spec.normalized (svc_Image s)
                                          = spec.normalized (svc_Image service)) services)
      as Hin by (by apply list_elem_of_filter).
    remember (filter (fun s => svc_Image s <> ""%string
                               /\ spec.normalized (svc_Image s)
                                  = spec.normalized (svc_Image service)) services)
      as pulled eqn:Hp.
    destruct pulled as [|s pulled]; [by apply elem_of_nil in Hin|].
    eexists. split.
    + apply elem_of_app. right.
      apply (Hpulled (spec.normalized (svc_Image service))
               (map (fun s => Tag s appName) (s :: pulled)) (Tag service appName)).
      * rewrite (map_range_perm _ pulls). apply elem_of_map_to_list. exact Hpulls.
      * apply list_elem_of_fmap. by exists service.
    + left. by eexists.
Qed.

(** *** A run without cache store *)

Lemma storeless_tag (source tag : string) : storeless (EvRun (Docker ["tag"; source; tag])).
Proof. exists "tag". split; [done|]. set_solver. Qed.

Lemma storeless_build (service : Service) (dba : list string) :
  storeless (EvRun (build_cmd dir appName opts service dba)).
Proof. exists "build". split; [done|]. set_solver. Qed.

Lemma build_services_storeless (builds : list Service) :
  CacheDir opts = ""%string ->
  forall (buildCache : gmap string string) (w : World),
  exists new,
    trace (fst (build_services dir appName opts buildCache builds w)) = trace w ++ new
    /\ Forall storeless new.
Proof.
  intros Hcd. induction builds as [|service rest IH]; intros buildCache w.
  - exists []. by rewrite app_nil_r.
  - cbn [build_services]. unfold bind.
    destruct (build_service_calls buildCache service w) as (new1 & Htr1 & Hnew1).
    assert (Forall storeless new1) as Hplain.
    { rewrite Hcd in Hnew1. cbn [String.eqb] in Hnew1.
      destruct (buildCache !! Hash (svc_Build service)) as [bc|].
      - subst new1. constructor; [apply storeless_tag|constructor].
      - destruct Hnew1 as [->|(dba & [->| ->])]; [constructor|..];
          (constructor; [apply storeless_build|constructor]). }
    destruct (build_service dir appName opts buildCache service w) as [w1 [bc1|err|msg]];
      cbn [fst] in *; [|by exists new1..].
    destruct (IH bc1 w1) as (new2 & Htr2 & Hplain2).
    exists (new1 ++ new2). split; [by rewrite Htr2, Htr1, app_assoc|].
    by apply Forall_app.
Qed.

Lemma pulls_storeless (todo : list (string * list string)) : forall (w : World),
  exists new,
    trace (fst (for_each todo (fun it => pull_image opts it.1 it.2) w)) = trace w ++ new
    /\ Forall storeless new.
Proof.
  induction todo as [|[image tags] rest IH]; intros w.
  - exists []. by rewrite app_nil_r.
  - cbn [for_each]. unfold bind. cbn [fst snd].
    destruct (pull_image opts image tags w) as [w1 r] eqn:Hone.
    apply pull_image_pulled in Hone as (_ & pulling & issued & _ & Htr1 & _).
    assert (Forall storeless ([EvCombinedOutput (spec.query image)]
                              ++ (if pulling then [EvRun (spec.pull image)] else [])
                              ++ map (fun tag => EvRun (spec.tag_as image tag)) issued))
      as Hplain.
    { apply Forall_app. split.
      - constructor; [|constructor]. exists "images". split; [done|]. set_solver.
      - apply Forall_app. split.
        + destruct pulling; constructor; [|constructor].
          exists "pull". split; [done|]. set_solver.
        + apply Forall_fmap, Forall_forall. intros tag _. apply storeless_tag. }
    destruct r as [[]|err|msg]; cbn [fst]; [|by eexists..].
    destruct (IH w1) as (new2 & Htr2 & Hplain2).
    eexists. split; [by rewrite Htr2, Htr1, <- app_assoc|].
    by apply Forall_app.
Qed.

(** X18. With no cache store, a run of [Build] makes no call but
    [docker build], [docker tag], [docker pull] and the query [docker
    images], whatever it returns: no temporary container is made, and
    [rm -rf] is never run. *)
Theorem Build_without_store (m : Manifest) (w : World) :
  CacheDir opts = ""%string ->
  exists new,
    trace (fst (Build m dir appName opts w)) = trace w ++ new
    /\ Forall storeless new.
Proof.
  intros Hcd. unfold Build.
  destruct (runOrder m (opt_Service opts)) as [services|err];
    [|exists []; by rewrite app_nil_r].
  destruct (plan_services_spec services ∅ []) as (pulls & -> & _).
  unfold bind.
  destruct (build_services_storeless (filter (fun s => svc_Image s = ""%string) services)
              Hcd ∅ w) as (new1 & Htr1 & Hplain1).
  destruct (build_services _ _ _ _ _ w) as [w1 [memo|err|msg]]; cbn [fst] in *;
    [|by exists new1..].
  destruct (pulls_storeless (map_range _ pulls) w1) as (new2 & Htr2 & Hplain2).
  exists (new1 ++ new2). split; [by rewrite Htr2, Htr1, app_assoc|].
  by apply Forall_app.
Qed.

End build_more.

(** ** [Build]: the two loops, and the cache put in place *)

Section phases.
Context `{Platform}.
Variables (dir appName : string) (opts : BuildOptions).

Lemma build_services_phase (builds : list Service) :
  forall (buildCache : gmap string string) (w : World),
  exists new,
    trace (fst (build_services dir appName opts buildCache builds w)) = trace w ++ new
    /\ Forall build_phase new.
Proof.
  induction builds as [|service rest IH]; intros buildCache w.
  - exists []. by rewrite app_nil_r.
  - cbn [build_services]. unfold bind.
    destruct (build_service_calls dir appName opts buildCache service w)
      as (new1 & Htr1 & Hnew1).
    assert (Forall build_phase new1) as Hphase.
    { destruct (buildCache !! Hash (svc_Build service)) as [bc|].
      - subst new1. by repeat constructor.
      - destruct Hnew1 as [->|(dba & [->| ->])]; [constructor|by repeat constructor|].
        constructor; [done|]. destruct (String.eqb _ _); by repeat constructor. }
    destruct (build_service dir appName opts buildCache service w) as [w1 [bc1|err|msg]];
      cbn [fst] in *; [|by exists new1..].
    destruct (IH bc1 w1) as (new2 & Htr2 & Hphase2).
    exists (new1 ++ new2). split; [by rewrite Htr2, Htr1, app_assoc|].
    by apply Forall_app.
Qed.

Lemma pulls_phase (todo : list (string * list string)) : forall (w : World),
  exists new,
    trace (fst (for_each todo (fun it => pull_image opts it.1 it.2) w)) = trace w ++ new
    /\ Forall pull_phase new.
Proof.
  induction todo as [|[image tags] rest IH]; intros w.
  - exists []. by rewrite app_nil_r.
  - cbn [for_each]. unfold bind. cbn [fst snd].
    destruct (pull_image opts image tags w) as [w1 r] eqn:Hone.
    apply pull_image_pulled in Hone as (_ & pulling & issued & _ & Htr1 & _).
    assert (Forall pull_phase ([EvCombinedOutput (spec.query image)]
                               ++ (if pulling then [EvRun (spec.pull image)] else [])
                               ++ map (fun tag => EvRun (spec.tag_as image tag)) issued))
      as Hphase.
    { apply Forall_app. split.
      - constructor; [|constructor]. exists "images". split; [done|]. set_solver.
      - apply Forall_app. split.
        + destruct pulling; constructor; [|constructor].
          exists "pull". split; [done|]. set_solver.
        + apply Forall_fmap, Forall_forall. intros tag _.
          exists "tag". split; [done|]. set_solver. }
    destruct r as [[]|err|msg]; cbn [fst]; [|by eexists..].
    destruct (IH w1) as (new2 & Htr2 & Hphase2).
    eexists. split; [by rewrite Htr2, Htr1, <- app_assoc|].
    by apply Forall_app.
Qed.

(** X19. In a run of [Build], whatever it returns, the calls of the
    loop over the services to build all come before the calls of the
    loop over the images to pull: no image is queried or pulled before
    the last build round is over, and none at all when a build round
    does not return normally. *)
Theorem Build_builds_before_pulls (m : Manifest) (services : list Service) (w : World) :
  runOrder m (opt_Service opts) = inl services ->
  exists built pulled,
    trace (fst (build_services dir appName opts ∅
                  (filter (fun s => svc_Image s = ""%string) services) w))
      = trace w ++ built
    /\ trace (fst (Build m dir appName opts w)) = trace w ++ built ++ pulled
    /\ Forall build_phase built
    /\ Forall pull_phase pulled
    /\ ((forall memo,
           snd (build_services dir appName opts ∅
                  (filter (fun s => svc_Image s = ""%string) services) w) <> Ok memo) ->
        pulled = []).
Proof.
  intros Horder. unfold Build. rewrite Horder.
  destruct (plan_services_spec appName services ∅ []) as (pulls & -> & _). cbn [app].
  unfold bind.
  destruct (build_services_phase (filter (fun s => svc_Image s = ""%string) services) ∅ w)
    as (built & Htr1 & Hphase1).
  destruct (build_services _ _ _ _ _ w) as [w1 [memo|err|msg]]; cbn [fst snd] in *.
  - destruct (pulls_phase (map_range _ pulls) w1) as (pulled & Htr2 & Hphase2).
    exists built, pulled. split; [done|]. split; [by rewrite Htr2, Htr1, app_assoc|].
    split; [done|]. split; [done|]. intros Hnot. by destruct (Hnot memo).
  - exists built, []. rewrite app_nil_r. by repeat split.
  - exists built, []. rewrite app_nil_r. by repeat split.
Qed.

(** *** The cache put in place *)

Lemma RemoveAll_frame (name : string) (fs : FS) (x : path) :
  unrelated (resolve [] name) x ->
  walk (tree (fst (os.RemoveAll name fs))) x = walk (tree fs) x.
Proof.
  intros Hun. unfold os.RemoveAll. destruct (String.eqb name ""); [done|].
  destruct (walk (tree fs) (resolve [] name)) as [[]|n]; try done.
  destruct (put (tree fs) (resolve [] name) None) as [|t] eqn:Hput; [done|].
  cbn [fst tree set_tree]. by apply (put_walk_frame _ _ _ _ _ Hput).
Qed.

Lemma clear_staging_files (staging : string) (w : World) :
  files (fst (clear_staging staging w)) = fst (os.RemoveAll staging (files w)).
Proof.
  unfold clear_staging, bind, try, on_files.
  pose proof (safe_RemoveAll staging (files w)) as Hsafe.
  destruct (os.RemoveAll staging (files w)) as [fs [[]|err|msg]]; cbn in *; try done.
Qed.

(** X20. When the cache store has an entry for the hash of the
    service and its copy returns no error, the restore leaves, in the
    staging directory, a copy of each regular file the entry held
    before the restore, at the same relative path: same content, same
    permission bits, the modification time as both times. *)
Theorem restore_fills_staging (service : Service) (w : World) (si : FileInfo)
    (rel : path) (data : string) (perm atime mtime : Z) :
  CacheDir opts <> ""%string ->
  snd (os.Stat (spec.rcd opts service) (files w)) = Ok si ->
  snd (copyDir maxDepth (spec.rcd opts service) (spec.lcd dir)
         (files (fst (clear_staging (spec.lcd dir) w)))) = Ok tt ->
  Forall valid rel ->
  walk (tree (files w)) (resolve [] (spec.rcd opts service) ++ rel)
    = inr (File data perm atime mtime) ->
  walk (tree (files (fst (restore_cache dir opts service w))))
       (resolve [] (spec.lcd dir) ++ rel)
    = inr (File data (Z.land perm permMask) mtime mtime).
Proof.
  intros Hcd Hstat Hcopy Hrel Hfile.
  destruct (copyDir maxDepth _ _ (files (fst (clear_staging (spec.lcd dir) w))))
    as [fs' r] eqn:Hrun.
  cbn [snd] in Hcopy. subst r.
  (* the entry is apart from the staging directory, hence as it was *)
  pose proof (unrelated_below _ _ rel (copyDir_apart _ _ _ _ _ Hrun)) as Hun.
  assert (walk (tree (files (fst (clear_staging (spec.lcd dir) w))))
               (resolve [] (spec.rcd opts service) ++ rel)
          = inr (File data perm atime mtime)) as Hkept.
  { rewrite clear_staging_files. by rewrite RemoveAll_frame. }
  pose proof (copyDir_tree _ _ _ _ _ _ _ Hrun Hrel Hkept) as Hcopied. cbn [copy_of] in Hcopied.
  (* the restore is the clearing, then the copy *)
  assert (files (fst (restore_cache dir opts service w)) = fs') as ->; [|done].
  unfold restore_cache. apply String.eqb_neq in Hcd. rewrite Hcd. cbn [negb].
  unfold bind, try, on_files. fold (spec.rcd opts service).
  pose proof (Stat_files (spec.rcd opts service) (files w)) as Hfs.
  destruct (os.Stat (spec.rcd opts service) (files w)) as [fs0 r0].
  cbn [fst snd] in Hfs, Hstat. subst fs0 r0.
  fold (spec.lcd dir).
  replace (mkWorld (files w) (engine w) (sink w) (trace w)) with w by (by destruct w).
  destruct (clear_staging_ok (spec.lcd dir) w) as (w1 & Hclear & _).
  rewrite Hclear in Hrun |- *. cbn [fst] in Hrun.
  rewrite copy_cache_spec. cbn [fst files]. by rewrite Hrun.
Qed.

End phases.

(** ** Sample runs for the further properties *)

Section further_samples.
Import sample.
#[local] Transparent maxDepth.

Lemma buildArgs_declared_names_witness :
  buildArgs "/app/web/Dockerfile" disk = (disk, Ok ["TOKEN"; "MODE"]).
Proof.
  apply (buildArgs_declared_names "/app/web/Dockerfile"
           ("FROM alpine" ++ LF ++ "ARG TOKEN" ++ LF ++ "ARG MODE=fast" ++ LF) disk);
    vm_compute; reflexivity.
Defined.

Lemma buildArgs_stops_at_long_line_witness :
  buildArgs "/Dockerfile" cases.long_disk = (cases.long_disk, Ok ["FIRST"]).
Proof.
  apply (buildArgs_stops_at_long_line "/Dockerfile"
           cases.head_lines cases.long_line cases.tail_lines cases.long_disk).
  - unfold cases.long_disk.
    generalize (cases.head_lines ++ cases.long_line ++ cases.tail_lines)%string.
    intros data. vm_compute. reflexivity.
  - right. exists "ARG FIRST=1". reflexivity.
  - vm_compute. reflexivity.
  - vm_compute. discriminate.
Defined.

Lemma buildArgs_names_wellformed_witness :
  Forall (fun name => Forall (fun c => ascii_space c = false /\ c <> "="%char)
                             (list_ascii_of_string name)) ["TOKEN"; "MODE"].
Proof.
  apply (buildArgs_names_wellformed "/app/web/Dockerfile" disk). vm_compute. reflexivity.
Defined.

Lemma copyFile_onto_itself_witness :
  exists fs',
    copyFile "/store/notes" "/store/link" disk = (fs', Ok tt)
    /\ walk (tree fs') ["store"; "notes"] = inr (File "" 384 1000 1000).
Proof.
  apply (copyFile_onto_itself "/store/notes" "/store/link" disk ["store"; "notes"]
           "hello" 384 111 222); vm_compute; reflexivity.
Defined.

Lemma copyFile_writes_only_destination_witness :
  exists d0 q,
    locate "/store/copy" = inr d0
    /\ follow maxSymlinks (tree disk) d0 = inr q
    /\ (exists n, stat_node (tree (fst (copyFile "/store/notes" "/store/copy" disk)))
                    "/store/copy" = inr (q, n) /\ is_file n = true)
    /\ umask (fst (copyFile "/store/notes" "/store/copy" disk)) = umask disk
    /\ clock (fst (copyFile "/store/notes" "/store/copy" disk)) = clock disk
    /\ forall x, unrelated q x ->
                 walk (tree (fst (copyFile "/store/notes" "/store/copy" disk))) x
                 = walk (tree disk) x.
Proof.
  apply (copyFile_writes_only_destination "/store/notes" "/store/copy" disk).
  vm_compute. reflexivity.
Defined.

Lemma copyFile_failures_witness :
  copyFile "/store/absent" "/store/copy" disk
    = (disk, Err (PathError "open" "/store/absent" ENOENT))
  /\ exists fs' err,
       copyFile "/store/sub" "/store/copy" disk = (fs', Err err)
       /\ walk (tree fs') (["store"] ++ ["copy"]) = inr (File "" 420 1000 1000).
Proof.
  destruct (copyFile_failures "/store/absent" "/store/copy" disk) as [Hopen _].
  destruct (copyFile_failures "/store/sub" "/store/copy" disk) as [_ Hdir].
  split.
  - apply Hopen. vm_compute. reflexivity.
  - eapply (Hdir ["store"; "sub"] _ _ ["store"] "copy"); vm_compute; reflexivity.
Defined.

Lemma copyDir_into_itself_fails_witness :
  snd (copyDir 5 "/store" "/store/sub/inner" disk) <> Ok tt.
Proof.
  apply (copyDir_into_itself_fails 5 "/store" "/store/sub/inner" disk ["sub"; "inner"]).
  - vm_compute. reflexivity.
  - discriminate.
Defined.

Lemma copyDir_writes_only_destination_witness :
  umask (fst (copyDir maxDepth "/store" "/copy" disk)) = umask disk
  /\ clock (fst (copyDir maxDepth "/store" "/copy" disk)) = clock disk
  /\ (forall x, unrelated (resolve [] "/copy") x ->
                walk (tree (fst (copyDir maxDepth "/store" "/copy" disk))) x
                = walk (tree disk) x)
  /\ (forall rel, walk (tree (fst (copyDir maxDepth "/store" "/copy" disk)))
                       (resolve [] "/store" ++ rel)
                  = walk (tree disk) (resolve [] "/store" ++ rel))
  /\ (forall x pm es,
        x `prefix_of` resolve [] "/copy" -> walk (tree disk) x = inr (Dir pm es) ->
        exists es', walk (tree (fst (copyDir maxDepth "/store" "/copy" disk))) x
                    = inr (Dir pm es')).
Proof.
  apply (copyDir_writes_only_destination maxDepth "/store" "/copy" disk).
  vm_compute. reflexivity.
Defined.

Lemma copyDir_copies_files_witness :
  walk (tree (fst (copyDir maxDepth "/store" "/copy" disk)))
       (resolve [] "/copy" ++ ["sub"; "deep"])
  = inr (File "x" (Z.land 420 permMask) 200 200).
Proof.
  apply (copyDir_copies_files maxDepth "/store" "/copy" disk
           (fst (copyDir maxDepth "/store" "/copy" disk)) ["sub"; "deep"] "x" 420 100 200).
  - vm_compute. reflexivity.
  - repeat constructor.
  - vm_compute. reflexivity.
Defined.

Lemma copyDir_makes_directories_witness :
  exists es',
    walk (tree (fst (copyDir maxDepth "/store" "/copy" disk))) (resolve [] "/copy" ++ ["sub"])
    = inr (Dir (Z.ldiff (Z.land 493 permMask) (umask disk)) es').
Proof.
  eapply (copyDir_makes_directories maxDepth "/store" "/copy" disk
            (fst (copyDir maxDepth "/store" "/copy" disk)) ["sub"] 493).
  - vm_compute. reflexivity.
  - repeat constructor.
  - vm_compute. reflexivity.
Defined.

Lemma copyDir_destination_exact_witness :
  exists n,
    walk (tree disk) (resolve [] "/store" ++ ["notes"]) = inr n
    /\ is_link n = false
    /\ copy_of (umask disk) n (inr (File "hello" 384 222 222)).
Proof.
  apply (copyDir_destination_exact maxDepth "/store" "/copy" disk
           (fst (copyDir maxDepth "/store" "/copy" disk)) ["notes"]
           (File "hello" 384 222 222)).
  - vm_compute. reflexivity.
  - discriminate.
  - vm_compute. reflexivity.
Defined.

Lemma unreadable_file_aborts_witness :
  @build_service quiet "/app" "app" (options true "" []) ∅ cases.ghost (world quiet tt)
    = (world quiet tt, Err (PathError "open" "/app/ghost/Dockerfile" ENOENT))
  /\ trace (world quiet tt) = trace (world quiet tt)
  /\ @build_services quiet "/app" "app" (options true "" []) ∅ [cases.ghost; web]
       (world quiet tt)
     = (world quiet tt, Err (PathError "open" "/app/ghost/Dockerfile" ENOENT)).
Proof.
  apply (@unreadable_file_aborts quiet "/app" "app" (options true "" []) ∅ cases.ghost
           [web] (world quiet tt) (world quiet tt)); vm_compute; reflexivity.
Defined.

Lemma restore_needs_entry_witness :
  @restore_cache quiet "/app" (options true "/cache" []) cases.ghost (world quiet tt)
    = (world quiet tt, Ok tt).
Proof.
  apply (@restore_needs_entry quiet "/app" (options true "/cache" []) cases.ghost
           (world quiet tt)).
  right. eexists. vm_compute. reflexivity.
Defined.

Lemma failed_build_aborts_witness :
  snd (@build_service cases.broken "/app" "app" (options true "/cache" []) ∅ web
         (world cases.broken tt))
    = Err (ErrorString ("build error: " ++ Error (ErrorString "exit status 1")))
  /\ trace (fst (@build_service cases.broken "/app" "app" (options true "/cache" []) ∅ web
                   (world cases.broken tt)))
     = trace (world cases.broken tt)
       ++ [EvRun (@build_cmd cases.broken "/app" "app" (options true "/cache" []) web
                    ["TOKEN"; "MODE"])].
Proof.
  apply (@failed_build_aborts cases.broken "/app" "app" (options true "/cache" []) ∅ web
           (world cases.broken tt)
           (fst (@restore_cache cases.broken "/app" (options true "/cache" []) web
                   (world cases.broken tt))));
    vm_compute; reflexivity.
Defined.

Lemma Build_tags_every_service_witness :
  exists new,
    trace (fst (@Build quiet [web; cases.db; web2] "/app" "app" (options true "" [])
                  (world quiet tt)))
      = trace (world quiet tt) ++ new
    /\ forall service, service ∈ [web; cases.db; web2] ->
         exists ev, ev ∈ new /\ assigns (@Tag quiet service "app") ev.
Proof.
  apply (@Build_tags_every_service quiet "/app" "app" (options true "" [])
           [web; cases.db; web2] [web; cases.db; web2] (world quiet tt)).
  - reflexivity.
  - vm_compute. reflexivity.
Defined.

Lemma Build_without_store_witness :
  exists new,
    trace (fst (@Build quiet [web; cases.db; web2] "/app" "app" (options true "" [])
                  (world quiet tt)))
      = trace (world quiet tt) ++ new
    /\ Forall storeless new.
Proof.
  apply (@Build_without_store quiet "/app" "app" (options true "" [])
           [web; cases.db; web2] (world quiet tt)).
  reflexivity.
Defined.

Lemma Build_builds_before_pulls_witness :
  exists built pulled,
    trace (fst (@build_services quiet "/app" "app" (options true "" []) ∅
                  (filter (fun s => svc_Image s = ""%string) [cases.db; web; web2])
                  (world quiet tt)))
      = trace (world quiet tt) ++ built
    /\ trace (fst (@Build quiet [cases.db; web; web2] "/app" "app" (options true "" [])
                     (world quiet tt)))
       = trace (world quiet tt) ++ built ++ pulled
    /\ Forall build_phase built
    /\ Forall pull_phase pulled
    /\ ((forall memo,
           snd (@build_services quiet "/app" "app" (options true "" []) ∅
                  (filter (fun s => svc_Image s = ""%string) [cases.db; web; web2])
                  (world quiet tt)) <> Ok memo) ->
        pulled = []).
Proof.
  apply (@Build_builds_before_pulls quiet "/app" "app" (options true "" [])
           [cases.db; web; web2] [cases.db; web; web2] (world quiet tt)).
  reflexivity.
Defined.

Lemma restore_fills_staging_witness :
  walk (tree (files (fst (@restore_cache quiet "/app" (options true "/cache" []) web
                            (@mkWorld quiet cases.cached_disk tt [] [])))))
       (resolve [] (spec.lcd "/app") ++ ["layer"])
  = inr (File "bits" (Z.land 384 permMask) 222 222).
Proof.
  apply (@restore_fills_staging quiet "/app" (options true "/cache" []) web
           (@mkWorld quiet cases.cached_disk tt [] [])
           (node_info "web" (Dir 493 (list_to_map [("layer", File "bits" 384 111 222)])))
           ["layer"] "bits" 384 111 222).
  - discriminate.
  - vm_compute. reflexivity.
  - vm_compute. reflexivity.
  - repeat constructor.
  - vm_compute. reflexivity.
Defined.

End further_samples.

(** * The images of the plan: the references, and the rounds on them *)

Section plan_rounds.
Context `{Platform}.
Variables (dir appName : string) (opts : BuildOptions).

(** The pull of a round is made exactly when the cache is disabled or
    the query printed nothing; the calls of a round that returns no
    error are the query, that pull, and the tag operations. *)
Lemma pull_image_calls (image : string) (tags : list string) (w w' : World) :
  pull_image opts image tags w = (w', Ok tt) ->
  exists pulling : bool,
    (pulling = true <->
       Cache opts = false \/ snd (CombinedOutput (spec.query image) w) = Ok ""%string)
    /\ trace w' = trace w ++ spec.round_calls image pulling tags.
Proof.
  unfold pull_image, bind. fold (spec.query image). intros Hpull.
  destruct (CombinedOutput (spec.query image) w) as [w1 [output|err|msg]] eqn:Hq;
    [|done..].
  pose proof (CombinedOutput_trace _ _ _ _ Hq) as Htq. cbn [snd].
  exists (negb (Cache opts) || (String.length output =? 0)%nat). split.
  { rewrite orb_true_iff, negb_true_iff, Nat.eqb_eq. split.
    - intros [?|Hlen]; [by left|right]. by destruct output.
    - intros [?|[= ->]]; [by left|by right]. }
  unfold spec.round_calls.
  destruct (negb (Cache opts) || (String.length output =? 0)%nat).
  - unfold wrap_err in Hpull.
    destruct (Run (Docker ["pull"; image]) _ w1) as [w2 rp] eqn:Hp.
    pose proof (Run_trace _ _ _ _ _ Hp) as Htp.
    destruct rp as [[]|err|msg]; [|done..].
    destruct (tag_loop_applied opts image tags _ _ _ Hpull) as (_ & issued & _ & Htr & Hall).
    by rewrite Htr, (Hall eq_refl), Htp, Htq, <- !app_assoc.
  - cbn [ret] in Hpull.
    destruct (tag_loop_applied opts image tags _ _ _ Hpull) as (_ & issued & _ & Htr & Hall).
    by rewrite Htr, (Hall eq_refl), Htq, <- !app_assoc.
Qed.

Lemma tags_applied_returns (image : string) (tags : list string) (w w' : World)
    (msg : string) :
  ~ spec.tags_applied opts image tags w w' (Panic msg).
Proof.
  intros Htags. remember (Panic msg) as r eqn:Hr.
  induction Htags; [done|auto|done].
Qed.

(** The loop over the references goes through the rounds as the
    specification words them. *)
Lemma pull_rounds_pulled (rounds : list (string * list string)) : forall (w : World),
  spec.images_pulled opts rounds w
    (fst (for_each rounds (fun it => pull_image opts it.1 it.2) w))
    (snd (for_each rounds (fun it => pull_image opts it.1 it.2) w)).
Proof.
  induction rounds as [|[image tags] rest IH]; intros w; [constructor|].
  cbn [for_each]. unfold bind. cbn [fst snd].
  destruct (pull_image opts image tags w) as [w1 r] eqn:Hone.
  apply pull_image_pulled in Hone as (Hround & _).
  destruct r as [[]|err|msg]; cbn [fst snd].
  - eapply spec.image_done; [done|]. apply IH.
  - by apply spec.image_failed.
  - exfalso. inversion Hround; subst; by eapply tags_applied_returns.
Qed.

(** The calls of a loop that returns no error. *)
Lemma pull_rounds_calls (rounds : list (string * list string)) : forall (w w' : World),
  for_each rounds (fun it => pull_image opts it.1 it.2) w = (w', Ok tt) ->
  exists pulled : list bool,
    length pulled = length rounds
    /\ Forall (fun pulling => pulling = false -> Cache opts = true) pulled
    /\ trace w' = trace w
         ++ concat (zip_with (fun it pulling => spec.round_calls it.1 pulling it.2)
                      rounds pulled)
    /\ forall image tags, (image, tags) ∈ rounds ->
         EvCombinedOutput (spec.query image)
           ∈ concat (zip_with (fun it pulling => spec.round_calls it.1 pulling it.2)
                       rounds pulled)
         /\ (Cache opts = false ->
             EvRun (spec.pull image)
               ∈ concat (zip_with (fun it pulling => spec.round_calls it.1 pulling it.2)
                           rounds pulled)).
Proof.
  induction rounds as [|[image tags] rest IH]; intros w w' Hloop.
  - injection Hloop as <-. exists []. rewrite app_nil_r.
    split; [done|]. split; [constructor|]. split; [done|].
    by intros image tags ?%elem_of_nil.
  - cbn [for_each] in Hloop. unfold bind in Hloop. cbn [fst snd] in Hloop.
    destruct (pull_image opts image tags w) as [w1 [[]|err|msg]] eqn:Hone; [|done..].
    apply pull_image_calls in Hone as (pulling & Hwhy & Htr1).
    destruct (IH _ _ Hloop) as (pulled & Hlen & Hskip & Htr & Hin).
    exists (pulling :: pulled). cbn [zip_with concat length fst snd].
    split; [by rewrite Hlen|]. split.
    { constructor; [|done]. intros ->. destruct (Cache opts); [done|].
      by destruct (proj2 Hwhy (or_introl eq_refl)). }
    split; [by rewrite Htr, Htr1, <- app_assoc|].
    intros image' tags' [[= -> ->]|Hrest]%elem_of_cons.
    + split.
      * apply elem_of_app. left. apply list_elem_of_here.
      * intros Hc. apply elem_of_app. left.
        rewrite (proj2 Hwhy (or_introl Hc)). apply list_elem_of_further, list_elem_of_here.
    + destruct (Hin _ _ Hrest) as [Hq Hp]. split.
      * apply elem_of_app. by right.
      * intros Hc. apply elem_of_app. right. by apply Hp.
Qed.

(** Whatever the loop returns, its calls are queries, pulls and tag
    operations on the references it was given. *)
Lemma pull_rounds_events (rounds : list (string * list string)) : forall (w : World),
  exists new,
    trace (fst (for_each rounds (fun it => pull_image opts it.1 it.2) w)) = trace w ++ new
    /\ forall ev, ev ∈ new ->
         exists image tags,
           (image, tags) ∈ rounds
           /\ (ev = EvCombinedOutput (spec.query image) \/ ev = EvRun (spec.pull image)
               \/ exists tag, ev = EvRun (spec.tag_as image tag)).
Proof.
  induction rounds as [|[image tags] rest IH]; intros w.
  - exists []. rewrite app_nil_r. split; [done|]. by intros ev ?%elem_of_nil.
  - cbn [for_each]. unfold bind. cbn [fst snd].
    destruct (pull_image opts image tags w) as [w1 r] eqn:Hone.
    apply pull_image_pulled in Hone as (_ & pulling & issued & _ & Htr1 & _).
    assert (forall ev,
              ev ∈ [EvCombinedOutput (spec.query image)]
                     ++ (if pulling then [EvRun (spec.pull image)] else [])
                     ++ map (fun tag => EvRun (spec.tag_as image tag)) issued ->
              exists image' tags',
                (image', tags') ∈ (image, tags) :: rest
                /\ (ev = EvCombinedOutput (spec.query image') \/ ev = EvRun (spec.pull image')
                    \/ exists tag, ev = EvRun (spec.tag_as image' tag))) as Hround.
    { intros ev Hev. exists image, tags. split; [apply list_elem_of_here|].
      apply elem_of_app in Hev as [->%list_elem_of_singleton|Hev]; [by left|].
      apply elem_of_app in Hev as [Hev|Hev].
      - destruct pulling; [|by apply elem_of_nil in Hev].
        apply list_elem_of_singleton in Hev as ->. right. by left.
      - apply list_elem_of_fmap in Hev as (tag & -> & _). right. right. by exists tag. }
    destruct r as [[]|err|msg]; cbn [fst]; [|by eexists..].
    destruct (IH w1) as (new2 & Htr2 & Hev2).
    eexists. split; [by rewrite Htr2, Htr1, <- app_assoc|].
    intros ev [Hev|Hev]%elem_of_app; [by apply Hround|].
    destruct (Hev2 ev Hev) as (image' & tags' & Hin & Hwhat).
    exists image', tags'. split; [by apply list_elem_of_further|done].
Qed.

(** C3. The reference of an image is normalized by appending [:latest]
    exactly when its final path segment has no [:]: [redis] becomes
    [redis:latest] and [redis:1.2] stays. In a run of [Build] on the
    services of the run order, every service with an image has its
    normalized reference in the plan, with the tag of the service in
    the tag list of that reference, and the plan has no other
    reference. Whatever the run returns, each local-image query and
    each pull command it makes is on the normalized reference of a
    service with an image; when the run returns no error, the query
    has been made on the normalized reference of every such service,
    and the pull too when the cache is disabled. *)
Theorem image_reference_normalized (m : Manifest) (services : list Service) (w : World) :
  runOrder m (opt_Service opts) = inl services ->
  (forall image, normalize_image image = Ok (spec.normalized image))
  /\ (forall image,
        spec.normalized image =
          if strings.Contains (spec.final_segment image) ":" then image
          else (image ++ ":latest")%string)
  /\ normalize_image "redis" = Ok "redis:latest"%string
  /\ normalize_image "redis:1.2" = Ok "redis:1.2"%string
  /\ exists pulls builds new,
       plan_services appName (∅, []) services = Ok (pulls, builds)
       /\ trace (fst (Build m dir appName opts w)) = trace w ++ new
       /\ (forall service,
             service ∈ services -> svc_Image service <> ""%string ->
             exists tags,
               pulls !! spec.normalized (svc_Image service) = Some tags
               /\ Tag service appName ∈ tags)
       /\ (forall image tags,
             pulls !! image = Some tags ->
             exists service,
               service ∈ services /\ svc_Image service <> ""%string
               /\ image = spec.normalized (svc_Image service))
       /\ (forall ev, ev ∈ new ->
             (forall cmd, ev = EvCombinedOutput cmd ->
                exists service,
                  service ∈ services /\ svc_Image service <> ""%string
                  /\ cmd = Docker ["images"; "-q"; spec.normalized (svc_Image service)])
             /\ (forall cmd, ev = EvRun cmd -> docker_verb ev = Some "pull"%string ->
                   exists service,
                     service ∈ services /\ svc_Image service <> ""%string
                     /\ cmd = Docker ["pull"; spec.normalized (svc_Image service)]))
       /\ (snd (Build m dir appName opts w) = Ok tt ->
           forall service,
             service ∈ services -> svc_Image service <> ""%string ->
             EvCombinedOutput (Docker ["images"; "-q"; spec.normalized (svc_Image service)])
               ∈ new
             /\ (Cache opts = false ->
                 EvRun (Docker ["pull"; spec.normalized (svc_Image service)]) ∈ new)).
Proof.
  intros Horder.
  split; [apply normalize_image_normalized|]. split; [done|].
  split; [reflexivity|]. split; [reflexivity|].
  destruct (plan_services_spec appName services ∅ []) as (pulls & Hplan & Hpulls).
  cbn [app] in Hplan.
  (* the references of the plan *)
  assert (forall service, service ∈ services -> svc_Image service <> ""%string ->
            exists tags, pulls !! spec.normalized (svc_Image service) = Some tags
                         /\ Tag service appName ∈ tags) as Hreg.
  { intros service Hin Himage. clear Hplan.
    specialize (Hpulls (spec.normalized (svc_Image service))).
    assert (service ∈ filter (fun s => svc_Image s <> ""%string
                                /\ spec.normalized (svc_Image s)
                                   = spec.normalized (svc_Image service)) services) as Hsel
      by (by apply list_elem_of_filter).
    destruct (filter _ services) as [|s pulled]; [by apply elem_of_nil in Hsel|].
    eexists. split; [exact Hpulls|].
    rewrite lookup_empty. cbn [default app].
    by apply (list_elem_of_fmap_2 (fun s => Tag s appName)). }
  assert (forall image tags, pulls !! image = Some tags ->
            exists service, service ∈ services /\ svc_Image service <> ""%string
                            /\ image = spec.normalized (svc_Image service)) as Hkeys.
  { intros image tags Hkey. clear Hplan Hreg. rewrite (Hpulls image) in Hkey.
    destruct (filter _ services) as [|s pulled] eqn:Hsel;
      [by rewrite lookup_empty in Hkey|].
    assert (s ∈ filter (fun s => svc_Image s <> ""%string
                          /\ spec.normalized (svc_Image s) = image) services) as Hs
      by (rewrite Hsel; apply list_elem_of_here).
    apply list_elem_of_filter in Hs as [[Himage Hnorm] Hin]. by exists s. }
  (* the two loops *)
  unfold Build. rewrite Horder, Hplan. unfold bind.
  destruct (build_services_phase dir appName opts
              (filter (fun s => svc_Image s = ""%string) services) ∅ w)
    as (built & Htr1 & Hphase1).
  assert (forall ev, ev ∈ built ->
            (forall cmd, ev = EvCombinedOutput cmd ->
               exists service, service ∈ services /\ svc_Image service <> ""%string
                 /\ cmd = Docker ["images"; "-q"; spec.normalized (svc_Image service)])
            /\ (forall cmd, ev = EvRun cmd -> docker_verb ev = Some "pull"%string ->
                  exists service, service ∈ services /\ svc_Image service <> ""%string
                    /\ cmd = Docker ["pull"; spec.normalized (svc_Image service)])) as Hbuilt.
  { intros ev Hev. rewrite Forall_forall in Hphase1. specialize (Hphase1 ev Hev).
    split; intros cmd ->; [done|]. by intros Hverb. }
  destruct (build_services _ _ _ _ _ w) as [w1 [memo|err|msg]]; cbn [fst snd] in *.
  2,3: exists pulls, (filter (fun s => svc_Image s = ""%string) services), built;
       do 5 (split; [done|]); by intros.
  destruct (pull_rounds_events (map_range _ pulls) w1) as (pulled & Htr2 & Hev2).
  exists pulls, (filter (fun s => svc_Image s = ""%string) services), (built ++ pulled).
  split; [done|]. split; [by rewrite Htr2, Htr1, app_assoc|].
  split; [done|]. split; [done|]. split.
  - intros ev [Hev|Hev]%elem_of_app; [by apply Hbuilt|].
    destruct (Hev2 ev Hev) as (image & tags & Hin & Hwhat).
    rewrite (map_range_perm _ pulls) in Hin. apply elem_of_map_to_list in Hin.
    destruct (Hkeys _ _ Hin) as (service & Hs & Himage & ->).
    destruct Hwhat as [->|[->|[tag ->]]].
    + split; intros cmd [= <-]. by exists service.
    + split; intros cmd [= <-]. intros _. by exists service.
    + split; intros cmd [= <-]. done.
  - intros Hok service Hin Himage.
    destruct (for_each _ _ w1) as [w2 r] eqn:Hloop. cbn [fst snd] in *. subst r.
    destruct (pull_rounds_calls _ _ _ Hloop) as (flags & _ & _ & Htr3 & Hreach).
    rewrite Htr3 in Htr2. apply app_inv_head in Htr2. subst pulled.
    destruct (Hreg service Hin Himage) as (tags & Hkey & _).
    apply elem_of_map_to_list in Hkey. rewrite <- (map_range_perm _ pulls) in Hkey.
    destruct (Hreach _ _ Hkey) as [Hquery Hpull]. split.
    + apply elem_of_app. by right.
    + intros Hc. apply elem_of_app. right. by apply Hpull.
Qed.

(** C4. In a run of [Build] whose build rounds are over, the loop over
    the images makes one round for each reference of the plan, each
    reference once with the tag list the plan holds for it. Each round
    runs the local-image query, whose error ends the run; it pulls
    exactly when the cache is disabled or the query printed nothing,
    and the wrapped error of a failed pull ends the run; pull or not,
    it then issues one tag operation for each tag of the list, in the
    order of the list, and the wrapped error of the first that fails
    ends the run. A run that returns no error has made, for each
    reference in turn, the query, the pull unless it was skipped with
    the cache enabled, and every tag operation. *)
Theorem image_puller_rounds (m : Manifest) (services : list Service)
    (pulls : gmap string (list string)) (builds : list Service)
    (memo : gmap string string) (w w1 : World) :
  runOrder m (opt_Service opts) = inl services ->
  plan_services appName (∅, []) services = Ok (pulls, builds) ->
  build_services dir appName opts ∅ builds w = (w1, Ok memo) ->
  exists rounds : list (string * list string),
    NoDup rounds.*1
    /\ (forall image tags, (image, tags) ∈ rounds <-> pulls !! image = Some tags)
    /\ spec.images_pulled opts rounds w1
         (fst (Build m dir appName opts w)) (snd (Build m dir appName opts w))
    /\ (snd (Build m dir appName opts w) = Ok tt ->
        exists pulled : list bool,
          length pulled = length rounds
          /\ Forall (fun pulling => pulling = false -> Cache opts = true) pulled
          /\ trace (fst (Build m dir appName opts w)) =
               trace w1
                 ++ concat (zip_with (fun it pulling => spec.round_calls it.1 pulling it.2)
                              rounds pulled)).
Proof.
  intros Horder Hplan Hbuilt.
  exists (map_range _ pulls).
  split; [rewrite (map_range_perm _ pulls); apply NoDup_fst_map_to_list|].
  split.
  { intros image tags. rewrite (map_range_perm _ pulls). apply elem_of_map_to_list. }
  assert (Build m dir appName opts w
          = for_each (map_range _ pulls) (fun it => pull_image opts it.1 it.2) w1) as ->.
  { unfold Build. rewrite Horder, Hplan. unfold bind. by rewrite Hbuilt. }
  split; [apply pull_rounds_pulled|].
  intros Hok.
  destruct (for_each _ _ w1) as [w2 r] eqn:Hloop. cbn [fst snd] in *. subst r.
  destruct (pull_rounds_calls _ _ _ Hloop) as (pulled & Hlen & Hskip & Htr & _).
  by exists pulled.
Qed.

End plan_rounds.

(** ** Sample runs on a plan with images *)

Section plan_samples.
Import sample.

Lemma image_reference_normalized_witness :
  (forall image, normalize_image image = Ok (spec.normalized image))
  /\ (forall image,
        spec.normalized image =
          if strings.Contains (spec.final_segment image) ":" then image
          else (image ++ ":latest")%string)
  /\ normalize_image "redis" = Ok "redis:latest"%string
  /\ normalize_image "redis:1.2" = Ok "redis:1.2"%string
  /\ exists pulls builds new,
       @plan_services quiet "app" (∅, []) [web; cases.db] = Ok (pulls, builds)
       /\ trace (fst (@Build quiet [web; cases.db] "/app" "app" (options false "" [])
                        (world quiet tt)))
          = trace (world quiet tt) ++ new
       /\ (forall service,
             service ∈ [web; cases.db] -> svc_Image service <> ""%string ->
             exists tags,
               pulls !! spec.normalized (svc_Image service) = Some tags
               /\ @Tag quiet service "app" ∈ tags)
       /\ (forall image tags,
             pulls !! image = Some tags ->
             exists service,
               service ∈ [web; cases.db] /\ svc_Image service <> ""%string
               /\ image = spec.normalized (svc_Image service))
       /\ (forall ev, ev ∈ new ->
             (forall cmd, ev = EvCombinedOutput cmd ->
                exists service,
                  service ∈ [web; cases.db] /\ svc_Image service <> ""%string
                  /\ cmd = Docker ["images"; "-q"; spec.normalized (svc_Image service)])
             /\ (forall cmd, ev = EvRun cmd -> docker_verb ev = Some "pull"%string ->
                   exists service,
                     service ∈ [web; cases.db] /\ svc_Image service <> ""%string
                     /\ cmd = Docker ["pull"; spec.normalized (svc_Image service)]))
       /\ (snd (@Build quiet [web; cases.db] "/app" "app" (options false "" [])
                  (world quiet tt)) = Ok tt ->
           forall service,
             service ∈ [web; cases.db] -> svc_Image service <> ""%string ->
             EvCombinedOutput (Docker ["images"; "-q"; spec.normalized (svc_Image service)])
               ∈ new
             /\ (Cache (options false "" []) = false ->
                 EvRun (Docker ["pull"; spec.normalized (svc_Image service)]) ∈ new)).
Proof.
  apply (@image_reference_normalized quiet "/app" "app" (options false "" [])
           [web; cases.db] [web; cases.db] (world quiet tt)).
  reflexivity.
Defined.

Lemma image_puller_rounds_witness :
  exists rounds : list (string * list string),
    NoDup rounds.*1
    /\ (forall image tags,
          (image, tags) ∈ rounds <->
          ({[ "redis:latest" := ["app/db"; "app/cache"] ]} : gmap string (list string))
            !! image = Some tags)
    /\ spec.images_pulled (options true "" []) rounds
         (fst (@build_services quiet "/app" "app" (options true "" []) ∅ [web]
                 (world quiet tt)))
         (fst (@Build quiet [cases.db; web; sample.pulled "cache" "redis:latest"] "/app" "app"
                 (options true "" []) (world quiet tt)))
         (snd (@Build quiet [cases.db; web; sample.pulled "cache" "redis:latest"] "/app" "app"
                 (options true "" []) (world quiet tt)))
    /\ (snd (@Build quiet [cases.db; web; sample.pulled "cache" "redis:latest"] "/app" "app"
               (options true "" []) (world quiet tt)) = Ok tt ->
        exists pulled : list bool,
          length pulled = length rounds
          /\ Forall (fun pulling => pulling = false -> Cache (options true "" []) = true)
               pulled
          /\ trace (fst (@Build quiet [cases.db; web; sample.pulled "cache" "redis:latest"]
                           "/app" "app" (options true "" []) (world quiet tt))) =
               trace (fst (@build_services quiet "/app" "app" (options true "" []) ∅ [web]
                             (world quiet tt)))
                 ++ concat (zip_with (fun it pulling => spec.round_calls it.1 pulling it.2)
                              rounds pulled)).
Proof.
  apply (@image_puller_rounds quiet "/app" "app" (options true "" [])
           [cases.db; web; sample.pulled "cache" "redis:latest"]
           [cases.db; web; sample.pulled "cache" "redis:latest"]
           {[ "redis:latest" := ["app/db"; "app/cache"] ]} [web]
           {[ "web" := "app/web" ]} (world quiet tt)).
  - reflexivity.
  - vm_compute. reflexivity.
  - vm_compute. reflexivity.
Defined.

End plan_samples.
